(** * sftp-sync-deploy: the reconciliation engine of [index.js]

    A shallow embedding of [SftpDeploy] (start, getSftp, sync, upload,
    removeRemote, noop, buildProject, isIgnored), the properties of its
    specification, and further properties of the code.

    Modelling choices, all visible in the definitions below:
    - a promise is a computation in the monad [M]: it threads the mutable
      part of the deployer ([this.sftp]) and the state of the remote server,
      records every call made to the ssh2 client, and ends in an [Outcome]:
      resolved, rejected, or never settled ([Pending], what a promise whose
      [resolve]/[reject] is never called does);
    - [Promise.all] runs the operations of a level one after the other in
      the order they were pushed, none is cancelled when another fails;
    - the local file system is read-only during a run and its reads succeed;
    - recursion on the directory trees is bounded by a fuel argument; a run
      that exhausts it ends in [OutOfFuel], which is no promise state;
    - [util.getTask] is not among the sources at hand: [Util.getTask] follows
      the decision table of the specification and what it says its actions
      mean;
    - the server is abstract ([Env]) wherever a property does not depend on
      its answers, and a tree of named entries ([RemoteTree]) where it does;
    - [start] sees the connection as the one event that follows [connect],
      ['ready'] or ['error']; a connection lost during the run is left out,
      and so is what a closing connection does to the operations that go on
      after a rejection. *)

From Stdlib Require Import String Ascii List Bool Arith Lia.
Import ListNotations.
Local Open Scope list_scope.
Local Open Scope string_scope.

(** ** Data model *)

(** [stats.local]: ['file'], ['dir'], ['ignored'] or [null]. *)
Inductive LocalStatus := l_file | l_dir | l_ignored | l_null.

(** [stats.remote]: ['file'], ['dir'] or [null]. *)
Inductive RemoteStatus := r_file | r_dir | r_null.

Record Stats := { local : LocalStatus; remote : RemoteStatus }.

(** [task.method] names the method run through [this[task.method]]. *)
Inductive Method := m_upload | m_sync | m_noop.

(** [removeRemote_first] is [task.removeRemote]; the method of the deployer
    keeps the name [removeRemote]. *)
Record Task := { method : Method; removeRemote_first : bool }.

Definition LocalStatus_eqb (a b : LocalStatus) : bool :=
  match a, b with
  | l_file, l_file | l_dir, l_dir | l_ignored, l_ignored | l_null, l_null => true
  | _, _ => false
  end.

Definition Method_eqb (a b : Method) : bool :=
  match a, b with
  | m_upload, m_upload | m_sync, m_sync | m_noop, m_noop => true
  | _, _ => false
  end.

Module Util.

(** The actions of the decision table: [Upload] transfers a single file,
    [Sync] means "ensure remote directory exists, then recurse", [Noop]
    performs no transfer. *)
Inductive Action := Upload | Sync | Noop.

(** Modelled from the spec: the decision table of the Entry Classifier, the
    action and [removeRemoteFirst] of every pair of statuses.  The pair
    ([null], [null]), which the table leaves out, follows the rule given for
    every entry whose local side is absent. *)
Definition classify (stats : Stats) : Action * bool :=
  match local stats, remote stats with
  | l_ignored, _ => (Noop, false)
  | l_null, _ => (Noop, true)
  | l_file, r_null => (Upload, false)
  | l_file, r_file => (Upload, false)
  | l_file, r_dir => (Upload, true)
  | l_dir, r_null => (Sync, false)
  | l_dir, r_dir => (Sync, false)
  | l_dir, r_file => (Sync, true)
  end.

(** Modelled from the spec: [util.getTask] of [./util], which is not part of
    the sources at hand.  The task carries what the table decides, with the
    action as the name of the method that [this[task.method]] runs on the
    two paths.  [Upload] is [upload] and [Noop] is [noop].  [Sync] is
    "ensure remote directory exists, then recurse": where the remote
    directory is there, it is [sync]; where the directory has to be created
    (nothing remote, or a remote file that is removed first), it is
    [upload], the one method of the deployer that creates a directory and
    goes on with what the local directory holds.  These are the local
    directories whose method is not ['sync'], the ones the preview of
    [sync] looks for with [stats.local === 'dir']. *)
Definition getTask (stats : Stats) : Task :=
  {| method := match fst (classify stats) with
               | Upload => m_upload
               | Noop => m_noop
               | Sync => match remote stats with
                         | r_dir => m_sync
                         | _ => m_upload
                         end
               end;
     removeRemote_first := snd (classify stats) |}.

End Util.

(** ** The ssh2 client and the remote server *)

(** An error passed to a callback; [code] is [err.code]. *)
Record SftpError := { code : nat }.

Inductive Reply (A : Type) :=
| Ok (a : A)
| Err (e : SftpError).
Arguments Ok {A} a.
Arguments Err {A} e.

(** The [SFTPWrapper] object handed out by [client.sftp]. *)
Definition Handle := nat.

(** What the process runs against.  [R] is the state of the remote file
    system; the [srv_*] fields answer the requests of the SFTP stream;
    [client_sftp k] is the answer to the [k]-th call of [client.sftp];
    [readdirSync] and [isDirectory] are [fs.readdirSync] and
    [fs.statSync(_).isDirectory()]; [minimatch] is the glob library and
    [normalizedRelativePath] the helper of [./util], both taken as given. *)
Record Env (R : Type) := {
  path_sep : string;
  readdirSync : string -> list string;
  isDirectory : string -> bool;
  minimatch : string -> string -> bool;
  normalizedRelativePath : string -> string -> string;
  client_sftp : nat -> Reply Handle;
  srv_readdir : R -> string -> Reply (list string);
  srv_stat : R -> string -> Reply bool;
  srv_mkdir : R -> string -> Reply R;
  srv_fastPut : R -> string -> string -> Reply R;
  srv_rmdir : R -> string -> Reply R;
  srv_unlink : R -> string -> Reply R
}.
Arguments path_sep {R}.
Arguments readdirSync {R}.
Arguments isDirectory {R}.
Arguments minimatch {R}.
Arguments normalizedRelativePath {R}.
Arguments client_sftp {R}.
Arguments srv_readdir {R}.
Arguments srv_stat {R}.
Arguments srv_mkdir {R}.
Arguments srv_fastPut {R}.
Arguments srv_rmdir {R}.
Arguments srv_unlink {R}.

(** The immutable fields of an [SftpDeploy] instance. *)
Record SftpDeploy := {
  localDir : string;
  remoteDir : string;
  dryRun : bool;
  exclude : list string
}.

(** The mutable state: [this.sftp], how many sessions the client was asked
    for, and the remote file system. *)
Record World (R : Type) := {
  sftp : option Handle;
  opened : nat;
  remote_fs : R
}.
Arguments sftp {R}.
Arguments opened {R}.
Arguments remote_fs {R}.
Arguments Build_World {R}.

(** Calls observed during a run: requests to the client and the stream, the
    methods of the deployer entered, and the task derived for an entry. *)
Inductive Event :=
| EvSession
| EvReaddir (remotePath : string)
| EvStat (remotePath : string)
| EvMkdir (remotePath : string)
| EvFastPut (localPath remotePath : string)
| EvRmdir (remotePath : string)
| EvUnlink (remotePath : string)
| EvSync (localPath remotePath : string)
| EvUpload (localPath remotePath : string)
| EvRemoveRemote (remotePath : string)
| EvNoop
| EvTask (localFilePath : string) (stats : Stats) (task : Task).

(** Requests that change the remote tree, and the methods that issue them. *)
Definition mutating (e : Event) : bool :=
  match e with
  | EvMkdir _ | EvFastPut _ _ | EvRmdir _ | EvUnlink _
  | EvUpload _ _ | EvRemoveRemote _ => true
  | _ => false
  end.

(** What a scan consists of: the session, listings and stats, together with
    the entry into [sync] and the decision taken for an entry. *)
Definition reading (e : Event) : bool :=
  match e with
  | EvSession | EvReaddir _ | EvStat _ | EvSync _ _ | EvTask _ _ _ => true
  | _ => false
  end.

(** ** Promises *)

Inductive Outcome (A : Type) :=
| Resolved (a : A)
| Rejected (e : SftpError)
| Pending
| OutOfFuel.
Arguments Resolved {A} a.
Arguments Rejected {A} e.
Arguments Pending {A}.
Arguments OutOfFuel {A}.

Definition M (R A : Type) : Type := World R -> Outcome A * World R * list Event.

Definition ret {R A} (a : A) : M R A := fun w => (Resolved a, w, []).

Definition emit {R} (e : Event) : M R unit := fun w => (Resolved tt, w, [e]).

Definition out_of_fuel {R A} : M R A := fun w => (OutOfFuel, w, []).

(** [p.then(k)]: [k] runs once [p] has resolved. *)
Definition bind {R A B} (m : M R A) (k : A -> M R B) : M R B := fun w =>
  match m w with
  | (Resolved a, w1, t1) => let '(o, w2, t2) := k a w1 in (o, w2, (t1 ++ t2)%list)
  | (Rejected e, w1, t1) => (Rejected e, w1, t1)
  | (Pending, w1, t1) => (Pending, w1, t1)
  | (OutOfFuel, w1, t1) => (OutOfFuel, w1, t1)
  end.

Declare Scope promise_scope.
Delimit Scope promise_scope with promise.
Notation "x <- m ;; k" := (bind m (fun x => k))
  (at level 100, m at next level, right associativity) : promise_scope.
Notation "m ;; k" := (bind m (fun _ => k))
  (at level 100, right associativity) : promise_scope.
Local Open Scope promise_scope.

(** [p.then(k)] inside [new Promise((resolve, reject) => ...)] with no
    rejection handler: when [p] rejects, neither [resolve] nor [reject] of the
    enclosing promise is ever called. *)
Definition unhandled {R A} (m : M R A) : M R A := fun w =>
  match m w with
  | (Rejected _, w1, t1) => (Pending, w1, t1)
  | r => r
  end.

Definition join (o1 o2 : Outcome unit) : Outcome unit :=
  match o1, o2 with
  | OutOfFuel, _ | _, OutOfFuel => OutOfFuel
  | Rejected e, _ => Rejected e
  | _, Rejected e => Rejected e
  | Pending, _ | _, Pending => Pending
  | Resolved _, Resolved _ => Resolved tt
  end.

Definition forget {A} (o : Outcome A) : Outcome unit :=
  match o with
  | Resolved _ => Resolved tt
  | Rejected e => Rejected e
  | Pending => Pending
  | OutOfFuel => OutOfFuel
  end.

(** [Promise.all(operations)]. *)
Fixpoint all {R A} (operations : list (M R A)) : M R unit := fun w =>
  match operations with
  | [] => (Resolved tt, w, [])
  | op :: rest =>
      let '(o1, w1, t1) := op w in
      let '(o2, w2, t2) := all rest w1 in
      (join (forget o1) o2, w2, (t1 ++ t2)%list)
  end.

(** ** The project map

    A JS [Map] keeps its keys in insertion order; [set] on a key already
    present replaces the value where it stands. *)
Definition Project := list (string * Stats).

Fixpoint Map_get (project : Project) (filename : string) : option Stats :=
  match project with
  | [] => None
  | (k, v) :: rest => if String.eqb k filename then Some v else Map_get rest filename
  end.

Fixpoint Map_set (project : Project) (filename : string) (stats : Stats) : Project :=
  match project with
  | [] => [(filename, stats)]
  | (k, v) :: rest =>
      if String.eqb k filename then (k, stats) :: rest
      else (k, v) :: Map_set rest filename stats
  end.

Section Deployer.

Context {R : Type}.
Variable env : Env R.
Variable this : SftpDeploy.

(** *** Requests on the SFTP stream *)

Definition request {A} (ev : Event) (answer : R -> Reply A)
    (commit : World R -> A -> World R) : M R A := fun w =>
  match answer (remote_fs w) with
  | Ok a => (Resolved a, commit w a, [ev])
  | Err e => (Rejected e, w, [ev])
  end.

Definition set_remote (w : World R) (r : R) : World R :=
  {| sftp := sftp w; opened := opened w; remote_fs := r |}.

Definition sftp_readdir (p : string) : M R (list string) :=
  request (EvReaddir p) (fun r => srv_readdir env r p) (fun w _ => w).

Definition sftp_stat (p : string) : M R bool :=
  request (EvStat p) (fun r => srv_stat env r p) (fun w _ => w).

Definition sftp_mkdir (p : string) : M R unit :=
  _ <- request (EvMkdir p) (fun r => srv_mkdir env r p) set_remote ;; ret tt.

Definition sftp_fastPut (l p : string) : M R unit :=
  _ <- request (EvFastPut l p) (fun r => srv_fastPut env r l p) set_remote ;; ret tt.

Definition sftp_rmdir (p : string) : M R unit :=
  _ <- request (EvRmdir p) (fun r => srv_rmdir env r p) set_remote ;; ret tt.

Definition sftp_unlink (p : string) : M R unit :=
  _ <- request (EvUnlink p) (fun r => srv_unlink env r p) set_remote ;; ret tt.

(** *** [SftpDeploy.prototype.getSftp] *)
Definition getSftp : M R Handle := fun w =>
  match sftp w with
  | Some h => (Resolved h, w, [])
  | None =>
      match client_sftp env (opened w) with
      | Err e =>
          (Rejected e,
           {| sftp := None; opened := S (opened w); remote_fs := remote_fs w |},
           [EvSession])
      | Ok h =>
          (Resolved h,
           {| sftp := Some h; opened := S (opened w); remote_fs := remote_fs w |},
           [EvSession])
      end
  end.

(** *** [SftpDeploy.prototype.isIgnored] *)
Definition isIgnored (localPath : string) (isDir : bool) : bool :=
  let pathForMatch := normalizedRelativePath env localPath (localDir this) in
  let pathForMatch := if isDir then pathForMatch ++ "/" else pathForMatch in
  existsb (fun pattern => minimatch env pathForMatch pattern) (exclude this).

(** *** [SftpDeploy.prototype.buildProject] *)

(** The synchronous part: one entry per local name, [remote] still [null]. *)
Definition localProject (localPath : string) : Project :=
  fold_left
    (fun project filename =>
       let fullPath := localPath ++ path_sep env ++ filename in
       let isDir := isDirectory env fullPath in
       let ignored := isIgnored fullPath isDir in
       Map_set project filename
         {| local := if ignored then l_ignored else if isDir then l_dir else l_file;
            remote := r_null |})
    (readdirSync env localPath) [].

(** The callback of one [sftp.stat]: it writes the remote type in the map. *)
Definition setRemote (project : Project) (filename : string) (isDir : bool) : Project :=
  let type := if isDir then r_dir else r_file in
  match Map_get project filename with
  | Some stats => Map_set project filename {| local := local stats; remote := type |}
  | None => Map_set project filename {| local := l_null; remote := type |}
  end.

(** [remoteList.forEach(...)] followed by [Promise.all(operations)]: every
    stat is issued; each successful one updates the shared map; the promise
    rejects with the first failure. *)
Fixpoint setStats (remotePath : string) (remoteList : list string)
    (project : Project) : M R Project :=
  match remoteList with
  | [] => ret project
  | filename :: rest => fun w =>
      let p := remotePath ++ "/" ++ filename in
      match srv_stat env (remote_fs w) p with
      | Ok isDir =>
          let '(o, w1, t) := setStats remotePath rest (setRemote project filename isDir) w in
          (o, w1, EvStat p :: t)
      | Err err =>
          let '(_, w1, t) := setStats remotePath rest project w in
          (Rejected err, w1, EvStat p :: t)
      end
  end.

Definition buildProject (localPath remotePath : string) : M R Project :=
  let project := localProject localPath in
  _ <- unhandled getSftp ;;
  fun w =>
    match srv_readdir env (remote_fs w) remotePath with
    | Err err =>
        if Nat.eqb (code err) 2 then (Resolved project, w, [EvReaddir remotePath])
        else (Rejected err, w, [EvReaddir remotePath])
    | Ok remoteList =>
        let '(o, w1, t) := setStats remotePath remoteList project w in
        (o, w1, EvReaddir remotePath :: t)
    end.

(** *** [SftpDeploy.prototype.upload] *)
Fixpoint upload (fuel : nat) (localPath remotePath : string) : M R unit :=
  match fuel with
  | 0 => out_of_fuel
  | S n =>
      emit (EvUpload localPath remotePath) ;;
      let isDir := isDirectory env localPath in
      _ <- unhandled getSftp ;;
      if isDir then
        let localList := readdirSync env localPath in
        sftp_mkdir remotePath ;;
        let children :=
          map (fun filename =>
                 upload n (localPath ++ path_sep env ++ filename)
                          (remotePath ++ "/" ++ filename))
              (filter (fun filename =>
                         let fullPath := localPath ++ path_sep env ++ filename in
                         negb (isIgnored fullPath (isDirectory env fullPath)))
                      localList) in
        unhandled (all children)
      else
        sftp_fastPut localPath remotePath
  end.

(** *** [SftpDeploy.prototype.removeRemote] *)
Fixpoint removeRemote (fuel : nat) (remotePath : string) : M R unit :=
  match fuel with
  | 0 => out_of_fuel
  | S n =>
      emit (EvRemoveRemote remotePath) ;;
      _ <- unhandled getSftp ;;
      isDir <- sftp_stat remotePath ;;
      if isDir then
        list <- sftp_readdir remotePath ;;
        let children :=
          map (fun filename => removeRemote n (remotePath ++ "/" ++ filename)) list in
        unhandled (all children) ;;
        sftp_rmdir remotePath
      else
        sftp_unlink remotePath
  end.

(** *** [SftpDeploy.prototype.noop] *)
Definition noop : M R unit := emit EvNoop.

(** *** [SftpDeploy.prototype.sync] *)

Definition void {A} (m : M R A) : M R unit := _ <- m ;; ret tt.

(** [this[task.method].apply(this, args)] *)
Definition apply_method (sync_ : string -> string -> M R bool) (n : nat)
    (m : Method) (localFilePath remoteFilePath : string) : M R unit :=
  match m with
  | m_upload => upload n localFilePath remoteFilePath
  | m_sync => void (sync_ localFilePath remoteFilePath)
  | m_noop => noop
  end.

(** What the body of [project.forEach] pushes on [operations] for an entry. *)
Definition pushed (sync_ : string -> string -> M R bool) (n : nat)
    (localPath remotePath : string) (entry : string * Stats) : list (M R unit) :=
  let '(filename, stats) := entry in
  let localFilePath := localPath ++ path_sep env ++ filename in
  let remoteFilePath := remotePath ++ "/" ++ filename in
  let task := Util.getTask stats in
  if dryRun this then
    if Method_eqb (method task) m_sync || LocalStatus_eqb (local stats) l_dir
    then [void (sync_ localFilePath remoteFilePath)]
    else []
  else
    let preMethod :=
      if removeRemote_first task then removeRemote n remoteFilePath else ret tt in
    [preMethod ;; apply_method sync_ n (method task) localFilePath remoteFilePath].

(** The task derived for an entry, as the body of [forEach] computes it
    (and, in a dry run, prints it). *)
Definition decision (localPath : string) (entry : string * Stats) : Event :=
  EvTask (localPath ++ path_sep env ++ fst entry) (snd entry) (Util.getTask (snd entry)).

Definition emits (evs : list Event) : M R unit := fun w => (Resolved tt, w, evs).

Fixpoint sync (fuel : nat) (localPath remotePath : string) : M R bool :=
  match fuel with
  | 0 => out_of_fuel
  | S n =>
      emit (EvSync localPath remotePath) ;;
      project <- buildProject localPath remotePath ;;
      emits (map (decision localPath) project) ;;
      all (flat_map (pushed (sync n) n localPath remotePath) project) ;;
      ret true
  end.

End Deployer.

(** ** [SftpDeploy.prototype.start]: the connection around a run *)

(** The fields of [this.config] that [start] reads; a field that is not set
    is [None].  ([localDir] and [remoteDir] are read by the constructor.) *)
Record Config := {
  host : option string;
  port : option nat;
  username : option string;
  password : option string;
  passphrase : option string;
  privateKey : option string
}.

(** The object handed to [client.connect]; [connect_privateKey] is the
    content of the key file. *)
Record ConnectOptions := {
  connect_host : option string;
  connect_port : nat;
  connect_username : option string;
  connect_password : option string;
  connect_passphrase : option string;
  connect_privateKey : option string
}.

(** The ssh2 client as [start] uses it: [client_connect] is the event that
    follows [connect], ['ready'] ([Ok]) or ['error'] ([Err]); [readFileSync]
    is [fs.readFileSync]. *)
Record Connection := {
  readFileSync : string -> string;
  client_connect : ConnectOptions -> Reply unit
}.

(** What the client is asked before it is asked to end: to connect, and what
    the run asks of it. *)
Inductive ClientEvent :=
| ClientConnect (options : ConnectOptions)
| ClientRun (e : Event).

(** Whether [client.end] is called, and when.  It is called in the [then]
    that follows the [then] and the [catch] on the promise of the run: when
    that promise settles.  A run that resolved has nothing left to ask,
    since [Promise.all] resolves once every operation has.  A run that
    rejected may have operations that still go on, since [Promise.all]
    rejects with the first operation that does: what these ask after the
    rejection, they ask after [client.end] was called. *)
Inductive Ending :=
| NeverEnded
| EndedAfterAll
| EndedOnRejection.

(** What [start] comes to: how its promise settles, the world it leaves,
    what the client was asked, and the call of [client.end]. *)
Record Started (R : Type) := {
  settled : Outcome bool;
  final : World R;
  asked : list ClientEvent;
  ending : Ending
}.
Arguments settled {R}.
Arguments final {R}.
Arguments asked {R}.
Arguments ending {R}.

(** [this.config.port || 22] and
    [this.config.privateKey ? fs.readFileSync(this.config.privateKey) : undefined]:
    [0] and the empty string are falsy. *)
Definition connectOptions (c : Connection) (config : Config) : ConnectOptions :=
  {| connect_host := host config;
     connect_port := match port config with
                     | Some (S n) => S n
                     | _ => 22
                     end;
     connect_username := username config;
     connect_password := password config;
     connect_passphrase := passphrase config;
     connect_privateKey := match privateKey config with
                           | Some (String a s) => Some (readFileSync c (String a s))
                           | _ => None
                           end |}.

(** On ['error'] the promise is rejected and nothing else happens; on
    ['ready'] the run starts, and [client.end] is called once the run has
    settled.  After a rejection, [asked] and [final] are those of the
    operations of the run carried to their end, as if the closing
    connection still served them; where among them the call of
    [client.end] falls is not said. *)
Definition start {R} (c : Connection) (config : Config) (env : Env R) (this : SftpDeploy)
    (fuel : nat) (w : World R) : Started R :=
  let options := connectOptions c config in
  match client_connect c options with
  | Err err =>
      {| settled := Rejected err; final := w; asked := [ClientConnect options];
         ending := NeverEnded |}
  | Ok _ =>
      let '(o, w1, t) := sync env this fuel (localDir this) (remoteDir this) w in
      let requests := ClientConnect options :: map ClientRun t in
      match o with
      | Resolved _ =>
          {| settled := Resolved true; final := w1; asked := requests;
             ending := EndedAfterAll |}
      | Rejected err =>
          {| settled := Rejected err; final := w1; asked := requests;
             ending := EndedOnRejection |}
      | Pending =>
          {| settled := Pending; final := w1; asked := requests; ending := NeverEnded |}
      | OutOfFuel =>
          {| settled := OutOfFuel; final := w1; asked := requests; ending := NeverEnded |}
      end
  end.

(** ** A remote server over a directory tree

    The answers of an SFTP server whose file system is a tree of named
    entries.  Only names and types are kept: the engine never looks at file
    contents.  A path is resolved from the root, component by component;
    empty components are skipped. *)
Module RemoteTree.

#[warnings="-register-all"]
Inductive Node :=
| File
| Dir (children : list (string * Node)).

(** The pieces of [s] between separators ['/']. *)
Fixpoint pieces (s : string) : list string :=
  match s with
  | EmptyString => [EmptyString]
  | String c s' =>
      if Ascii.eqb c "/"%char then EmptyString :: pieces s'
      else match pieces s' with
           | h :: t => String c h :: t
           | [] => [String c EmptyString]
           end
  end.

Definition nonempty (s : string) : bool := negb (String.eqb s "").

Definition resolve (p : string) : list string := filter nonempty (pieces p).

Fixpoint assoc (name : string) (cs : list (string * Node)) : option Node :=
  match cs with
  | [] => None
  | (k, v) :: rest => if String.eqb k name then Some v else assoc name rest
  end.

Fixpoint replace (name : string) (v : Node) (cs : list (string * Node))
    : list (string * Node) :=
  match cs with
  | [] => []
  | (k, v0) :: rest =>
      if String.eqb k name then (k, v) :: rest else (k, v0) :: replace name v rest
  end.

Fixpoint remove (name : string) (cs : list (string * Node)) : list (string * Node) :=
  match cs with
  | [] => []
  | (k, v) :: rest =>
      if String.eqb k name then remove name rest else (k, v) :: remove name rest
  end.

Fixpoint lookup (t : Node) (path : list string) : option Node :=
  match path with
  | [] => Some t
  | name :: rest =>
      match t with
      | File => None
      | Dir cs =>
          match assoc name cs with
          | Some c => lookup c rest
          | None => None
          end
      end
  end.

(** Rewrites the children of the directory at [dir]; [None] when [dir] is no
    directory or [f] refuses. *)
Fixpoint modify (t : Node) (dir : list string)
    (f : list (string * Node) -> option (list (string * Node))) : option Node :=
  match t with
  | File => None
  | Dir cs =>
      match dir with
      | [] => option_map Dir (f cs)
      | name :: rest =>
          match assoc name cs with
          | Some c => option_map (fun c' => Dir (replace name c' cs)) (modify c rest f)
          | None => None
          end
      end
  end.

Definition no_such_file : SftpError := {| code := 2 |}.
Definition failure : SftpError := {| code := 4 |}.

(** Applies [f name] to the children of the parent of [p]. *)
Definition at_entry (t : Node) (p : string)
    (f : string -> list (string * Node) -> option (list (string * Node)))
    : Reply Node :=
  match rev (resolve p) with
  | [] => Err failure
  | name :: rparent =>
      match modify t (rev rparent) (f name) with
      | Some t' => Ok t'
      | None => Err failure
      end
  end.

Definition stat (t : Node) (p : string) : Reply bool :=
  match lookup t (resolve p) with
  | Some File => Ok false
  | Some (Dir _) => Ok true
  | None => Err no_such_file
  end.

Definition readdir (t : Node) (p : string) : Reply (list string) :=
  match lookup t (resolve p) with
  | Some (Dir cs) => Ok (map fst cs)
  | Some File => Err failure
  | None => Err no_such_file
  end.

Definition mkdir (t : Node) (p : string) : Reply Node :=
  at_entry t p (fun name cs =>
    match assoc name cs with
    | Some _ => None
    | None => Some (cs ++ [(name, Dir [])])%list
    end).

Definition fastPut (t : Node) (localPath p : string) : Reply Node :=
  at_entry t p (fun name cs =>
    match assoc name cs with
    | Some (Dir _) => None
    | Some File => Some cs
    | None => Some (cs ++ [(name, File)])%list
    end).

Definition unlink (t : Node) (p : string) : Reply Node :=
  at_entry t p (fun name cs =>
    match assoc name cs with
    | Some File => Some (remove name cs)
    | _ => None
    end).

Definition rmdir (t : Node) (p : string) : Reply Node :=
  at_entry t p (fun name cs =>
    match assoc name cs with
    | Some (Dir []) => Some (remove name cs)
    | _ => None
    end).

(** *** Well-formed trees and the requests that change a tree *)

(** A name that is one path component: not empty, no separator. *)
Definition proper (name : string) : Prop := resolve name = [name].

(** Every name in the tree is one path component. *)
Fixpoint wf (t : Node) : Prop :=
  match t with
  | File => True
  | Dir cs =>
      (fix each (cs : list (string * Node)) : Prop :=
         match cs with
         | [] => True
         | (k, v) :: rest => proper k /\ wf v /\ each rest
         end) cs
  end.

Definition wfs (cs : list (string * Node)) : Prop :=
  Forall (fun kv => proper (fst kv) /\ wf (snd kv)) cs.

Inductive mutation (t : Node) (q : string) (t' : Node) : Prop :=
| mutation_mkdir : mkdir t q = Ok t' -> mutation t q t'
| mutation_fastPut (l : string) : fastPut t l q = Ok t' -> mutation t q t'
| mutation_rmdir : rmdir t q = Ok t' -> mutation t q t'
| mutation_unlink : unlink t q = Ok t' -> mutation t q t'.

(** The local tree is read the same way, with ['/'] as [path.sep]. *)
Definition local_readdir (t : Node) (p : string) : list string :=
  match lookup t (resolve p) with
  | Some (Dir cs) => map fst cs
  | _ => []
  end.

Definition local_isDirectory (t : Node) (p : string) : bool :=
  match lookup t (resolve p) with
  | Some (Dir _) => true
  | _ => false
  end.

(** A process on a POSIX host whose local tree is [localTree], talking to a
    tree server through a client that always grants the session.  The glob
    matcher and [util.normalizedRelativePath] are those of the caller. *)
Definition env (localTree : Node) (glob : string -> string -> bool)
    (relative : string -> string -> string) : Env Node :=
  {| path_sep := "/";
     readdirSync := local_readdir localTree;
     isDirectory := local_isDirectory localTree;
     minimatch := glob;
     normalizedRelativePath := relative;
     client_sftp := fun k => Ok k;
     srv_readdir := readdir;
     srv_stat := stat;
     srv_mkdir := mkdir;
     srv_fastPut := fastPut;
     srv_rmdir := rmdir;
     srv_unlink := unlink |}.

(** The number of levels of a tree. *)
Fixpoint height (t : Node) : nat :=
  match t with
  | File => 0
  | Dir cs =>
      S ((fix highest (cs : list (string * Node)) : nat :=
            match cs with
            | [] => 0
            | (_, v) :: rest => Nat.max (height v) (highest rest)
            end) cs)
  end.

(** A tree as a file system has it: in every directory the names are path
    components and no name occurs twice. *)
Fixpoint tidy (t : Node) : Prop :=
  match t with
  | File => True
  | Dir cs =>
      NoDup (map fst cs) /\
      (fix each (cs : list (string * Node)) : Prop :=
         match cs with
         | [] => True
         | (k, v) :: rest => proper k /\ tidy v /\ each rest
         end) cs
  end.

(** [t] with [node] added under the name [name] to the directory at [d]. *)
Definition graft (t : Node) (d : list string) (name : string) (node : Node) : option Node :=
  modify t d (fun cs => Some (cs ++ [(name, node)])%list).

Definition is_dir (t : Node) : bool :=
  match t with
  | Dir _ => true
  | File => false
  end.

End RemoteTree.

(** ** A concrete deployment, used to run the definitions *)
Module Demo.
Import RemoteTree.

(** [s] without the prefix [pre], if it starts with it. *)
Fixpoint strip (pre s : string) : string :=
  match pre, s with
  | EmptyString, _ => s
  | String a pre', String b s' => if Ascii.eqb a b then strip pre' s' else String b s'
  | _, EmptyString => EmptyString
  end.

Definition relative (localPath localDir : string) : string :=
  strip (localDir ++ "/") localPath.

(** Patterns without wildcards: a pattern matches the path equal to it. *)
Definition glob (path pattern : string) : bool := String.eqb path pattern.

Definition deployer (dry : bool) (patterns : list string) : SftpDeploy :=
  {| localDir := "/site"; remoteDir := "/www"; dryRun := dry; exclude := patterns |}.

Definition fresh (r : Node) : World Node := {| sftp := None; opened := 0; remote_fs := r |}.

(** Local: [a.txt], [sub/x.txt], [logs/app.log]. *)
Definition localTree : Node :=
  Dir [("site", Dir [("a.txt", File);
                     ("sub", Dir [("x.txt", File)]);
                     ("logs", Dir [("app.log", File)])])].

(** Remote: [old.txt], [logs] (a file), [a.txt] (a directory holding [b]). *)
Definition remoteTree : Node :=
  Dir [("www", Dir [("old.txt", File);
                    ("logs", File);
                    ("a.txt", Dir [("b", File)])])].

Definition demo_env : Env Node := env localTree glob relative.

(** A scenario of the specification: a local [sub/x.txt] and a remote root
    with nothing in it. *)
Definition subLocal : Node := Dir [("site", Dir [("sub", Dir [("x.txt", File)])])].


Definition sub_env : Env Node := env subLocal glob relative.

Definition connected (r : Node) : World Node := {| sftp := Some 0; opened := 1; remote_fs := r |}.

End Demo.

(** ** Clients and servers that fail, used to run the definitions *)
Module Faults.
Import RemoteTree.

(** A client whose first request for the session fails. *)
Definition flaky_client (k : nat) : Reply Handle :=
  if Nat.eqb k 0 then Err failure else Ok k.

Definition flaky_env : Env Node :=
  {| path_sep := "/";
     readdirSync := local_readdir Demo.localTree;
     isDirectory := local_isDirectory Demo.localTree;
     minimatch := Demo.glob;
     normalizedRelativePath := Demo.relative;
     client_sftp := flaky_client;
     srv_readdir := readdir;
     srv_stat := stat;
     srv_mkdir := mkdir;
     srv_fastPut := fastPut;
     srv_rmdir := rmdir;
     srv_unlink := unlink |}.

(** A server holding one directory, [/www], with a file in it that cannot be
    replaced or removed: every [fastPut] and every [unlink] is refused. *)
Definition locked_env : Env unit :=
  {| path_sep := "/";
     readdirSync := local_readdir Demo.localTree;
     isDirectory := local_isDirectory Demo.localTree;
     minimatch := Demo.glob;
     normalizedRelativePath := Demo.relative;
     client_sftp := fun k => Ok k;
     srv_readdir := fun _ _ => Ok ["locked"];
     srv_stat := fun _ p => Ok (String.eqb p "/www");
     srv_mkdir := fun _ _ => Ok tt;
     srv_fastPut := fun _ _ _ => Err failure;
     srv_rmdir := fun _ _ => Ok tt;
     srv_unlink := fun _ _ => Err failure |}.

(** A configuration with a key file and no port, and a client that connects. *)
Definition config : Config :=
  {| host := Some "example.org"; port := None; username := Some "deploy";
     password := None; passphrase := None; privateKey := Some "/home/deploy/.ssh/id_rsa" |}.

Definition ready : Connection :=
  {| readFileSync := fun _ => "KEY"; client_connect := fun _ => Ok tt |}.

End Faults.

(** ** Reading the result of a computation *)

Definition outcome_of {R A} (x : Outcome A * World R * list Event) : Outcome A := fst (fst x).
Definition world_of {R A} (x : Outcome A * World R * list Event) : World R := snd (fst x).
Definition trace_of {R A} (x : Outcome A * World R * list Event) : list Event := snd x.

(** [m] keeps the invariant [I] of the world and only emits events in [P]. *)
Definition sat {R A} (I : World R -> Prop) (P : Event -> Prop) (m : M R A) : Prop :=
  forall w, I w -> I (world_of (m w)) /\ Forall P (trace_of (m w)).

(** ** The vocabulary of the properties *)

(** The local type and the remote type differ: one is a file, the other a
    directory. *)
Definition type_change (stats : Stats) : Prop :=
  (local stats = l_file /\ remote stats = r_dir) \/
  (local stats = l_dir /\ remote stats = r_file).

(** The entries a dry run recurses into. *)
Definition descends (stats : Stats) : bool :=
  Method_eqb (method (Util.getTask stats)) m_sync || LocalStatus_eqb (local stats) l_dir.

(** The invariant of a run once the session is there: the cached handle
    stays, and the client is not asked again. *)
Definition session_is {R : Type} (h : Handle) (k : nat) (w : World R) : Prop :=
  sftp w = Some h /\ opened w = k.

(** [q] is [p] or a path below the directory [p]. *)
Definition below (p q : string) : Prop := q = p \/ exists s, q = p ++ "/" ++ s.

(** [q] is a path strictly below the directory [p]. *)
Definition inside (p q : string) : Prop := exists s, q = p ++ "/" ++ s.

(** The remote path a request or a method call is about to change. *)
Definition target (e : Event) : option string :=
  match e with
  | EvMkdir p | EvFastPut _ p | EvRmdir p | EvUnlink p
  | EvUpload _ p | EvRemoveRemote p => Some p
  | _ => None
  end.

Definition targets (Q : string -> Prop) (e : Event) : Prop :=
  match target e with
  | Some q => Q q
  | None => True
  end.

(** Events of a removal: the session, reads, and deletions. *)
Definition removal_event (e : Event) : bool :=
  match e with
  | EvRemoveRemote _ | EvSession | EvStat _ | EvReaddir _ | EvRmdir _ | EvUnlink _ => true
  | _ => false
  end.

(** Events of a transfer. *)
Definition uploading (e : Event) : bool :=
  match e with
  | EvUpload _ _ | EvFastPut _ _ | EvMkdir _ => true
  | _ => false
  end.

Definition removes (p : string) (e : Event) : bool :=
  match e with
  | EvRemoveRemote q => String.eqb q p
  | _ => false
  end.

(** Every decision is [noop] without removal. *)
Definition all_noop (e : Event) : Prop :=
  match e with
  | EvTask _ _ task => task = {| method := m_noop; removeRemote_first := false |}
  | _ => True
  end.

(** The same deployer in another mode. *)
Definition with_dryRun (d : bool) (this : SftpDeploy) : SftpDeploy :=
  {| localDir := localDir this; remoteDir := remoteDir this; dryRun := d;
     exclude := exclude this |}.

(** A decision that removes nothing: the entry exists locally and its task
    is [noop] if it is ignored, [upload] if it is a file, [sync] if it is a
    directory. *)
Definition quiet (e : Event) : Prop :=
  match e with
  | EvTask _ stats task =>
      removeRemote_first task = false /\
      local stats <> l_null /\
      method task = match local stats with
                    | l_file => m_upload
                    | l_dir => m_sync
                    | _ => m_noop
                    end
  | _ => True
  end.

Section Statuses.

Context {R : Type}.
Variable env : Env R.
Variable this : SftpDeploy.

(** An event of a transfer concerns a local path that is not excluded. *)
Definition included (e : Event) : Prop :=
  match e with
  | EvUpload l _ | EvFastPut l _ => isIgnored env this l (isDirectory env l) = false
  | _ => True
  end.

(** The local status [buildProject] gives the name [f] of [localPath]. *)
Definition localStatus (localPath f : string) : LocalStatus :=
  let fullPath := localPath ++ path_sep env ++ f in
  let isDir := isDirectory env fullPath in
  if isIgnored env this fullPath isDir then l_ignored
  else if isDir then l_dir else l_file.

Definition in_local (localPath f : string) : bool :=
  existsb (String.eqb f) (readdirSync env localPath).

End Statuses.

Definition tree_served (env : Env RemoteTree.Node) : Prop :=
  srv_readdir env = RemoteTree.readdir /\ srv_stat env = RemoteTree.stat /\
  srv_mkdir env = RemoteTree.mkdir /\ srv_fastPut env = RemoteTree.fastPut /\
  srv_rmdir env = RemoteTree.rmdir /\ srv_unlink env = RemoteTree.unlink.

(** The remote status of what the tree holds at a path. *)
Definition kind (o : option RemoteTree.Node) : RemoteStatus :=
  match o with
  | Some RemoteTree.File => r_file
  | Some (RemoteTree.Dir _) => r_dir
  | None => r_null
  end.

Definition listed (o : option RemoteTree.Node) : bool :=
  match o with Some _ => true | None => false end.

Section Levels.
Import RemoteTree.

Variable env : Env Node.
Variable this : SftpDeploy.

(** The statuses of the name [f] at one level, read off the two trees. *)
Definition entry (localPath remotePath : string) (t : Node) (f : string) : Stats :=
  {| local := if in_local env localPath f then localStatus env this localPath f else l_null;
     remote := kind (lookup t (resolve remotePath ++ [f])) |}.

Definition present (localPath remotePath : string) (t : Node) (f : string) : bool :=
  in_local env localPath f || listed (lookup t (resolve remotePath ++ [f])).

(** Nothing at [remotePath] or below needs a removal, and every local
    directory that is not excluded has its remote directory, [k] levels
    deep. *)
Fixpoint Settled (k : nat) (localPath remotePath : string) (t : Node) : Prop :=
  match k with
  | 0 => True
  | S k' =>
      forall f, present localPath remotePath t f = true ->
        removeRemote_first (Util.getTask (entry localPath remotePath t f)) = false /\
        (local (entry localPath remotePath t f) = l_dir ->
         remote (entry localPath remotePath t f) = r_dir /\
         Settled k' (localPath ++ path_sep env ++ f) (remotePath ++ "/" ++ f) t)
  end.

End Levels.

(** The outcome of a promise that has not settled: neither resolved nor
    rejected. *)
Definition unsettled {A} (o : Outcome A) : Prop :=
  match o with
  | Pending | OutOfFuel => True
  | _ => False
  end.

(** The remote status read off the answer to a stat. *)
Definition remote_type (answer : Reply bool) : RemoteStatus :=
  match answer with
  | Ok true => r_dir
  | Ok false => r_file
  | Err _ => r_null
  end.

(** The same deployer with other exclusion patterns. *)
Definition with_exclude (patterns : list string) (this : SftpDeploy) : SftpDeploy :=
  {| localDir := localDir this; remoteDir := remoteDir this; dryRun := dryRun this;
     exclude := patterns |}.

(** The children [upload] hands on when called on the directory [l]. *)
Definition upload_children {R} (env : Env R) (this : SftpDeploy) (n : nat) (l p : string)
    : list (M R unit) :=
  map (fun filename => upload env this n (l ++ path_sep env ++ filename) (p ++ "/" ++ filename))
    (filter (fun filename =>
               let fullPath := l ++ path_sep env ++ filename in
               negb (isIgnored env this fullPath (isDirectory env fullPath)))
            (readdirSync env l)).

(** Events of an upload: the session, and the requests that create. *)
Definition upload_event (e : Event) : bool :=
  match e with
  | EvUpload _ _ | EvSession | EvMkdir _ | EvFastPut _ _ => true
  | _ => false
  end.

Section Pruning.
Import RemoteTree.

Context {R : Type}.
Variable env : Env R.
Variable this : SftpDeploy.

(** The local tree [t] found at [l], without the entries that are excluded. *)
Fixpoint pruned (t : Node) (l : string) : Node :=
  match t with
  | File => File
  | Dir cs =>
      Dir ((fix each (cs : list (string * Node)) : list (string * Node) :=
              match cs with
              | [] => []
              | (k, v) :: rest =>
                  if isIgnored env this (l ++ path_sep env ++ k) (is_dir v) then each rest
                  else (k, pruned v (l ++ path_sep env ++ k)) :: each rest
              end) cs)
  end.

Fixpoint pruned_children (l : string) (cs : list (string * Node)) : list (string * Node) :=
  match cs with
  | [] => []
  | (k, v) :: rest =>
      if isIgnored env this (l ++ path_sep env ++ k) (is_dir v) then pruned_children l rest
      else (k, pruned v (l ++ path_sep env ++ k)) :: pruned_children l rest
  end.

(** The local file system is the tree [lt], read with ['/'] as [path.sep]. *)
Definition tree_read (lt : Node) : Prop :=
  path_sep env = "/" /\ readdirSync env = local_readdir lt /\
  isDirectory env = local_isDirectory lt.

End Pruning.

(* ================================================================= *)
(** * Properties *)

Section Logic.

Context {R : Type}.
Variable I : World R -> Prop.
Variable P : Event -> Prop.

Lemma sat_ret {A} (a : A) : sat I P (ret a).
Proof. intros w H; split; [exact H | constructor]. Qed.

Lemma sat_out_of_fuel {A} : sat I P (@out_of_fuel R A).
Proof. intros w H; split; [exact H | constructor]. Qed.

Lemma sat_emits (evs : list Event) : Forall P evs -> sat I P (@emits R evs).
Proof. intros Hevs w H; split; [exact H | exact Hevs]. Qed.

Lemma sat_emit (e : Event) : P e -> sat I P (@emit R e).
Proof. intros He w H; split; [exact H | repeat constructor; exact He]. Qed.

Lemma sat_bind {A B} (m : M R A) (k : A -> M R B) :
  sat I P m -> (forall a, sat I P (k a)) -> sat I P (bind m k).
Proof.
  intros Hm Hk w Hw. unfold bind.
  specialize (Hm w Hw). destruct (m w) as [[o w1] t1]. cbn in Hm.
  destruct Hm as [Hw1 Ht1].
  destruct o as [a | e | | ]; cbn; auto.
  specialize (Hk a w1 Hw1). destruct (k a w1) as [[o2 w2] t2]. cbn in *.
  destruct Hk as [Hw2 Ht2]. split; [exact Hw2 | apply Forall_app; auto].
Qed.

Lemma sat_unhandled {A} (m : M R A) : sat I P m -> sat I P (unhandled m).
Proof.
  intros Hm w Hw. unfold unhandled. specialize (Hm w Hw).
  destruct (m w) as [[o w1] t1]. destruct o; exact Hm.
Qed.

Lemma sat_all {A} (ops : list (M R A)) :
  Forall (sat I P) ops -> sat I P (all ops).
Proof.
  induction 1 as [ | op rest Hop _ IH]; intros w Hw; cbn.
  - split; [exact Hw | constructor].
  - specialize (Hop w Hw). destruct (op w) as [[o1 w1] t1]. cbn in Hop.
    destruct Hop as [Hw1 Ht1]. specialize (IH w1 Hw1).
    destruct (all rest w1) as [[o2 w2] t2]. cbn in *.
    destruct IH as [Hw2 Ht2]. split; [exact Hw2 | apply Forall_app; auto].
Qed.

Lemma sat_request {A} (ev : Event) (answer : R -> Reply A)
    (commit : World R -> A -> World R) :
  P ev -> (forall w a, I w -> answer (remote_fs w) = Ok a -> I (commit w a)) ->
  sat I P (request ev answer commit).
Proof.
  intros Hev Hc w Hw. unfold request.
  destruct (answer (remote_fs w)) as [a | e] eqn:E; cbn.
  - split; [eapply Hc; eauto | repeat constructor; exact Hev].
  - split; [exact Hw | repeat constructor; exact Hev].
Qed.

End Logic.

Section Frames.

Context {R : Type}.
Variable env : Env R.
Variable this : SftpDeploy.
Variable I : World R -> Prop.
Variable P : Event -> Prop.

Hypothesis I_getSftp : forall w, I w -> I (world_of (getSftp env w)).

Lemma sat_getSftp : P EvSession -> sat I P (getSftp env).
Proof.
  intros HP w Hw. split; [apply I_getSftp; exact Hw | ].
  unfold getSftp. destruct (sftp w); [constructor | ].
  destruct (client_sftp env (opened w)); repeat constructor; exact HP.
Qed.

Lemma sat_setStats (remotePath : string) (remoteList : list string) :
  (forall p, P (EvStat p)) ->
  forall project, sat I P (setStats env remotePath remoteList project).
Proof.
  intros HP. induction remoteList as [ | filename rest IH]; intros project w Hw; cbn.
  - split; [exact Hw | constructor].
  - destruct (srv_stat env (remote_fs w) _) as [isDir | err].
    + specialize (IH (setRemote project filename isDir) w Hw).
      destruct (setStats env remotePath rest _ w) as [[o w1] t]. cbn in *.
      destruct IH; split; [assumption | constructor; auto].
    + specialize (IH project w Hw).
      destruct (setStats env remotePath rest _ w) as [[o w1] t]. cbn in *.
      destruct IH; split; [assumption | constructor; auto].
Qed.

Lemma sat_buildProject (localPath remotePath : string) :
  P EvSession -> (forall p, P (EvStat p)) -> (forall p, P (EvReaddir p)) ->
  sat I P (buildProject env this localPath remotePath).
Proof.
  intros H1 H2 H3. unfold buildProject.
  apply sat_bind; [apply sat_unhandled, sat_getSftp; exact H1 | ].
  intros _ w Hw.
  destruct (srv_readdir env (remote_fs w) remotePath) as [remoteList | err].
  - pose proof (sat_setStats remotePath remoteList H2 (localProject env this localPath) w Hw) as H.
    destruct (setStats env remotePath remoteList _ w) as [[o w1] t]. cbn in *.
    destruct H; split; [assumption | constructor; auto].
  - destruct (Nat.eqb (code err) 2); cbn; split; auto.
Qed.

(** A dry run: only [buildProject] talks to the server. *)
Lemma sat_sync_dryRun :
  dryRun this = true ->
  (forall e, reading e = true -> P e) ->
  forall fuel localPath remotePath, sat I P (sync env this fuel localPath remotePath).
Proof.
  intros Hdry HP. induction fuel as [ | n IH]; intros localPath remotePath; cbn.
  - apply sat_out_of_fuel.
  - apply sat_bind; [apply sat_emit, HP; reflexivity | intros _].
    apply sat_bind; [apply sat_buildProject; intros; apply HP; reflexivity | intros project].
    apply sat_bind.
    { apply sat_emits. apply Forall_forall. intros e He.
      apply in_map_iff in He. destruct He as [entry [<- _]]. apply HP. reflexivity. }
    intros _. apply sat_bind; [ | intros; apply sat_ret].
    apply sat_all. apply Forall_forall. intros op Hop.
    apply in_flat_map in Hop. destruct Hop as [[filename stats] [_ Hop]].
    unfold pushed in Hop. rewrite Hdry in Hop.
    destruct (_ || _); [ | contradiction].
    destruct Hop as [<- | []]. unfold void.
    apply sat_bind; [apply IH | intros; apply sat_ret].
Qed.

Hypothesis I_set_remote : forall w r, I w -> I (set_remote w r).
Hypothesis P_all : forall e, P e.

Lemma sat_mutation (ev : Event) (answer : R -> Reply R) :
  sat I P (_ <- request ev answer set_remote ;; ret tt).
Proof.
  apply sat_bind; [ | intros; apply sat_ret].
  apply sat_request; [apply P_all | intros; apply I_set_remote; assumption].
Qed.

Lemma sat_read {A} (ev : Event) (answer : R -> Reply A) :
  sat I P (request ev answer (fun w _ => w)).
Proof. apply sat_request; [apply P_all | auto]. Qed.

Lemma sat_upload :
  forall fuel localPath remotePath, sat I P (upload env this fuel localPath remotePath).
Proof.
  induction fuel as [ | n IH]; intros localPath remotePath; cbn.
  - apply sat_out_of_fuel.
  - apply sat_bind; [apply sat_emit, P_all | intros _].
    apply sat_bind; [apply sat_unhandled, sat_getSftp, P_all | intros _].
    destruct (isDirectory env localPath); [ | apply sat_mutation].
    apply sat_bind; [apply sat_mutation | intros _].
    apply sat_unhandled, sat_all, Forall_forall. intros op Hop.
    apply in_map_iff in Hop. destruct Hop as [filename [<- _]]. apply IH.
Qed.

Lemma sat_removeRemote :
  forall fuel remotePath, sat I P (removeRemote env fuel remotePath).
Proof.
  induction fuel as [ | n IH]; intros remotePath; cbn.
  - apply sat_out_of_fuel.
  - apply sat_bind; [apply sat_emit, P_all | intros _].
    apply sat_bind; [apply sat_unhandled, sat_getSftp, P_all | intros _].
    apply sat_bind; [apply sat_read | intros isDir].
    destruct isDir; [ | apply sat_mutation].
    apply sat_bind; [apply sat_read | intros list].
    apply sat_bind; [ | intros _; apply sat_mutation].
    apply sat_unhandled, sat_all, Forall_forall. intros op Hop.
    apply in_map_iff in Hop. destruct Hop as [filename [<- _]]. apply IH.
Qed.

Lemma sat_sync :
  forall fuel localPath remotePath, sat I P (sync env this fuel localPath remotePath).
Proof.
  induction fuel as [ | n IH]; intros localPath remotePath; cbn.
  - apply sat_out_of_fuel.
  - apply sat_bind; [apply sat_emit, P_all | intros _].
    apply sat_bind; [apply sat_buildProject; intros; apply P_all | intros project].
    apply sat_bind; [apply sat_emits, Forall_forall; intros; apply P_all | intros _].
    apply sat_bind; [ | intros; apply sat_ret].
    apply sat_all. apply Forall_forall. intros op Hop.
    apply in_flat_map in Hop. destruct Hop as [[filename stats] [_ Hop]].
    unfold pushed in Hop.
    destruct (dryRun this).
    + destruct (_ || _); [ | contradiction].
      destruct Hop as [<- | []]. unfold void.
      apply sat_bind; [apply IH | intros; apply sat_ret].
    + destruct Hop as [<- | []].
      apply sat_bind.
      { destruct (removeRemote_first _); [apply sat_removeRemote | apply sat_ret]. }
      intros _. destruct (method _); cbn.
      * apply sat_upload.
      * unfold void. apply sat_bind; [apply IH | intros; apply sat_ret].
      * apply sat_emit, P_all.
Qed.

End Frames.

(** ** The classifier *)

(** C3 (classifier part) and C5 are read off the decision table. *)
Lemma getTask_ignored (stats : Stats) :
  local stats = l_ignored ->
  Util.getTask stats = {| method := m_noop; removeRemote_first := false |}.
Proof. destruct stats as [l r]; cbn; intros ->; reflexivity. Qed.

Lemma getTask_absent (stats : Stats) :
  local stats = l_null ->
  Util.getTask stats = {| method := m_noop; removeRemote_first := true |}.
Proof. destruct stats as [l r]; cbn; intros ->; reflexivity. Qed.

(** C5: for an entry whose local side is a file or a directory, the remote
    entry is removed first exactly when the two types differ; an entry of the
    same type on both sides, or absent remotely, is never removed first. *)
Theorem removeRemote_iff_type_change (stats : Stats) :
  local stats = l_file \/ local stats = l_dir ->
  (removeRemote_first (Util.getTask stats) = true <-> type_change stats) /\
  (remote stats = r_null -> removeRemote_first (Util.getTask stats) = false) /\
  ((local stats = l_file /\ remote stats = r_file) \/
   (local stats = l_dir /\ remote stats = r_dir) ->
   removeRemote_first (Util.getTask stats) = false).
Proof.
  unfold type_change. destruct stats as [l r]; cbn.
  intros [-> | ->]; destruct r; cbn; intuition congruence.
Qed.

Lemma removeRemote_iff_type_change_witness :
  removeRemote_first (Util.getTask {| local := l_file; remote := r_dir |}) = true /\
  removeRemote_first (Util.getTask {| local := l_dir; remote := r_dir |}) = false.
Proof.
  split.
  - apply (removeRemote_iff_type_change {| local := l_file; remote := r_dir |}).
    + left; reflexivity.
    + left; split; reflexivity.
  - apply (removeRemote_iff_type_change {| local := l_dir; remote := r_dir |}).
    + right; reflexivity.
    + right; split; reflexivity.
Defined.

(** ** The session *)

Section Session.

Context {R : Type}.
Variable env : Env R.

Lemma getSftp_cached (w : World R) (h : Handle) :
  sftp w = Some h -> getSftp env w = (Resolved h, w, []).
Proof. unfold getSftp. intros ->. reflexivity. Qed.

Lemma getSftp_remote_fs (w : World R) :
  remote_fs (world_of (getSftp env w)) = remote_fs w.
Proof.
  unfold getSftp. destruct (sftp w); [reflexivity | ].
  destruct (client_sftp env (opened w)); reflexivity.
Qed.

Lemma getSftp_resolved (w w1 : World R) (h : Handle) (t : list Event) :
  getSftp env w = (Resolved h, w1, t) -> sftp w1 = Some h /\ remote_fs w1 = remote_fs w.
Proof.
  unfold getSftp. destruct (sftp w) eqn:E.
  - intros [= <- <- _]. auto.
  - destruct (client_sftp env (opened w)); intros [= <- <- _]. auto.
Qed.

Lemma session_is_getSftp (h : Handle) (k : nat) (w : World R) :
  session_is h k w -> session_is h k (world_of (getSftp env w)).
Proof. intros [H1 H2]. rewrite (getSftp_cached w h H1). split; assumption. Qed.

Lemma session_is_set_remote (h : Handle) (k : nat) (w : World R) (r : R) :
  session_is h k w -> session_is h k (set_remote w r).
Proof. intros H; exact H. Qed.

Lemma session_kept (h : Handle) (k : nat) (w : World R) :
  session_is h k w ->
  forall this fuel localPath remotePath,
    session_is h k (world_of (sync env this fuel localPath remotePath w)) /\
    session_is h k (world_of (upload env this fuel localPath remotePath w)) /\
    session_is h k (world_of (removeRemote env fuel remotePath w)) /\
    session_is h k (world_of (buildProject env this localPath remotePath w)).
Proof.
  intros Hw this fuel localPath remotePath.
  pose proof (session_is_getSftp h k) as Hg.
  pose proof (session_is_set_remote h k) as Hs.
  pose proof (fun _ : Event => Logic.I) as Ht.
  split; [ | split; [ | split]].
  - exact (proj1 (sat_sync env this _ (fun _ => True) Hg Hs Ht fuel localPath remotePath w Hw)).
  - exact (proj1 (sat_upload env this _ (fun _ => True) Hg Hs Ht fuel localPath remotePath w Hw)).
  - exact (proj1 (sat_removeRemote env _ (fun _ => True) Hg Hs Ht fuel remotePath w Hw)).
  - exact (proj1 (sat_buildProject env this _ (fun _ => True) Hg localPath remotePath
                    Logic.I (fun _ => Logic.I) (fun _ => Logic.I) w Hw)).
Qed.

(** C8: the first call of [getSftp] asks the client for the session and
    stores the handle; every later call (whatever the methods of the deployer
    did in between) resolves with the stored handle without asking the client
    again. *)
Theorem getSftp_caches_session (w : World R) (h : Handle) :
  sftp w = None -> client_sftp env (opened w) = Ok h ->
  let w1 := world_of (getSftp env w) in
  getSftp env w = (Resolved h, w1, [EvSession]) /\
  session_is h (S (opened w)) w1 /\
  (forall w2, sftp w2 = sftp w1 -> getSftp env w2 = (Resolved h, w2, [])) /\
  (forall this fuel localPath remotePath,
      session_is h (S (opened w)) (world_of (sync env this fuel localPath remotePath w1)) /\
      session_is h (S (opened w)) (world_of (upload env this fuel localPath remotePath w1)) /\
      session_is h (S (opened w)) (world_of (removeRemote env fuel remotePath w1)) /\
      session_is h (S (opened w)) (world_of (buildProject env this localPath remotePath w1))).
Proof.
  intros Hnone Hok. cbn zeta.
  assert (E : getSftp env w =
              (Resolved h, {| sftp := Some h; opened := S (opened w); remote_fs := remote_fs w |},
               [EvSession])).
  { unfold getSftp. rewrite Hnone, Hok. reflexivity. }
  rewrite E. unfold world_of at 1 2 3. cbn [fst snd].
  assert (Hs : session_is h (S (opened w))
                 {| sftp := Some h; opened := S (opened w); remote_fs := remote_fs w |}).
  { split; reflexivity. }
  split; [reflexivity | ]. split; [exact Hs | ]. split.
  - intros w2 H2. apply getSftp_cached. exact H2.
  - intros. apply session_kept. exact Hs.
Qed.

End Session.

Lemma getSftp_caches_session_witness :
  getSftp Demo.demo_env (Demo.fresh Demo.remoteTree)
  = (Resolved 0, {| sftp := Some 0; opened := 1; remote_fs := Demo.remoteTree |}, [EvSession]).
Proof.
  exact (proj1 (getSftp_caches_session Demo.demo_env (Demo.fresh Demo.remoteTree) 0
                  eq_refl eq_refl)).
Defined.

(** ** The scanner *)

Section Scanner.

Context {R : Type}.
Variable env : Env R.
Variable this : SftpDeploy.

Lemma Map_set_Forall (Q : string * Stats -> Prop) (project : Project)
    (filename : string) (stats : Stats) :
  Forall Q project -> (forall k, Q (k, stats)) -> Forall Q (Map_set project filename stats).
Proof.
  intros H Hs. induction H as [ | [k v] rest Hkv Hrest IH]; cbn.
  - repeat constructor. apply Hs.
  - destruct (String.eqb k filename); constructor; auto.
Qed.

Lemma fold_left_Forall {A : Type} (Q : string * Stats -> Prop)
    (f : Project -> A -> Project) (l : list A) :
  (forall project a, Forall Q project -> Forall Q (f project a)) ->
  forall project, Forall Q project -> Forall Q (fold_left f l project).
Proof.
  intros Hf. induction l as [ | a rest IH]; intros project H; cbn; [exact H | ].
  apply IH, Hf, H.
Qed.

(** After the synchronous part every entry has [remote: null]. *)
Lemma localProject_remote_null (localPath : string) :
  Forall (fun entry => remote (snd entry) = r_null) (localProject env this localPath).
Proof.
  unfold localProject. apply fold_left_Forall; [ | constructor].
  intros project filename H. apply Map_set_Forall; [exact H | reflexivity].
Qed.

Lemma setStats_world (remotePath : string) (remoteList : list string) :
  forall project w, world_of (setStats env remotePath remoteList project w) = w.
Proof.
  induction remoteList as [ | filename rest IH]; intros project w; cbn; [reflexivity | ].
  destruct (srv_stat env (remote_fs w) _) as [isDir | err].
  - specialize (IH (setRemote project filename isDir) w).
    destruct (setStats env remotePath rest _ w) as [[o w1] t]. exact IH.
  - specialize (IH project w).
    destruct (setStats env remotePath rest _ w) as [[o w1] t]. exact IH.
Qed.

(** A failing stat makes the scan of the listing reject. *)
Lemma setStats_rejects (remotePath : string) (remoteList : list string) :
  forall project w filename err,
    In filename remoteList ->
    srv_stat env (remote_fs w) (remotePath ++ "/" ++ filename) = Err err ->
    exists err', outcome_of (setStats env remotePath remoteList project w) = Rejected err'.
Proof.
  induction remoteList as [ | f rest IH]; intros project w filename err Hin Hstat; [contradiction | ].
  cbn [setStats]. destruct (srv_stat env (remote_fs w) (remotePath ++ "/" ++ f)) as [isDir | e] eqn:E.
  - destruct Hin as [-> | Hin]; [congruence | ].
    specialize (IH (setRemote project f isDir) w filename err Hin Hstat).
    destruct (setStats env remotePath rest _ w) as [[o w1] t]. exact IH.
  - destruct (setStats env remotePath rest project w) as [[o w1] t].
    exists e. reflexivity.
Qed.

(** C6: with the session at hand, a listing that fails with code 2 makes
    [buildProject] resolve with the local entries, all with [remote: null];
    a listing that fails with another code rejects with that error; a failing
    stat of a listed name rejects. *)
Theorem buildProject_errors (localPath remotePath : string) (w w0 : World R)
    (h : Handle) (t0 : list Event) :
  getSftp env w = (Resolved h, w0, t0) ->
  let run := buildProject env this localPath remotePath w in
  (forall err, srv_readdir env (remote_fs w) remotePath = Err err -> code err = 2 ->
     outcome_of run = Resolved (localProject env this localPath) /\
     Forall (fun entry => remote (snd entry) = r_null) (localProject env this localPath)) /\
  (forall err, srv_readdir env (remote_fs w) remotePath = Err err -> code err <> 2 ->
     outcome_of run = Rejected err) /\
  (forall remoteList filename err,
     srv_readdir env (remote_fs w) remotePath = Ok remoteList ->
     In filename remoteList ->
     srv_stat env (remote_fs w) (remotePath ++ "/" ++ filename) = Err err ->
     exists err', outcome_of run = Rejected err').
Proof.
  intros Hg. cbn zeta. unfold buildProject, bind, unhandled. rewrite Hg.
  destruct (getSftp_resolved env _ _ _ _ Hg) as [_ Hfs]. rewrite Hfs.
  split; [ | split].
  - intros err Hr Hc. rewrite Hr, Hc. cbn. split; [reflexivity | ].
    apply localProject_remote_null.
  - intros err Hr Hc. rewrite Hr. apply Nat.eqb_neq in Hc. rewrite Hc. reflexivity.
  - intros remoteList filename err Hr Hin Hstat. rewrite Hr.
    rewrite <- Hfs in Hstat.
    destruct (setStats_rejects remotePath remoteList (localProject env this localPath)
                w0 filename err Hin Hstat) as [err' H].
    destruct (setStats env remotePath remoteList _ w0) as [[o w1] t].
    exists err'. exact H.
Qed.

End Scanner.

(** The remote root is missing: the scan resolves, nothing is an error. *)
Lemma buildProject_errors_witness :
  outcome_of (buildProject Demo.demo_env (Demo.deployer false ["logs/"]) "/site" "/nowhere"
                (Demo.fresh Demo.remoteTree))
  = Resolved [("a.txt", {| local := l_file; remote := r_null |});
              ("sub", {| local := l_dir; remote := r_null |});
              ("logs", {| local := l_ignored; remote := r_null |})].
Proof.
  exact (proj1 (proj1 (buildProject_errors Demo.demo_env (Demo.deployer false ["logs/"])
                         "/site" "/nowhere" (Demo.fresh Demo.remoteTree) _ 0 _ eq_refl)
                  RemoteTree.no_such_file eq_refl eq_refl)).
Defined.

(** ** Preview *)

Section Preview.

Context {R : Type}.
Variable env : Env R.
Variable this : SftpDeploy.
Hypothesis preview : dryRun this = true.

Lemma buildProject_resolved (localPath remotePath : string) (w w1 : World R)
    (project : Project) (t : list Event) :
  buildProject env this localPath remotePath w = (Resolved project, w1, t) ->
  (exists h, sftp w1 = Some h) /\ remote_fs w1 = remote_fs w.
Proof.
  unfold buildProject, bind, unhandled.
  destruct (getSftp env w) as [[o w0] t0] eqn:Hg.
  destruct o as [h | e | | ]; try discriminate.
  destruct (getSftp_resolved env _ _ _ _ Hg) as [Hh Hfs].
  destruct (srv_readdir env (remote_fs w0) remotePath) as [remoteList | err].
  - pose proof (setStats_world env remotePath remoteList (localProject env this localPath) w0) as Hw.
    destruct (setStats env remotePath remoteList _ w0) as [[o2 w2] t2]. cbn in Hw. subst w2.
    intros [= -> <- _]. split; [exists h; exact Hh | exact Hfs].
  - destruct (Nat.eqb (code err) 2); intros [= _ <- _]; try discriminate.
    split; [exists h; exact Hh | exact Hfs].
Qed.

Lemma void_run {A} (m : M R A) (w : World R) :
  world_of (void m w) = world_of (m w) /\ trace_of (void m w) = trace_of (m w).
Proof.
  unfold void, bind. destruct (m w) as [[o w1] t]. destruct o; cbn; auto.
  split; [reflexivity | apply app_nil_r].
Qed.

(** With the session at hand a dry run leaves the world as it found it. *)
Lemma sync_dryRun_world (fuel : nat) (localPath remotePath : string) (w : World R) (h : Handle) :
  sftp w = Some h -> world_of (sync env this fuel localPath remotePath w) = w.
Proof.
  intros Hs.
  assert (Hg : forall w', w' = w -> world_of (getSftp env w') = w).
  { intros w' ->. rewrite (getSftp_cached env w h Hs). reflexivity. }
  exact (proj1 (sat_sync_dryRun env this (fun w' => w' = w) (fun _ => True) Hg preview
                  (fun _ _ => Logic.I) fuel localPath remotePath w eq_refl)).
Qed.

Lemma all_fixed_world {A} (ops : list (M R A)) (w : World R) :
  (forall op, In op ops -> world_of (op w) = w) ->
  world_of (all ops w) = w /\
  trace_of (all ops w) = flat_map (fun op => trace_of (op w)) ops.
Proof.
  induction ops as [ | op rest IH]; intros H; cbn; [split; reflexivity | ].
  pose proof (H op (or_introl eq_refl)) as Hop.
  destruct (op w) as [[o1 w1] t1]. cbn in Hop. subst w1.
  destruct IH as [IH1 IH2]; [intros; apply H; right; assumption | ].
  destruct (all rest w) as [[o2 w2] t2]. cbn in *. subst. split; reflexivity.
Qed.

(** C1: in a dry run, at every level, no request that changes the remote
    tree is issued and none of [upload], [removeRemote] is entered: the events
    are the session, listings, stats, the entries into [sync] and the
    decisions; the remote tree is left as it was; and the
    level recurses into exactly the entries whose task is [sync] or whose
    local status is ['dir']: what follows the decisions of a level in its
    trace is, entry by entry, the run of [sync] on that entry when it is one
    of those, and nothing otherwise. *)
Theorem dryRun_reads_only (fuel : nat) (localPath remotePath : string) (w : World R) :
  let run := sync env this fuel localPath remotePath w in
  Forall (fun e => reading e = true /\ mutating e = false) (trace_of run) /\
  remote_fs (world_of run) = remote_fs w /\
  (forall n project w1 tb,
     fuel = S n ->
     buildProject env this localPath remotePath w = (Resolved project, w1, tb) ->
     trace_of run =
       (EvSync localPath remotePath :: tb ++ map (decision env localPath) project ++
        flat_map (fun entry =>
                    if descends (snd entry)
                    then trace_of (sync env this n (localPath ++ path_sep env ++ fst entry)
                                     (remotePath ++ "/" ++ fst entry) w1)
                    else [])
                 project)%list).
Proof.
  cbn zeta. split; [ | split].
  - assert (HP : forall e, reading e = true -> reading e = true /\ mutating e = false).
    { intros e He. split; [exact He | ]. destruct e; try reflexivity; discriminate. }
    exact (proj2 (sat_sync_dryRun env this (fun _ => True)
                    (fun e => reading e = true /\ mutating e = false)
                    (fun _ _ => Logic.I) preview HP fuel localPath remotePath
                    w Logic.I)).
  - assert (Hg : forall w', remote_fs w' = remote_fs w ->
                            remote_fs (world_of (getSftp env w')) = remote_fs w).
    { intros w' <-. apply getSftp_remote_fs. }
    exact (proj1 (sat_sync_dryRun env this (fun w' => remote_fs w' = remote_fs w)
                    (fun _ => True) Hg preview (fun _ _ => Logic.I) fuel localPath
                    remotePath w eq_refl)).
  - intros n project w1 tb -> Hb.
    destruct (buildProject_resolved _ _ _ _ _ _ Hb) as [[h Hh] _].
    cbn [sync]. unfold bind at 1. cbn [emit]. unfold bind at 1. rewrite Hb.
    unfold bind at 1. cbn [emits].
    destruct (all_fixed_world (flat_map (pushed env this (sync env this n) n localPath remotePath)
                                 project) w1) as [Hw Ht].
    { intros op Hop. apply in_flat_map in Hop. destruct Hop as [[filename stats] [_ Hop]].
      unfold pushed in Hop. rewrite preview in Hop.
      destruct (_ || _); [ | contradiction]. destruct Hop as [<- | []].
      rewrite (proj1 (void_run _ _)). eapply sync_dryRun_world; eassumption. }
    unfold bind. destruct (all _ w1) as [[o2 w2] t2]. cbn in Hw, Ht. subst w2 t2.
    assert (Ht : flat_map (fun op : M R unit => trace_of (op w1))
                   (flat_map (pushed env this (sync env this n) n localPath remotePath) project)
                 = flat_map (fun entry =>
                    if descends (snd entry)
                    then trace_of (sync env this n (localPath ++ path_sep env ++ fst entry)
                                     (remotePath ++ "/" ++ fst entry) w1)
                    else []) project).
    { clear Hb. induction project as [ | [filename stats] rest IH]; [reflexivity | ].
      cbn [flat_map]. rewrite flat_map_app, IH. f_equal.
      unfold pushed, descends. rewrite preview. cbn [fst snd].
      destruct (_ || _); [ | reflexivity].
      cbn [flat_map]. rewrite (proj2 (void_run _ _)). apply app_nil_r. }
    unfold M in *. rewrite Ht.
    destruct o2; cbn; rewrite ?app_nil_r; reflexivity.
Qed.

End Preview.

(** ** Paths *)

Lemma append_assoc (a b c : string) : (a ++ b) ++ c = a ++ b ++ c.
Proof. induction a as [ | x a IH]; cbn; [reflexivity | rewrite IH; reflexivity]. Qed.

Lemma length_append (a b : string) : String.length (a ++ b) = String.length a + String.length b.
Proof. induction a as [ | x a IH]; cbn; [reflexivity | rewrite IH; reflexivity]. Qed.

Lemma below_refl (p : string) : below p p.
Proof. left; reflexivity. Qed.

Lemma inside_below (p q : string) : inside p q -> below p q.
Proof. intros H; right; exact H. Qed.

Lemma below_child (p f q : string) : below (p ++ "/" ++ f) q -> inside p q.
Proof.
  intros [-> | [s ->]]; [exists f; reflexivity | ].
  exists (f ++ "/" ++ s). rewrite !append_assoc. reflexivity.
Qed.

Lemma inside_neq (p q : string) : inside p q -> q <> p.
Proof.
  intros [s ->] H. apply (f_equal String.length) in H.
  rewrite length_append in H. cbn in H. lia.
Qed.

Section Execution.

Context {R : Type}.
Variable env : Env R.
Variable this : SftpDeploy.

Let anyWorld : World R -> Prop := fun _ => True.

Lemma anyWorld_getSftp : forall w, anyWorld w -> anyWorld (world_of (getSftp env w)).
Proof. intros; exact Logic.I. Qed.

Lemma sat_step (P : Event -> Prop) (ev : Event) (answer : R -> Reply R) :
  P ev -> sat anyWorld P (_ <- request ev answer set_remote ;; ret tt).
Proof.
  intros H. apply sat_bind; [ | intros; apply sat_ret].
  apply sat_request; [exact H | intros; exact Logic.I].
Qed.

(** [removeRemote] only reads and deletes, at [remotePath] and below. *)
Lemma removeRemote_footprint (fuel : nat) :
  forall remotePath,
    sat anyWorld (fun e => removal_event e = true /\ targets (below remotePath) e)
      (removeRemote env fuel remotePath).
Proof.
  induction fuel as [ | n IH]; intros remotePath; cbn [removeRemote].
  - apply sat_out_of_fuel.
  - apply sat_bind; [apply sat_emit; split; [reflexivity | apply below_refl] | intros _].
    apply sat_bind.
    { apply sat_unhandled, sat_getSftp; [apply anyWorld_getSftp | split; [reflexivity | exact Logic.I]]. }
    intros _. apply sat_bind.
    { apply sat_request; [split; [reflexivity | exact Logic.I] | auto]. }
    intros isDir. destruct isDir.
    + apply sat_bind.
      { apply sat_request; [split; [reflexivity | exact Logic.I] | auto]. }
      intros list. apply sat_bind.
      * apply sat_unhandled, sat_all, Forall_forall. intros op Hop.
        apply in_map_iff in Hop. destruct Hop as [filename [<- _]].
        intros w Hw. destruct (IH (remotePath ++ "/" ++ filename) w Hw) as [H1 H2].
        split; [exact H1 | ]. eapply Forall_impl; [ | exact H2].
        intros e [He1 He2]. split; [exact He1 | ].
        unfold targets in *. destruct (target e); [ | exact Logic.I].
        apply inside_below. eapply below_child; eassumption.
      * intros _. apply sat_step. split; [reflexivity | apply below_refl].
    + apply sat_step. split; [reflexivity | apply below_refl].
Qed.

(** [upload] only changes [remotePath] and below; if the path it is called
    on is not excluded, nothing it transfers is. *)
Lemma upload_footprint (fuel : nat) :
  forall localPath remotePath,
    sat anyWorld
      (fun e => targets (below remotePath) e /\
                (isIgnored env this localPath (isDirectory env localPath) = false -> included env this e))
      (upload env this fuel localPath remotePath).
Proof.
  induction fuel as [ | n IH]; intros localPath remotePath; cbn [upload].
  - apply sat_out_of_fuel.
  - apply sat_bind; [apply sat_emit; split; [apply below_refl | auto] | intros _].
    apply sat_bind.
    { apply sat_unhandled, sat_getSftp; [apply anyWorld_getSftp | split; intros; exact Logic.I]. }
    intros _. destruct (isDirectory env localPath) eqn:Hdir.
    + apply sat_bind; [apply sat_step; split; [apply below_refl | intros; exact Logic.I] | intros _].
      apply sat_unhandled, sat_all, Forall_forall. intros op Hop.
      apply in_map_iff in Hop. destruct Hop as [filename [<- Hin]].
      apply filter_In in Hin. destruct Hin as [_ Hinc]. apply negb_true_iff in Hinc.
      intros w Hw.
      destruct (IH (localPath ++ path_sep env ++ filename) (remotePath ++ "/" ++ filename) w Hw)
        as [H1 H2].
      split; [exact H1 | ]. eapply Forall_impl; [ | exact H2].
      intros e [He1 He2]. split; [ | intros _; apply He2; exact Hinc].
      unfold targets in *. destruct (target e); [ | exact Logic.I].
      apply inside_below. eapply below_child; eassumption.
    + apply sat_step. split; [apply below_refl | ]. cbn. rewrite Hdir. auto.
Qed.

(** C10: when [upload] is called on a directory, every call of [upload] and
    every [fastPut] it leads to, at any depth, is for a local path that
    [isIgnored] does not match; the call on the directory itself is the only
    one that is not checked here. *)
Theorem upload_skips_excluded (fuel : nat) (localPath remotePath : string) (w : World R) :
  isDirectory env localPath = true ->
  exists below_it,
    trace_of (upload env this (S fuel) localPath remotePath w)
    = EvUpload localPath remotePath :: below_it /\
    Forall (included env this) below_it.
Proof.
  intros Hdir. cbn [upload]. rewrite Hdir. unfold bind at 1. cbn [emit].
  match goal with |- context [bind ?m ?k w] => set (rest := bind m k) end.
  assert (H : sat anyWorld (included env this) rest).
  { subst rest. apply sat_bind.
    { apply sat_unhandled, sat_getSftp; [apply anyWorld_getSftp | exact Logic.I]. }
    intros _. apply sat_bind; [apply sat_step; exact Logic.I | intros _].
    apply sat_unhandled, sat_all, Forall_forall. intros op Hop.
    apply in_map_iff in Hop. destruct Hop as [filename [<- Hin]].
    apply filter_In in Hin. destruct Hin as [_ Hinc]. apply negb_true_iff in Hinc.
    intros w' Hw'.
    destruct (upload_footprint fuel (localPath ++ path_sep env ++ filename)
                (remotePath ++ "/" ++ filename) w' Hw') as [H1 H2].
    split; [exact H1 | ]. eapply Forall_impl; [ | exact H2].
    intros e [_ He]. apply He. exact Hinc. }
  specialize (H w Logic.I). clearbody rest.
  destruct (rest w) as [[o w1] t]. cbn in H. destruct H as [_ H].
  exists t. cbn. split; [reflexivity | exact H].
Qed.

End Execution.

(** ** Executing the task of an entry *)

Section Tasks.

Context {R : Type}.
Variable env : Env R.
Variable this : SftpDeploy.
Hypothesis real : dryRun this = false.

Let anyWorld : World R -> Prop := fun _ => True.

(** C7: outside a dry run, the operation pushed for an entry whose task asks
    for the removal is the removal followed by the method of the task.  The
    removal only reads and deletes; the method is entered only if the removal
    resolved, in the world the removal left, and its events come after all
    those of the removal.  If the removal does not resolve, the method is
    never entered.  This holds for the entries of every level, [sync n] being
    the recursive call of the level. *)
Theorem removal_precedes_method (n : nat) (localPath remotePath filename : string)
    (stats : Stats) (w : World R) :
  removeRemote_first (Util.getTask stats) = true ->
  let localFilePath := localPath ++ path_sep env ++ filename in
  let remoteFilePath := remotePath ++ "/" ++ filename in
  let removal := removeRemote env n remoteFilePath w in
  Forall (fun e => removal_event e = true) (trace_of removal) /\
  exists op,
    pushed env this (sync env this n) n localPath remotePath (filename, stats) = [op] /\
    match outcome_of removal with
    | Resolved _ =>
        let action := apply_method env this (sync env this n) n
                        (method (Util.getTask stats)) localFilePath remoteFilePath
                        (world_of removal) in
        op w = (outcome_of action, world_of action, (trace_of removal ++ trace_of action)%list)
    | o => op w = (o, world_of removal, trace_of removal)
    end.
Proof.
  intros Hrm. cbn zeta. split.
  - pose proof (removeRemote_footprint env n (remotePath ++ "/" ++ filename) w Logic.I) as [_ H].
    eapply Forall_impl; [ | exact H]. intros e [He _]. exact He.
  - unfold pushed. rewrite real, Hrm. eexists. split; [reflexivity | ].
    unfold bind. destruct (removeRemote env n (remotePath ++ "/" ++ filename) w) as [[o w1] t1].
    cbn [outcome_of world_of trace_of fst snd].
    destruct o as [[] | e | | ]; try reflexivity.
    destruct (apply_method _ _ _ _ _ _ _ w1) as [[o2 w2] t2]. reflexivity.
Qed.

(** Apart from its first event, a removal never enters [removeRemote] on
    the path it was called on. *)
Lemma removeRemote_once (n : nat) (remotePath : string) (w : World R) :
  length (filter (removes remotePath) (trace_of (removeRemote env (S n) remotePath w))) = 1.
Proof.
  cbn [removeRemote]. unfold bind at 1. cbn [emit].
  match goal with |- context [bind ?m ?k w] => set (rest := bind m k) end.
  assert (H : sat anyWorld (fun e => removes remotePath e = false) rest).
  { subst rest. apply sat_bind.
    { apply sat_unhandled, sat_getSftp; [intros; exact Logic.I | reflexivity]. }
    intros _. apply sat_bind; [apply sat_request; [reflexivity | auto] | ].
    intros isDir. destruct isDir; [ | apply sat_step; reflexivity].
    apply sat_bind; [apply sat_request; [reflexivity | auto] | ].
    intros list. apply sat_bind; [ | intros _; apply sat_step; reflexivity].
    apply sat_unhandled, sat_all, Forall_forall. intros op Hop.
    apply in_map_iff in Hop. destruct Hop as [filename [<- _]].
    intros w' Hw'.
    destruct (removeRemote_footprint env n (remotePath ++ "/" ++ filename) w' Hw') as [H1 H2].
    split; [exact H1 | ]. eapply Forall_impl; [ | exact H2].
    intros e [_ He]. destruct e; try reflexivity. cbn in *.
    apply String.eqb_neq. apply inside_neq. eapply below_child; exact He. }
  specialize (H w Logic.I). clearbody rest.
  destruct (rest w) as [[o w1] t]. cbn in H. destruct H as [_ H].
  cbn [trace_of snd filter removes app]. rewrite String.eqb_refl. cbn [length]. f_equal.
  induction H as [ | e t He _ IH]; [reflexivity | ]. cbn. rewrite He. exact IH.
Qed.

(** The operation of an entry that exists only remotely, on any server: one
    call of [removeRemote] on the entry, followed, once it resolved, by
    [noop]; [removeRemote] is entered exactly once on the path of the entry,
    no event of a transfer occurs, and when the entry is a file the run is
    its stat, its unlink and [noop]. *)
Lemma remote_only_entry_run (n : nat) (localPath remotePath filename : string)
    (stats : Stats) (w : World R) :
  local stats = l_null ->
  let remoteFilePath := remotePath ++ "/" ++ filename in
  let removal := removeRemote env (S n) remoteFilePath w in
  let run := all (pushed env this (sync env this (S n)) (S n) localPath remotePath
                    (filename, stats)) w in
  Util.getTask stats = {| method := m_noop; removeRemote_first := true |} /\
  trace_of run = (trace_of removal ++
                  match outcome_of removal with Resolved _ => [EvNoop] | _ => [] end)%list /\
  length (filter (removes remoteFilePath) (trace_of run)) = 1 /\
  Forall (fun e => uploading e = false) (trace_of run) /\
  (forall h r',
      sftp w = Some h ->
      srv_stat env (remote_fs w) remoteFilePath = Ok false ->
      srv_unlink env (remote_fs w) remoteFilePath = Ok r' ->
      run = (Resolved tt, set_remote w r',
             [EvRemoveRemote remoteFilePath; EvStat remoteFilePath;
              EvUnlink remoteFilePath; EvNoop])).
Proof.
  intros Hl. cbn zeta. pose proof (getTask_absent stats Hl) as Ht.
  split; [exact Ht | ].
  assert (E : trace_of (all (pushed env this (sync env this (S n)) (S n) localPath remotePath
                           (filename, stats)) w)
              = (trace_of (removeRemote env (S n) (remotePath ++ "/" ++ filename) w) ++
                 match outcome_of (removeRemote env (S n) (remotePath ++ "/" ++ filename) w) with
                 | Resolved _ => [EvNoop]
                 | _ => []
                 end)%list).
  { unfold pushed. rewrite real, Ht. cbn [removeRemote_first method apply_method all].
    unfold bind at 1.
    destruct (removeRemote env (S n) (remotePath ++ "/" ++ filename) w) as [[o w1] t1].
    destruct o; cbn; rewrite ?app_nil_r; reflexivity. }
  split; [exact E | ]. split; [ | split].
  - rewrite E. rewrite filter_app, length_app, removeRemote_once.
    destruct (outcome_of _); reflexivity.
  - rewrite E. apply Forall_app. split.
    + pose proof (removeRemote_footprint env (S n) (remotePath ++ "/" ++ filename) w Logic.I)
        as [_ H].
      eapply Forall_impl; [ | exact H]. intros e [He _]. destruct e; try reflexivity; discriminate.
    + destruct (outcome_of _); repeat constructor.
  - intros h r' Hs Hstat Hunlink.
    unfold pushed. rewrite real, Ht. cbn [removeRemote_first method apply_method all removeRemote].
    set (rfp := remotePath ++ "/" ++ filename) in *. clearbody rfp.
    unfold bind, unhandled, emit, sftp_stat, sftp_unlink, request, noop, emit, ret.
    rewrite (getSftp_cached env w h Hs). rewrite Hstat. cbn. unfold bind.
    rewrite Hunlink. reflexivity.
Qed.

End Tasks.

(** C3: an entry whose local status is ['ignored'] gets the task [noop]
    without removal, whatever its remote status; whatever the mode, the
    operations pushed for it (none in a dry run, [noop] otherwise) send nothing
    to the server and leave the world as it is. *)
Theorem ignored_entry_is_left_alone (stats : Stats) :
  local stats = l_ignored ->
  Util.getTask stats = {| method := m_noop; removeRemote_first := false |} /\
  forall (R : Type) (env : Env R) (this : SftpDeploy) sync_ n localPath remotePath filename
         (w : World R),
    Forall (fun op => op w = (Resolved tt, w, [EvNoop]))
      (pushed env this sync_ n localPath remotePath (filename, stats)).
Proof.
  intros Hl. pose proof (getTask_ignored stats Hl) as Ht. split; [exact Ht | ].
  intros. unfold pushed. rewrite Ht, Hl. cbn.
  destruct (dryRun this); repeat constructor.
Qed.

(** ** What a run of [sync] reaches *)

Section Reach.

Context {R : Type}.
Variable env : Env R.
Variable this : SftpDeploy.

Lemma inside_child (p f q : string) : inside (p ++ "/" ++ f) q -> inside p q.
Proof. intros H. eapply below_child. apply inside_below. exact H. Qed.

(** Whatever [sync] changes or hands to [upload] and [removeRemote] lies
    strictly below [remotePath]. *)
Lemma sync_footprint (fuel : nat) :
  forall localPath remotePath,
    sat (fun _ => True) (targets (inside remotePath)) (sync env this fuel localPath remotePath).
Proof.
  induction fuel as [ | n IH]; intros localPath remotePath; cbn [sync].
  - apply sat_out_of_fuel.
  - apply sat_bind; [apply sat_emit; exact Logic.I | intros _].
    apply sat_bind.
    { apply sat_buildProject; intros; exact Logic.I. }
    intros project. apply sat_bind.
    { apply sat_emits, Forall_forall. intros e He. apply in_map_iff in He.
      destruct He as [entry [<- _]]. exact Logic.I. }
    intros _. apply sat_bind; [ | intros; apply sat_ret].
    apply sat_all, Forall_forall. intros op Hop.
    apply in_flat_map in Hop. destruct Hop as [[filename stats] [_ Hop]].
    assert (Hsub : sat (fun _ : World R => True) (targets (inside remotePath))
                     (void (sync env this n (localPath ++ path_sep env ++ filename)
                              (remotePath ++ "/" ++ filename)))).
    { unfold void. apply sat_bind; [ | intros; apply sat_ret].
      intros w Hw. destruct (IH (localPath ++ path_sep env ++ filename)
                               (remotePath ++ "/" ++ filename) w Hw) as [H1 H2].
      split; [exact H1 | ]. eapply Forall_impl; [ | exact H2].
      intros e He. unfold targets in *. destruct (target e); [ | exact Logic.I].
      eapply inside_child; exact He. }
    unfold pushed in Hop. destruct (dryRun this).
    + destruct (_ || _); [ | contradiction]. destruct Hop as [<- | []]. exact Hsub.
    + destruct Hop as [<- | []]. apply sat_bind.
      * destruct (removeRemote_first _); [ | apply sat_ret].
        intros w Hw. destruct (removeRemote_footprint env n (remotePath ++ "/" ++ filename) w Hw)
          as [H1 H2].
        split; [exact H1 | ]. eapply Forall_impl; [ | exact H2].
        intros e [_ He]. unfold targets in *. destruct (target e); [ | exact Logic.I].
        eapply below_child; exact He.
      * intros _. destruct (method _); cbn [apply_method].
        -- intros w Hw.
           destruct (upload_footprint env this n (localPath ++ path_sep env ++ filename)
                       (remotePath ++ "/" ++ filename) w Hw) as [H1 H2].
           split; [exact H1 | ]. eapply Forall_impl; [ | exact H2].
           intros e [He _]. unfold targets in *. destruct (target e); [ | exact Logic.I].
           eapply below_child; exact He.
        -- exact Hsub.
        -- apply sat_emit. exact Logic.I.
Qed.

End Reach.

Lemma dryRun_reads_only_witness :
  remote_fs (world_of (sync Demo.demo_env (Demo.deployer true ["logs/"]) 5 "/site" "/www"
                         (Demo.fresh Demo.remoteTree)))
  = Demo.remoteTree.
Proof.
  exact (proj1 (proj2 (dryRun_reads_only Demo.demo_env (Demo.deployer true ["logs/"]) eq_refl
                         5 "/site" "/www" (Demo.fresh Demo.remoteTree)))).
Defined.

Lemma removal_precedes_method_witness :
  Forall (fun e => removal_event e = true)
    (trace_of (removeRemote Demo.demo_env 4 "/www/a.txt" (Demo.fresh Demo.remoteTree))).
Proof.
  exact (proj1 (removal_precedes_method Demo.demo_env (Demo.deployer false ["logs/"]) eq_refl
                  4 "/site" "/www" "a.txt" {| local := l_file; remote := r_dir |}
                  (Demo.fresh Demo.remoteTree) eq_refl)).
Defined.

(** The scenario of C3: [logs] is excluded locally and a file remotely. *)
Lemma ignored_entry_is_left_alone_witness :
  Util.getTask {| local := l_ignored; remote := r_file |}
  = {| method := m_noop; removeRemote_first := false |}.
Proof.
  exact (proj1 (ignored_entry_is_left_alone {| local := l_ignored; remote := r_file |} eq_refl)).
Defined.

Lemma upload_skips_excluded_witness :
  exists below_it,
    trace_of (upload Demo.demo_env (Demo.deployer false ["sub/x.txt"]) 5 "/site/sub" "/www/sub"
                (Demo.fresh Demo.remoteTree))
    = EvUpload "/site/sub" "/www/sub" :: below_it /\
    Forall (included Demo.demo_env (Demo.deployer false ["sub/x.txt"])) below_it.
Proof.
  exact (upload_skips_excluded Demo.demo_env (Demo.deployer false ["sub/x.txt"]) 4
           "/site/sub" "/www/sub" (Demo.fresh Demo.remoteTree) eq_refl).
Defined.

(** ** The tree server: paths and subtrees *)

Module TreeFacts.
Import RemoteTree.

Lemma pieces_cons (s : string) : exists h t, pieces s = h :: t.
Proof.
  induction s as [ | c s [h [t IH]]]; cbn; [eauto | ].
  destruct (Ascii.eqb c "/"); [eauto | rewrite IH; eauto].
Qed.

Lemma pieces_sep (p s : string) : pieces (p ++ "/" ++ s) = (pieces p ++ pieces s)%list.
Proof.
  induction p as [ | c p IH]; [reflexivity | ].
  cbn [append pieces]. fold (append p (String "/" s)).
  change (String "/" s) with ("/" ++ s) in *. rewrite IH.
  destruct (Ascii.eqb c "/"); [reflexivity | ].
  destruct (pieces_cons p) as [h [t ->]]. reflexivity.
Qed.

Lemma resolve_sep (p s : string) : resolve (p ++ "/" ++ s) = (resolve p ++ resolve s)%list.
Proof. unfold resolve. rewrite pieces_sep. apply filter_app. Qed.

Lemma resolve_child (p f : string) : proper f -> resolve (p ++ "/" ++ f) = (resolve p ++ [f])%list.
Proof. intros H. rewrite resolve_sep, H. reflexivity. Qed.

Lemma resolve_below (p q : string) : below p q -> exists y, resolve q = (resolve p ++ y)%list.
Proof.
  intros [-> | [s ->]].
  - exists []. symmetry. apply app_nil_r.
  - exists (resolve s). apply resolve_sep.
Qed.

Lemma piece_is_piece (q x : string) : In x (pieces q) -> pieces x = [x].
Proof.
  revert x. induction q as [ | c q IH]; intros x; cbn.
  - intros [<- | []]. reflexivity.
  - destruct (Ascii.eqb c "/") eqn:E.
    + intros [<- | H]; [reflexivity | apply IH; exact H].
    + destruct (pieces_cons q) as [h [t Hq]]. rewrite Hq in *.
      intros [<- | H].
      * cbn. rewrite E. rewrite (IH h (or_introl eq_refl)). reflexivity.
      * apply IH. right. exact H.
Qed.

Lemma resolved_proper (q x : string) : In x (resolve q) -> proper x.
Proof.
  unfold resolve. intros H. apply filter_In in H. destruct H as [Hin Hne].
  unfold proper, resolve. rewrite (piece_is_piece q x Hin). cbn. rewrite Hne. reflexivity.
Qed.

(** *** Children lists *)

Lemma assoc_replace (f g : string) (v : Node) (cs : list (string * Node)) :
  assoc f (replace g v cs)
  = if String.eqb g f then match assoc g cs with Some _ => Some v | None => None end
    else assoc f cs.
Proof.
  induction cs as [ | [k v0] rest IH]; cbn.
  - destruct (String.eqb g f); reflexivity.
  - destruct (String.eqb k g) eqn:Ekg; cbn.
    + apply String.eqb_eq in Ekg. subst k.
      destruct (String.eqb g f); reflexivity.
    + destruct (String.eqb k f) eqn:Ekf.
      * apply String.eqb_eq in Ekf. subst k.
        rewrite String.eqb_sym in Ekg. rewrite Ekg. reflexivity.
      * exact IH.
Qed.

Lemma assoc_remove (f g : string) (cs : list (string * Node)) :
  assoc f (remove g cs) = if String.eqb g f then None else assoc f cs.
Proof.
  induction cs as [ | [k v0] rest IH]; cbn.
  - destruct (String.eqb g f); reflexivity.
  - destruct (String.eqb k g) eqn:Ekg.
    + apply String.eqb_eq in Ekg. subst k. rewrite IH.
      destruct (String.eqb g f); reflexivity.
    + cbn. destruct (String.eqb k f) eqn:Ekf; [ | exact IH].
      apply String.eqb_eq in Ekf. subst k.
      rewrite String.eqb_sym in Ekg. rewrite Ekg. reflexivity.
Qed.

Lemma assoc_app (f : string) (cs ds : list (string * Node)) :
  assoc f (cs ++ ds) = match assoc f cs with Some v => Some v | None => assoc f ds end.
Proof.
  induction cs as [ | [k v0] rest IH]; cbn; [reflexivity | ].
  destruct (String.eqb k f); [reflexivity | exact IH].
Qed.

Lemma assoc_in (f : string) (cs : list (string * Node)) :
  In f (map fst cs) <-> assoc f cs <> None.
Proof.
  induction cs as [ | [k v0] rest IH]; cbn; [tauto | ].
  destruct (String.eqb k f) eqn:E.
  - apply String.eqb_eq in E. subst. split; [discriminate | auto].
  - apply String.eqb_neq in E. rewrite <- IH. tauto.
Qed.

(** *** Subtrees *)

Lemma lookup_app (t : Node) (a b : list string) :
  lookup t (a ++ b) = match lookup t a with Some n => lookup n b | None => None end.
Proof.
  revert t. induction a as [ | x a IH]; intros t; cbn; [reflexivity | ].
  destruct t as [ | cs]; [reflexivity | ].
  destruct (assoc x cs); [apply IH | reflexivity].
Qed.

Lemma lookup_child (t : Node) (c : list string) (f : string) :
  lookup t (c ++ [f])
  = match lookup t c with Some (Dir cs) => assoc f cs | _ => None end.
Proof.
  rewrite lookup_app. destruct (lookup t c) as [[ | cs] | ]; cbn; try reflexivity.
  destruct (assoc f cs); reflexivity.
Qed.

(** A successful [modify] rewrote the children of a directory that was there. *)
Lemma modify_at (d : list string) :
  forall t t' g0, modify t d g0 = Some t' ->
    exists cs cs', lookup t d = Some (Dir cs) /\ g0 cs = Some cs' /\
                   lookup t' d = Some (Dir cs').
Proof.
  induction d as [ | x d IH]; intros t t' g0; destruct t as [ | cs]; cbn; try discriminate.
  - destruct (g0 cs) as [cs' | ] eqn:E; intros [= <-]. exists cs, cs'. auto.
  - destruct (assoc x cs) as [c | ] eqn:Ex; [ | discriminate].
    destruct (modify c d g0) as [c' | ] eqn:Em; intros [= <-].
    destruct (IH _ _ _ Em) as [cs0 [cs' [H1 [H2 H3]]]].
    exists cs0, cs'. cbn. rewrite assoc_replace, String.eqb_refl, Ex. auto.
Qed.

(** Every directory on the way to the modified one is a directory before
    and after. *)
Lemma modify_above (d z : list string) :
  forall t t' g0, modify t (d ++ z) g0 = Some t' ->
    exists cs cs', lookup t d = Some (Dir cs) /\ lookup t' d = Some (Dir cs').
Proof.
  induction d as [ | x d IH]; intros t t' g0; destruct t as [ | cs]; cbn [app];
    try (destruct z; discriminate).
  - intros H. destruct t' as [ | cs'].
    + destruct z; cbn in H.
      * destruct (g0 cs); discriminate.
      * destruct (assoc s cs); [ | discriminate]. destruct (modify n z g0); discriminate.
    + exists cs, cs'. auto.
  - cbn. destruct (assoc x cs) as [c | ] eqn:Ex; [ | discriminate].
    destruct (modify c (d ++ z) g0) as [c' | ] eqn:Em; intros [= <-].
    destruct (IH _ _ _ Em) as [cs0 [cs' [H1 H2]]].
    exists cs0, cs'. cbn. rewrite assoc_replace, String.eqb_refl, Ex. auto.
Qed.

(** Changing the children of [c], other than [f], leaves the subtree [f]. *)
Lemma modify_here_frame (c : list string) (f : string) :
  forall t t' g0, modify t c g0 = Some t' ->
    (forall cs cs', g0 cs = Some cs' -> assoc f cs' = assoc f cs) ->
    lookup t' (c ++ [f]) = lookup t (c ++ [f]).
Proof.
  intros t t' g0 Hm Hg. destruct (modify_at c t t' g0 Hm) as [cs [cs' [H1 [H2 H3]]]].
  rewrite !lookup_child, H1, H3. apply Hg. exact H2.
Qed.

(** Changing something inside the child [g] of [c] leaves the subtree of the
    child [f]. *)
Lemma modify_deep_frame (c : list string) (f g : string) (z : list string) :
  forall t t' g0, modify t (c ++ g :: z) g0 = Some t' -> f <> g ->
    lookup t' (c ++ [f]) = lookup t (c ++ [f]).
Proof.
  induction c as [ | x c IH]; intros t t' g0; destruct t as [ | cs]; cbn [app modify];
    try discriminate.
  - destruct (assoc g cs) as [n | ] eqn:Eg; [ | discriminate].
    destruct (modify n z g0) as [n' | ]; intros [= <-] Hne.
    cbn. rewrite assoc_replace.
    destruct (String.eqb g f) eqn:E; [apply String.eqb_eq in E; congruence | reflexivity].
  - destruct (assoc x cs) as [n | ] eqn:Ex; [ | discriminate].
    destruct (modify n (c ++ g :: z) g0) as [n' | ] eqn:Em; intros [= <-] Hne.
    cbn. rewrite assoc_replace, String.eqb_refl, Ex. apply (IH _ _ _ Em Hne).
Qed.

(** *** Well-formed trees: every name is one path component *)

Lemma wf_Dir (cs : list (string * Node)) : wf (Dir cs) <-> wfs cs.
Proof.
  unfold wfs. cbn. induction cs as [ | [k v] rest IH].
  - split; [constructor | exact (fun _ => Logic.I)].
  - split.
    + intros [H1 [H2 H3]]. constructor; [split; assumption | apply IH; exact H3].
    + intros H. inversion H as [ | ? ? [H1 H2] H3]; subst. cbn in *.
      split; [exact H1 | split; [exact H2 | apply IH; exact H3]].
Qed.

Lemma wfs_assoc (x : string) (cs : list (string * Node)) (c : Node) :
  wfs cs -> assoc x cs = Some c -> wf c.
Proof.
  induction 1 as [ | [k v] rest [_ Hv] _ IH]; cbn; [discriminate | ].
  destruct (String.eqb k x); [intros [= <-]; exact Hv | exact IH].
Qed.

Lemma wfs_names (cs : list (string * Node)) : wfs cs -> Forall proper (map fst cs).
Proof. induction 1 as [ | [k v] rest [Hk _] _ IH]; cbn; constructor; auto. Qed.

Lemma wfs_replace (x : string) (v : Node) (cs : list (string * Node)) :
  wfs cs -> wf v -> wfs (replace x v cs).
Proof.
  intros H Hv. induction H as [ | [k v0] rest [Hk Hv0] Hrest IH]; cbn; [constructor | ].
  destruct (String.eqb k x); constructor; auto.
Qed.

Lemma wfs_remove (x : string) (cs : list (string * Node)) : wfs cs -> wfs (remove x cs).
Proof.
  induction 1 as [ | [k v0] rest Hkv Hrest IH]; cbn; [constructor | ].
  destruct (String.eqb k x); [exact IH | constructor; auto].
Qed.

Lemma wfs_add (x : string) (v : Node) (cs : list (string * Node)) :
  wfs cs -> proper x -> wf v -> wfs (cs ++ [(x, v)]).
Proof. intros H Hx Hv. apply Forall_app. split; [exact H | repeat constructor; auto]. Qed.

Lemma wf_lookup (d : list string) :
  forall t n, wf t -> lookup t d = Some n -> wf n.
Proof.
  induction d as [ | x d IH]; intros t n Hw; cbn.
  - intros [= <-]. exact Hw.
  - destruct t as [ | cs]; [discriminate | ].
    destruct (assoc x cs) as [c | ] eqn:E; [ | discriminate].
    apply IH. apply wf_Dir in Hw. eapply wfs_assoc; eassumption.
Qed.

Lemma modify_wf (d : list string) :
  forall t t' g0, wf t -> modify t d g0 = Some t' ->
    (forall cs cs', wfs cs -> g0 cs = Some cs' -> wfs cs') -> wf t'.
Proof.
  induction d as [ | x d IH]; intros t t' g0 Hw; destruct t as [ | cs]; cbn; try discriminate.
  - destruct (g0 cs) as [cs' | ] eqn:E; intros [= <-] Hg.
    apply wf_Dir. apply (Hg cs cs'); [apply wf_Dir; exact Hw | exact E].
  - destruct (assoc x cs) as [c | ] eqn:Ex; [ | discriminate].
    destruct (modify c d g0) as [c' | ] eqn:Em; intros [= <-] Hg.
    apply wf_Dir in Hw. apply wf_Dir. apply wfs_replace; [exact Hw | ].
    eapply IH; [ | exact Em | exact Hg]. eapply wfs_assoc; eassumption.
Qed.

(** *** The requests that change the tree *)

Lemma at_entry_ok (t t' : Node) (p : string)
    (f : string -> list (string * Node) -> option (list (string * Node))) :
  at_entry t p f = Ok t' ->
  exists d name, resolve p = (d ++ [name])%list /\ modify t d (f name) = Some t'.
Proof.
  unfold at_entry. destruct (rev (resolve p)) as [ | name rparent] eqn:E; [discriminate | ].
  destruct (modify t (rev rparent) (f name)) as [t1 | ] eqn:Em; intros [= <-].
  exists (rev rparent), name. split; [ | exact Em].
  rewrite <- (rev_involutive (resolve p)), E. reflexivity.
Qed.

(** A mutation rewrites the children of the parent of its path, touching
    only the entry named by the path, and keeps the tree well-formed. *)
Lemma mutation_modify (t t' : Node) (q : string) :
  mutation t q t' ->
  exists d name g0,
    resolve q = (d ++ [name])%list /\ modify t d g0 = Some t' /\
    (forall cs cs' f, g0 cs = Some cs' -> f <> name -> assoc f cs' = assoc f cs) /\
    (forall cs cs', wfs cs -> g0 cs = Some cs' -> wfs cs').
Proof.
  intros [H | l H | H | H]; apply at_entry_ok in H; destruct H as [d [name [Hq Hm]]];
    (assert (Hp : proper name)
      by (apply (resolved_proper q); rewrite Hq; apply in_or_app; right; left; reflexivity));
    exists d, name; eexists; (split; [exact Hq | split; [exact Hm | split]]).
  - intros cs cs' f. destruct (assoc name cs); [discriminate | ]. intros [= <-] Hne.
    rewrite assoc_app. destruct (assoc f cs); [reflexivity | ]. cbn.
    destruct (String.eqb name f) eqn:E; [apply String.eqb_eq in E; congruence | reflexivity].
  - intros cs cs' Hw. destruct (assoc name cs); [discriminate | ]. intros [= <-].
    apply wfs_add; [exact Hw | exact Hp | exact (proj2 (wf_Dir []) (Forall_nil _))].
  - intros cs cs' f. destruct (assoc name cs) as [[ | ] | ]; try discriminate; intros [= <-] Hne;
      [reflexivity | ].
    rewrite assoc_app. destruct (assoc f cs); [reflexivity | ]. cbn.
    destruct (String.eqb name f) eqn:E; [apply String.eqb_eq in E; congruence | reflexivity].
  - intros cs cs' Hw. destruct (assoc name cs) as [[ | ] | ]; try discriminate; intros [= <-];
      [exact Hw | ].
    apply wfs_add; [exact Hw | exact Hp | exact Logic.I].
  - intros cs cs' f. destruct (assoc name cs) as [[ | [ | ]] | ]; try discriminate.
    intros [= <-] Hne. rewrite assoc_remove.
    destruct (String.eqb name f) eqn:E; [apply String.eqb_eq in E; congruence | reflexivity].
  - intros cs cs' Hw. destruct (assoc name cs) as [[ | [ | ]] | ]; try discriminate.
    intros [= <-]. apply wfs_remove. exact Hw.
  - intros cs cs' f. destruct (assoc name cs) as [[ | ] | ]; try discriminate.
    intros [= <-] Hne. rewrite assoc_remove.
    destruct (String.eqb name f) eqn:E; [apply String.eqb_eq in E; congruence | reflexivity].
  - intros cs cs' Hw. destruct (assoc name cs) as [[ | ] | ]; try discriminate.
    intros [= <-]. apply wfs_remove. exact Hw.
Qed.

Lemma mutation_wf (t t' : Node) (q : string) : mutation t q t' -> wf t -> wf t'.
Proof.
  intros H Hw. destruct (mutation_modify t t' q H) as [d [name [g0 [_ [Hm [_ Hg]]]]]].
  eapply modify_wf; eassumption.
Qed.

Lemma snoc_eq_cons (d c y : list string) (name g : string) :
  (d ++ [name] = c ++ g :: y)%list ->
  (y = [] /\ d = c /\ name = g) \/ (exists z, d = (c ++ g :: z)%list).
Proof.
  intros H. destruct (rev y) as [ | l ry] eqn:E.
  - left. assert (y = []) by (rewrite <- (rev_involutive y), E; reflexivity). subst y.
    change (c ++ [g])%list with (c ++ [g])%list in H. apply app_inj_tail in H.
    destruct H; auto.
  - right. assert (Hy : y = (rev ry ++ [l])%list)
      by (rewrite <- (rev_involutive y), E; reflexivity).
    subst y. exists (rev ry).
    change (c ++ g :: rev ry ++ [l])%list with (c ++ (g :: rev ry) ++ [l])%list in H.
    rewrite app_assoc in H. apply app_inj_tail in H. destruct H as [H _]. exact H.
Qed.

(** A mutation at or below the child [g] of [c] leaves the subtree of every
    other child of [c]. *)
Lemma mutation_sibling (t t' : Node) (q : string) (c y : list string) (f g : string) :
  mutation t q t' -> resolve q = (c ++ g :: y)%list -> f <> g ->
  lookup t' (c ++ [f]) = lookup t (c ++ [f]).
Proof.
  intros H Hq Hne. destruct (mutation_modify t t' q H) as [d [name [g0 [Hd [Hm [Hg _]]]]]].
  rewrite Hd in Hq. destruct (snoc_eq_cons _ _ _ _ _ Hq) as [[_ [-> ->]] | [z ->]].
  - eapply modify_here_frame; [exact Hm | ]. intros cs cs' E. eapply Hg; eassumption.
  - eapply modify_deep_frame; eassumption.
Qed.

(** A mutation strictly below [d] finds a directory at [d] and leaves one. *)
Lemma mutation_above (t t' : Node) (q : string) (d0 y : list string) (x : string) :
  mutation t q t' -> resolve q = (d0 ++ x :: y)%list ->
  exists cs cs', lookup t d0 = Some (Dir cs) /\ lookup t' d0 = Some (Dir cs').
Proof.
  intros H Hq. destruct (mutation_modify t t' q H) as [d [name [g0 [Hd [Hm _]]]]].
  rewrite Hd in Hq. destruct (snoc_eq_cons _ _ _ _ _ Hq) as [[_ [-> _]] | [z ->]].
  - apply (modify_above d0 [] t t' g0). rewrite app_nil_r. exact Hm.
  - eapply modify_above; exact Hm.
Qed.

Lemma unlink_gone (t t' : Node) (q : string) :
  unlink t q = Ok t' -> lookup t' (resolve q) = None.
Proof.
  intros H. apply at_entry_ok in H. destruct H as [d [name [Hq Hm]]].
  destruct (modify_at d t t' _ Hm) as [cs [cs' [_ [H2 H3]]]].
  rewrite Hq, lookup_child, H3.
  destruct (assoc name cs) as [[ | ] | ]; try discriminate. injection H2 as <-.
  rewrite assoc_remove, String.eqb_refl. reflexivity.
Qed.

Lemma rmdir_gone (t t' : Node) (q : string) :
  rmdir t q = Ok t' -> lookup t' (resolve q) = None.
Proof.
  intros H. apply at_entry_ok in H. destruct H as [d [name [Hq Hm]]].
  destruct (modify_at d t t' _ Hm) as [cs [cs' [_ [H2 H3]]]].
  rewrite Hq, lookup_child, H3.
  destruct (assoc name cs) as [[ | [ | ]] | ]; try discriminate. injection H2 as <-.
  rewrite assoc_remove, String.eqb_refl. reflexivity.
Qed.

Lemma fastPut_file (t t' : Node) (l q : string) :
  fastPut t l q = Ok t' -> lookup t' (resolve q) = Some File.
Proof.
  intros H. apply at_entry_ok in H. destruct H as [d [name [Hq Hm]]].
  destruct (modify_at d t t' _ Hm) as [cs [cs' [_ [H2 H3]]]].
  rewrite Hq, lookup_child, H3.
  destruct (assoc name cs) as [[ | ] | ] eqn:E; try discriminate; injection H2 as <-.
  - exact E.
  - rewrite assoc_app, E. cbn. rewrite String.eqb_refl. reflexivity.
Qed.

End TreeFacts.

(** ** The project map, entry by entry *)

Lemma Map_get_set (project : Project) (k f : string) (v : Stats) :
  Map_get (Map_set project k v) f = if String.eqb k f then Some v else Map_get project f.
Proof.
  induction project as [ | [k0 v0] rest IH]; cbn; [reflexivity | ].
  destruct (String.eqb k0 k) eqn:E; cbn.
  - apply String.eqb_eq in E. subst k0. destruct (String.eqb k f); reflexivity.
  - destruct (String.eqb k0 f) eqn:E0; [ | exact IH].
    apply String.eqb_eq in E0. subst k0. rewrite String.eqb_sym in E. rewrite E. reflexivity.
Qed.

Lemma Map_get_In (project : Project) (f : string) (stats : Stats) :
  Map_get project f = Some stats -> In (f, stats) project.
Proof.
  induction project as [ | [k v] rest IH]; cbn; [discriminate | ].
  destruct (String.eqb k f) eqn:E.
  - apply String.eqb_eq in E. subst k. intros [= ->]. left; reflexivity.
  - intros H. right. apply IH. exact H.
Qed.

Lemma In_Map_get (project : Project) (f : string) (stats : Stats) :
  NoDup (map fst project) -> In (f, stats) project -> Map_get project f = Some stats.
Proof.
  induction project as [ | [k v] rest IH]; cbn; [contradiction | ].
  intros Hnd. inversion Hnd as [ | ? ? Hk Hrest]; subst.
  intros [[= -> ->] | Hin]; [rewrite String.eqb_refl; reflexivity | ].
  destruct (String.eqb k f) eqn:E; [ | apply IH; assumption].
  apply String.eqb_eq in E. subst k. exfalso. apply Hk.
  apply in_map_iff. exists (f, stats). auto.
Qed.

Lemma Map_set_keys (project : Project) (k : string) (v : Stats) :
  map fst (Map_set project k v)
  = if existsb (String.eqb k) (map fst project) then map fst project
    else (map fst project ++ [k])%list.
Proof.
  induction project as [ | [k0 v0] rest IH]; cbn; [reflexivity | ].
  rewrite (String.eqb_sym k k0). destruct (String.eqb k0 k) eqn:E; cbn; [reflexivity | ].
  rewrite IH. destruct (existsb _ _); reflexivity.
Qed.

Lemma existsb_eqb_In (f : string) (l : list string) :
  existsb (String.eqb f) l = true <-> In f l.
Proof.
  rewrite existsb_exists. split.
  - intros [x [Hin E]]. apply String.eqb_eq in E. subst. exact Hin.
  - intros H. exists f. split; [exact H | apply String.eqb_refl].
Qed.

Lemma Map_set_NoDup (project : Project) (k : string) (v : Stats) :
  NoDup (map fst project) -> NoDup (map fst (Map_set project k v)).
Proof.
  intros H. rewrite Map_set_keys. destruct (existsb _ _) eqn:E; [exact H | ].
  apply NoDup_app; [exact H | repeat constructor; intros [] | ].
  intros x Hx [<- | []].
  apply existsb_eqb_In in Hx. congruence.
Qed.

Section LocalScan.

Context {R : Type}.
Variable env : Env R.
Variable this : SftpDeploy.

Lemma localProject_get (localPath f : string) :
  Map_get (localProject env this localPath) f
  = if in_local env localPath f
    then Some {| local := localStatus env this localPath f; remote := r_null |}
    else None.
Proof.
  unfold localProject, in_local.
  assert (G : forall l project,
             Map_get (fold_left
                        (fun project filename =>
                           Map_set project filename
                             {| local := localStatus env this localPath filename; remote := r_null |})
                        l project) f
             = if existsb (String.eqb f) l
               then Some {| local := localStatus env this localPath f; remote := r_null |}
               else Map_get project f).
  { induction l as [ | x l IH]; intros project; cbn; [reflexivity | ].
    rewrite IH, Map_get_set. rewrite (String.eqb_sym f x).
    destruct (String.eqb x f) eqn:E; cbn.
    - apply String.eqb_eq in E. subst x. destruct (existsb _ l); reflexivity.
    - reflexivity. }
  exact (G (readdirSync env localPath) []).
Qed.

Lemma localProject_NoDup (localPath : string) :
  NoDup (map fst (localProject env this localPath)).
Proof.
  unfold localProject.
  assert (G : forall l project, NoDup (map fst project) ->
             NoDup (map fst (fold_left
                        (fun project filename =>
                           Map_set project filename
                             {| local := localStatus env this localPath filename; remote := r_null |})
                        l project))).
  { induction l as [ | x l IH]; intros project H; cbn; [exact H | ].
    apply IH, Map_set_NoDup, H. }
  apply (G (readdirSync env localPath) []). constructor.
Qed.

Lemma setRemote_get (project : Project) (g f : string) (isDir : bool) :
  Map_get (setRemote project g isDir) f
  = if String.eqb g f
    then Some {| local := match Map_get project g with Some s => local s | None => l_null end;
                 remote := if isDir then r_dir else r_file |}
    else Map_get project f.
Proof.
  unfold setRemote. destruct (Map_get project g); rewrite Map_get_set; reflexivity.
Qed.

Lemma setRemote_NoDup (project : Project) (g : string) (isDir : bool) :
  NoDup (map fst project) -> NoDup (map fst (setRemote project g isDir)).
Proof. unfold setRemote. destruct (Map_get project g); apply Map_set_NoDup. Qed.

End LocalScan.

(** ** Scanning against the tree server *)

Section TreeScan.
Import RemoteTree TreeFacts.

Variable env : Env Node.
Variable this : SftpDeploy.
Hypothesis served : tree_served env.
Hypothesis local_proper : forall p, Forall proper (readdirSync env p).

Lemma stat_child (t : Node) (remotePath g : string) :
  proper g ->
  srv_stat env t (remotePath ++ "/" ++ g)
  = match lookup t (resolve remotePath ++ [g]) with
    | Some File => Ok false
    | Some (Dir _) => Ok true
    | None => Err no_such_file
    end.
Proof.
  intros Hg. destruct served as [_ [-> _]]. unfold stat. rewrite (resolve_child _ _ Hg).
  reflexivity.
Qed.

Lemma setStats_spec (remotePath : string) (remoteList : list string) :
  forall project w project' w1 tb,
    Forall proper remoteList ->
    setStats env remotePath remoteList project w = (Resolved project', w1, tb) ->
    (NoDup (map fst project) -> NoDup (map fst project')) /\
    forall f,
      Map_get project' f
      = if existsb (String.eqb f) remoteList
        then Some {| local := match Map_get project f with Some s => local s | None => l_null end;
                     remote := kind (lookup (remote_fs w) (resolve remotePath ++ [f])) |}
        else Map_get project f.
Proof.
  induction remoteList as [ | g rest IH]; intros project w project' w1 tb Hp.
  - cbn. intros [= <- _ _]. split; [auto | reflexivity].
  - inversion Hp as [ | ? ? Hg Hrest]; subst. cbn [setStats].
    rewrite (stat_child _ _ _ Hg).
    destruct (lookup (remote_fs w) (resolve remotePath ++ [g])) as [node | ] eqn:El.
    + set (isDir := match node with File => false | Dir _ => true end).
      assert (Hk : (if isDir then r_dir else r_file) = kind (Some node))
        by (destruct node; reflexivity).
      assert (E : match node with File => Ok false | Dir _ => Ok true end = @Ok bool isDir)
        by (destruct node; reflexivity).
      rewrite E.
      destruct (setStats env remotePath rest (setRemote project g isDir) w) as [[o w2] t2] eqn:Es.
      intros [= -> <- _].
      destruct (IH _ _ _ _ _ Hrest Es) as [Hnd Hget].
      split; [intros H; apply Hnd, setRemote_NoDup, H | ].
      intros f. rewrite Hget. cbn [existsb]. rewrite !setRemote_get, Hk.
      rewrite (String.eqb_sym f g). destruct (String.eqb g f) eqn:Egf; cbn [orb].
      * apply String.eqb_eq in Egf. subst f. rewrite El.
        destruct (existsb _ rest); reflexivity.
      * reflexivity.
    + destruct (setStats env remotePath rest project w) as [[o w2] t2]. discriminate.
Qed.

(** What a resolved [buildProject] holds: one entry per name present on
    either side, with the statuses read off the trees. *)
Lemma buildProject_spec (localPath remotePath : string) (w w1 : World Node)
    (project : Project) (tb : list Event) :
  wf (remote_fs w) ->
  buildProject env this localPath remotePath w = (Resolved project, w1, tb) ->
  remote_fs w1 = remote_fs w /\
  NoDup (map fst project) /\
  forall f,
    Map_get project f
    = if present env localPath remotePath (remote_fs w) f
      then Some (entry env this localPath remotePath (remote_fs w) f)
      else None.
Proof.
  intros Hwf Hb. destruct (buildProject_resolved env this _ _ _ _ _ _ Hb) as [_ Hfs].
  split; [exact Hfs | ]. revert Hb.
  unfold buildProject, bind, unhandled.
  destruct (getSftp env w) as [[o w0] t0] eqn:Hg.
  destruct o as [h | e | | ]; try discriminate.
  destruct (getSftp_resolved env _ _ _ _ Hg) as [_ Hfs0]. rewrite Hfs0.
  destruct served as [-> _]. unfold readdir.
  destruct (lookup (remote_fs w) (resolve remotePath)) as [[ | cs] | ] eqn:El; cbn.
  - discriminate.
  - destruct (setStats env remotePath (map fst cs) (localProject env this localPath) w0)
      as [[o2 w2] t2] eqn:Es.
    intros [= -> _ _].
    assert (Hnames : Forall proper (map fst cs)).
    { apply wfs_names. apply wf_Dir. eapply wf_lookup; eassumption. }
    destruct (setStats_spec _ _ _ _ _ _ _ Hnames Es) as [Hnd Hget].
    split; [apply Hnd, localProject_NoDup | ].
    intros f. rewrite Hget, Hfs0, localProject_get. unfold present, entry.
    rewrite lookup_child, El.
    destruct (existsb (String.eqb f) (map fst cs)) eqn:Ex.
    + apply existsb_eqb_In in Ex. apply assoc_in in Ex.
      destruct (assoc f cs) as [n | ]; [ | congruence]. cbn [listed]. rewrite orb_true_r.
      destruct (in_local env localPath f); reflexivity.
    + assert (Ha : assoc f cs = None).
      { destruct (assoc f cs) eqn:Ea; [ | reflexivity].
        assert (In f (map fst cs)) by (apply assoc_in; congruence).
        apply existsb_eqb_In in H. congruence. }
      rewrite Ha. cbn [listed kind]. rewrite orb_false_r.
      destruct (in_local env localPath f); reflexivity.
  - intros [= <- _ _]. split; [apply localProject_NoDup | ].
    intros f. rewrite localProject_get. unfold present, entry.
    rewrite lookup_child, El. cbn [listed kind]. rewrite orb_false_r.
    destruct (in_local env localPath f); reflexivity.
Qed.

(** The names of a resolved project are path components. *)
Lemma present_proper (localPath remotePath : string) (t : Node) (f : string) :
  wf t -> present env localPath remotePath t f = true -> proper f.
Proof.
  intros Hwf. unfold present. intros H. apply orb_true_iff in H. destruct H as [H | H].
  - apply existsb_eqb_In in H.
    exact (proj1 (Forall_forall _ _) (local_proper localPath) f H).
  - rewrite lookup_child in H.
    destruct (lookup t (resolve remotePath)) as [[ | cs] | ] eqn:El; try discriminate.
    assert (Hin : In f (map fst cs)).
    { apply assoc_in. destruct (assoc f cs); [discriminate | discriminate]. }
    assert (Hnames : Forall proper (map fst cs)).
    { apply wfs_names. apply wf_Dir. eapply wf_lookup; eassumption. }
    exact (proj1 (Forall_forall _ _) Hnames f Hin).
Qed.

Lemma project_entry (localPath remotePath : string) (w w1 : World Node)
    (project : Project) (tb : list Event) (f : string) (stats : Stats) :
  wf (remote_fs w) ->
  buildProject env this localPath remotePath w = (Resolved project, w1, tb) ->
  In (f, stats) project ->
  present env localPath remotePath (remote_fs w) f = true /\
  stats = entry env this localPath remotePath (remote_fs w) f /\ proper f.
Proof.
  intros Hwf Hb Hin. destruct (buildProject_spec _ _ _ _ _ _ Hwf Hb) as [_ [Hnd Hget]].
  pose proof (In_Map_get _ _ _ Hnd Hin) as Hm. rewrite Hget in Hm.
  destruct (present env localPath remotePath (remote_fs w) f) eqn:Ep; [ | discriminate].
  injection Hm as <-. split; [reflexivity | split; [reflexivity | ]].
  eapply present_proper; eassumption.
Qed.

End TreeScan.

Lemma sat_bind_run {R A B} (I : World R -> Prop) (P : Event -> Prop)
    (m : M R A) (k : A -> M R B) :
  sat I P m ->
  (forall w a w1 t1, I w -> m w = (Resolved a, w1, t1) ->
                     I (world_of (k a w1)) /\ Forall P (trace_of (k a w1))) ->
  sat I P (bind m k).
Proof.
  intros Hm Hk w Hw. unfold bind. specialize (Hm w Hw). specialize (Hk w).
  destruct (m w) as [[o w1] t1]. cbn in Hm. destruct Hm as [Hw1 Ht1].
  destruct o as [a | e | | ]; cbn; auto.
  specialize (Hk a w1 t1 Hw eq_refl). destruct (k a w1) as [[o2 w2] t2]. cbn in *.
  destruct Hk as [Hw2 Ht2]. split; [exact Hw2 | apply Forall_app; auto].
Qed.

(** ** What a run keeps of the remote tree *)

Section TreeFrame.
Import RemoteTree TreeFacts.

Variable env : Env Node.
Variable this : SftpDeploy.
Hypothesis served : tree_served env.

(** [I] is a property of the tree kept by every mutation at a path in [Q]. *)
Variable I : Node -> Prop.
Variable Q : string -> Prop.
Hypothesis I_stable : forall t q t', Q q -> mutation t q t' -> I t -> I t'.

Let Iw : World Node -> Prop := fun w => I (remote_fs w).
Let any : Event -> Prop := fun _ => True.

Lemma Iw_getSftp (w : World Node) : Iw w -> Iw (world_of (getSftp env w)).
Proof. unfold Iw. rewrite getSftp_remote_fs. auto. Qed.

Lemma tree_mkdir (p : string) : Q p -> sat Iw any (sftp_mkdir env p).
Proof.
  intros Hq. apply sat_bind; [ | intros; apply sat_ret].
  apply sat_request; [exact Logic.I | ]. intros w a Hw E.
  destruct served as [_ [_ [Hs _]]]. rewrite Hs in E.
  exact (I_stable _ _ _ Hq (mutation_mkdir _ _ _ E) Hw).
Qed.

Lemma tree_fastPut (l p : string) : Q p -> sat Iw any (sftp_fastPut env l p).
Proof.
  intros Hq. apply sat_bind; [ | intros; apply sat_ret].
  apply sat_request; [exact Logic.I | ]. intros w a Hw E.
  destruct served as [_ [_ [_ [Hs _]]]]. rewrite Hs in E.
  exact (I_stable _ _ _ Hq (mutation_fastPut _ _ _ l E) Hw).
Qed.

Lemma tree_rmdir (p : string) : Q p -> sat Iw any (sftp_rmdir env p).
Proof.
  intros Hq. apply sat_bind; [ | intros; apply sat_ret].
  apply sat_request; [exact Logic.I | ]. intros w a Hw E.
  destruct served as [_ [_ [_ [_ [Hs _]]]]]. rewrite Hs in E.
  exact (I_stable _ _ _ Hq (mutation_rmdir _ _ _ E) Hw).
Qed.

Lemma tree_unlink (p : string) : Q p -> sat Iw any (sftp_unlink env p).
Proof.
  intros Hq. apply sat_bind; [ | intros; apply sat_ret].
  apply sat_request; [exact Logic.I | ]. intros w a Hw E.
  destruct served as [_ [_ [_ [_ [_ Hs]]]]]. rewrite Hs in E.
  exact (I_stable _ _ _ Hq (mutation_unlink _ _ _ E) Hw).
Qed.

Lemma tree_session : sat Iw any (unhandled (getSftp env)).
Proof. apply sat_unhandled, sat_getSftp; [exact Iw_getSftp | exact Logic.I]. Qed.

Lemma below_trans_child (p f q : string) : below (p ++ "/" ++ f) q -> below p q.
Proof. intros H. apply inside_below. eapply below_child. exact H. Qed.

Lemma tree_removeRemote (fuel : nat) :
  forall p, (forall q, below p q -> Q q) -> sat Iw any (removeRemote env fuel p).
Proof.
  induction fuel as [ | n IH]; intros p Hq; cbn [removeRemote].
  - apply sat_out_of_fuel.
  - apply sat_bind; [apply sat_emit; exact Logic.I | intros _].
    apply sat_bind; [apply tree_session | intros _].
    apply sat_bind; [apply sat_request; [exact Logic.I | auto] | intros isDir].
    destruct isDir; [ | apply tree_unlink, Hq, below_refl].
    apply sat_bind; [apply sat_request; [exact Logic.I | auto] | intros list].
    apply sat_bind; [ | intros _; apply tree_rmdir, Hq, below_refl].
    apply sat_unhandled, sat_all, Forall_forall. intros op Hop.
    apply in_map_iff in Hop. destruct Hop as [filename [<- _]].
    apply IH. intros q Hb. apply Hq. eapply below_trans_child. exact Hb.
Qed.

Lemma tree_upload (fuel : nat) :
  forall l p, (forall q, below p q -> Q q) -> sat Iw any (upload env this fuel l p).
Proof.
  induction fuel as [ | n IH]; intros l p Hq; cbn [upload].
  - apply sat_out_of_fuel.
  - apply sat_bind; [apply sat_emit; exact Logic.I | intros _].
    apply sat_bind; [apply tree_session | intros _].
    destruct (isDirectory env l); [ | apply tree_fastPut, Hq, below_refl].
    apply sat_bind; [apply tree_mkdir, Hq, below_refl | intros _].
    apply sat_unhandled, sat_all, Forall_forall. intros op Hop.
    apply in_map_iff in Hop. destruct Hop as [filename [<- _]].
    apply IH. intros q Hb. apply Hq. eapply below_trans_child. exact Hb.
Qed.

End TreeFrame.

Section TreeSync.
Import RemoteTree TreeFacts.

Variable env : Env Node.
Variable this : SftpDeploy.
Hypothesis served : tree_served env.
Hypothesis local_proper : forall p, Forall proper (readdirSync env p).

Variable I : Node -> Prop.
Variable Q : string -> Prop.
Hypothesis I_stable : forall t q t', Q q -> mutation t q t' -> I t -> I t'.

Let J : Node -> Prop := fun t => wf t /\ I t.
Let Jw : World Node -> Prop := fun w => J (remote_fs w).
Let any : Event -> Prop := fun _ => True.

Lemma J_stable : forall t q t', Q q -> mutation t q t' -> J t -> J t'.
Proof.
  intros t q t' Hq Hm [Hw Hi]. split; [eapply mutation_wf; eassumption | ].
  eapply I_stable; eassumption.
Qed.

(** The operations pushed for the entry [f] keep [J], if the mutations at
    and below the remote path of [f] keep [I], and [sync_n] does. *)
Lemma pushed_keeps (n : nat) (l p f : string) (stats : Stats) :
  proper f ->
  (forall q y, resolve q = (resolve p ++ f :: y)%list -> Q q) ->
  (forall l' p',
      (forall q x y, proper x -> resolve q = (resolve p' ++ x :: y)%list -> Q q) ->
      sat Jw any (sync env this n l' p')) ->
  Forall (sat Jw any) (pushed env this (sync env this n) n l p (f, stats)).
Proof.
  intros Hf Hq IH.
  assert (Hbelow : forall q, below (p ++ "/" ++ f) q -> Q q).
  { intros q Hbq. destruct (resolve_below _ _ Hbq) as [y Hy].
    rewrite (resolve_child _ _ Hf) in Hy. rewrite <- app_assoc in Hy.
    eapply Hq. exact Hy. }
  assert (Hsub : sat Jw any (void (sync env this n (l ++ path_sep env ++ f) (p ++ "/" ++ f)))).
  { unfold void. apply sat_bind; [ | intros; apply sat_ret]. apply IH.
    intros q g y Hg Hy. rewrite (resolve_child _ _ Hf) in Hy. rewrite <- app_assoc in Hy.
    eapply Hq. exact Hy. }
  unfold pushed. destruct (dryRun this).
  - destruct (_ || _); [apply Forall_cons; [exact Hsub | apply Forall_nil] | apply Forall_nil].
  - apply Forall_cons; [ | apply Forall_nil]. apply sat_bind.
    + destruct (removeRemote_first _); [ | apply sat_ret].
      apply (tree_removeRemote env served J Q J_stable n _ Hbelow).
    + intros _. destruct (method _); cbn [apply_method].
      * apply (tree_upload env this served J Q J_stable n _ _ Hbelow).
      * exact Hsub.
      * apply sat_emit. exact Logic.I.
Qed.

(** [sync] keeps a well-formed tree well-formed, and keeps [I] if the
    mutations strictly below the remote directory keep it. *)
Lemma tree_sync (fuel : nat) :
  forall l p,
    (forall q f y, proper f -> resolve q = (resolve p ++ f :: y)%list -> Q q) ->
    sat Jw any (sync env this fuel l p).
Proof.
  induction fuel as [ | n IH]; intros l p Hq; cbn [sync].
  - apply sat_out_of_fuel.
  - apply sat_bind; [apply sat_emit; exact Logic.I | intros _].
    apply sat_bind_run.
    { apply sat_buildProject; try (intros; exact Logic.I).
      intros w Hw. unfold Jw. rewrite getSftp_remote_fs. exact Hw. }
    intros w project w1 tb Hw Hb.
    destruct (buildProject_spec env this served l p w w1 project tb (proj1 Hw) Hb) as [Hfs _].
    assert (Hw1 : Jw w1) by (unfold Jw; rewrite Hfs; exact Hw).
    assert (G : sat Jw any
                  (emits (map (decision env l) project);;
                   all (flat_map (pushed env this (sync env this n) n l p) project);;
                   ret true)).
    { apply sat_bind; [apply sat_emits, Forall_forall; intros; exact Logic.I | intros _].
      apply sat_bind; [ | intros; apply sat_ret].
      apply sat_all, Forall_forall. intros op Hop.
      apply in_flat_map in Hop. destruct Hop as [[f stats] [Hin Hop]].
      assert (Hf : proper f).
      { exact (proj2 (proj2 (project_entry env this served local_proper l p w w1 project tb
                               f stats (proj1 Hw) Hb Hin))). }
      revert op Hop. apply Forall_forall. apply pushed_keeps; [exact Hf | | exact IH].
      intros q y Hy. eapply Hq; [exact Hf | exact Hy]. }
    exact (G w1 Hw1).
Qed.

End TreeSync.

(** ** Running twice *)

Lemma bind_resolved {R A B} (m : M R A) (k : A -> M R B) (w w' : World R) (b : B)
    (t : list Event) :
  bind m k w = (Resolved b, w', t) ->
  exists a w1 t1 t2,
    m w = (Resolved a, w1, t1) /\ k a w1 = (Resolved b, w', t2) /\ t = (t1 ++ t2)%list.
Proof.
  unfold bind. destruct (m w) as [[o w1] t1]. destruct o as [a | e | | ]; try discriminate.
  destruct (k a w1) as [[o2 w2] t2] eqn:E. intros [= -> -> <-].
  exists a, w1, t1, t2. auto.
Qed.

Lemma join_resolved (o1 o2 : Outcome unit) (u : unit) :
  join o1 o2 = Resolved u -> o1 = Resolved tt /\ o2 = Resolved tt.
Proof. destruct o1 as [[] | | | ], o2 as [[] | | | ]; cbn; try discriminate; auto. Qed.

Lemma all_app {R A} (a b : list (M R A)) (w : World R) :
  all (a ++ b) w
  = let '(o1, w1, t1) := all a w in
    let '(o2, w2, t2) := all b w1 in
    (join o1 o2, w2, (t1 ++ t2)%list).
Proof.
  revert w. induction a as [ | op a IH]; intros w; cbn.
  - destruct (all b w) as [[o2 w2] t2]. destruct o2 as [[] | | | ]; reflexivity.
  - destruct (op w) as [[o w1] t1]. rewrite IH.
    destruct (all a w1) as [[o1 w2] t2]. destruct (all b w2) as [[o2 w3] t3].
    rewrite app_assoc. f_equal. f_equal.
    destruct o as [x | | | ], o1 as [[] | | | ], o2 as [[] | | | ]; reflexivity.
Qed.

Lemma all_app_resolved {R A} (a b : list (M R A)) (w w' : World R) (u : unit)
    (t : list Event) :
  all (a ++ b) w = (Resolved u, w', t) ->
  exists w1 t1 t2,
    all a w = (Resolved tt, w1, t1) /\ all b w1 = (Resolved tt, w', t2) /\
    t = (t1 ++ t2)%list.
Proof.
  rewrite all_app. destruct (all a w) as [[o1 w1] t1] eqn:Ea.
  destruct (all b w1) as [[o2 w2] t2] eqn:Eb.
  intros [= Hj -> <-]. destruct (join_resolved _ _ _ Hj) as [-> ->].
  exists w1, t1, t2. auto.
Qed.

Lemma all_one_resolved {R} (op : M R unit) (w w' : World R) (u : unit) (t : list Event) :
  all [op] w = (Resolved u, w', t) -> op w = (Resolved tt, w', t).
Proof.
  cbn. destruct (op w) as [[o w1] t1]. intros [= Hj -> <-].
  destruct o as [[] | | | ]; try discriminate. rewrite app_nil_r. reflexivity.
Qed.

Section Twice.
Import RemoteTree TreeFacts.

Variable env : Env Node.
Variable this : SftpDeploy.
Hypothesis served : tree_served env.
Hypothesis local_proper : forall p, Forall proper (readdirSync env p).

Let any : Event -> Prop := fun _ => True.

Lemma Settled_dep (k : nat) :
  forall localPath remotePath t1 t2,
    wf t2 ->
    lookup t1 (resolve remotePath) = lookup t2 (resolve remotePath) ->
    Settled env this k localPath remotePath t1 -> Settled env this k localPath remotePath t2.
Proof.
  induction k as [ | k IH]; intros localPath remotePath t1 t2 Hwf Hl; cbn [Settled]; [auto | ].
  intros H f Hp.
  assert (E : lookup t1 (resolve remotePath ++ [f]) = lookup t2 (resolve remotePath ++ [f])).
  { rewrite !lookup_app, Hl. reflexivity. }
  assert (Hent : entry env this localPath remotePath t1 f
                 = entry env this localPath remotePath t2 f).
  { unfold entry. rewrite E. reflexivity. }
  assert (Hp1 : present env localPath remotePath t1 f = true).
  { unfold present in *. rewrite E. exact Hp. }
  destruct (H f Hp1) as [H1 H2]. rewrite <- Hent. split; [exact H1 | ].
  intros Hd. destruct (H2 Hd) as [Hr HS]. split; [exact Hr | ].
  eapply IH; [exact Hwf | | exact HS].
  rewrite (resolve_child _ _ (present_proper env local_proper _ _ _ _ Hwf Hp)). exact E.
Qed.

(** *** Frames *)

Lemma sibling_stable (c : list string) (f : string) (v : option Node) :
  forall t q t',
    (exists g y, g <> f /\ resolve q = (c ++ g :: y)%list) ->
    mutation t q t' -> lookup t (c ++ [f]) = v -> lookup t' (c ++ [f]) = v.
Proof.
  intros t q t' [g [y [Hne Hq]]] Hm <-.
  eapply mutation_sibling; [exact Hm | exact Hq | congruence].
Qed.

(** The operations of an entry leave the subtree of every other name. *)
Lemma entry_frame (that : SftpDeploy) (n : nat) (l p g f : string) (stats : Stats)
    (v : option Node) :
  proper g -> g <> f ->
  Forall (sat (fun w => wf (remote_fs w) /\ lookup (remote_fs w) (resolve p ++ [f]) = v) any)
    (pushed env that (sync env that n) n l p (g, stats)).
Proof.
  intros Hg Hne.
  apply (pushed_keeps env that served
           (fun t => lookup t (resolve p ++ [f]) = v)
           (fun q => exists g y, g <> f /\ resolve q = (resolve p ++ g :: y)%list)
           (sibling_stable (resolve p) f v) n l p g stats Hg).
  - intros q y Hq. exists g, y. auto.
  - intros l' p' H.
    apply (tree_sync env that served local_proper _ _ (sibling_stable (resolve p) f v) n l' p' H).
Qed.

Lemma entries_frame (that : SftpDeploy) (n : nat) (l p f : string) (v : option Node)
    (es : Project) :
  (forall g stats, In (g, stats) es -> proper g /\ g <> f) ->
  sat (fun w => wf (remote_fs w) /\ lookup (remote_fs w) (resolve p ++ [f]) = v) any
    (all (flat_map (pushed env that (sync env that n) n l p) es)).
Proof.
  intros H. apply sat_all, Forall_forall. intros op Hop.
  apply in_flat_map in Hop. destruct Hop as [[g stats] [Hin Hop]].
  destruct (H g stats Hin) as [Hg Hne].
  exact (proj1 (Forall_forall _ _) (entry_frame that n l p g f stats v Hg Hne) op Hop).
Qed.

Lemma above_stable (d : list string) :
  forall t q t',
    (exists x y, resolve q = (d ++ x :: y)%list) ->
    mutation t q t' -> lookup t d <> Some File -> lookup t' d <> Some File.
Proof.
  intros t q t' [x [y Hq]] Hm _.
  destruct (mutation_above _ _ _ _ _ _ Hm Hq) as [cs [cs' [_ ->]]]. discriminate.
Qed.

(** [sync] never turns its remote directory into a file, and keeps the tree
    well-formed. *)
Lemma sync_keeps_directory (that : SftpDeploy) (n : nat) (l p : string) :
  sat (fun w => wf (remote_fs w) /\ lookup (remote_fs w) (resolve p) <> Some File) any
    (sync env that n l p).
Proof.
  apply (tree_sync env that served local_proper
           (fun t => lookup t (resolve p) <> Some File)
           (fun q => exists x y, resolve q = (resolve p ++ x :: y)%list)
           (above_stable (resolve p)) n l p).
  intros q f y _ Hq. eauto.
Qed.

(** *** What the operations of an entry leave at its path *)

Lemma removeRemote_gone (n : nat) (p : string) (w w' : World Node) (u : unit)
    (t : list Event) :
  removeRemote env n p w = (Resolved u, w', t) ->
  lookup (remote_fs w') (resolve p) = None.
Proof.
  destruct n as [ | n]; [discriminate | ]. cbn [removeRemote]. intros H.
  apply bind_resolved in H. destruct H as [_ [w1 [_ [t1 [_ [H _]]]]]].
  apply bind_resolved in H. destruct H as [_ [w2 [_ [t2 [_ [H _]]]]]].
  apply bind_resolved in H. destruct H as [isDir [w3 [_ [t3 [_ [H _]]]]]].
  destruct served as [_ [_ [_ [_ [Hrmdir Hunlink]]]]].
  destruct isDir.
  - apply bind_resolved in H. destruct H as [list [w4 [_ [t4 [_ [H _]]]]]].
    apply bind_resolved in H. destruct H as [_ [w5 [_ [t5 [_ [H _]]]]]].
    unfold sftp_rmdir in H. apply bind_resolved in H.
    destruct H as [r [w6 [t5' [t6 [H [Hret _]]]]]].
    assert (w6 = w') by (unfold ret in Hret; congruence). subst w6. clear Hret.
    unfold request in H. rewrite Hrmdir in H.
    destruct (rmdir (remote_fs w5) p) as [r' | e] eqn:E; [ | discriminate].
    injection H as -> <- _. cbn. eapply rmdir_gone. exact E.
  - unfold sftp_unlink in H. apply bind_resolved in H.
    destruct H as [r [w6 [t5' [t6 [H [Hret _]]]]]].
    assert (w6 = w') by (unfold ret in Hret; congruence). subst w6. clear Hret.
    unfold request in H. rewrite Hunlink in H.
    destruct (unlink (remote_fs w3) p) as [r' | e] eqn:E; [ | discriminate].
    injection H as -> <- _. cbn. eapply unlink_gone. exact E.
Qed.

Lemma upload_file_put (that : SftpDeploy) (n : nat) (l p : string) (w w' : World Node)
    (u : unit) (t : list Event) :
  isDirectory env l = false ->
  upload env that n l p w = (Resolved u, w', t) ->
  lookup (remote_fs w') (resolve p) = Some File.
Proof.
  intros Hd. destruct n as [ | n]; [discriminate | ]. cbn [upload]. rewrite Hd. intros H.
  apply bind_resolved in H. destruct H as [_ [w1 [_ [t1 [_ [H _]]]]]].
  apply bind_resolved in H. destruct H as [_ [w2 [_ [t2 [_ [H _]]]]]].
  unfold sftp_fastPut in H. apply bind_resolved in H.
  destruct H as [r [w6 [t5' [t6 [H [Hret _]]]]]].
    assert (w6 = w') by (unfold ret in Hret; congruence). subst w6. clear Hret.
  destruct served as [_ [_ [_ [Hput _]]]].
  unfold request in H. rewrite Hput in H.
  destruct (fastPut (remote_fs w2) l p) as [r' | e] eqn:E; [ | discriminate].
  injection H as -> <- _. cbn. eapply fastPut_file. exact E.
Qed.

End Twice.

(** ** A second run removes nothing *)

Section Idempotence.
Import RemoteTree TreeFacts.

Variable env : Env Node.
Variable this : SftpDeploy.
Hypothesis served : tree_served env.
Hypothesis local_proper : forall p, Forall proper (readdirSync env p).
Hypothesis real : dryRun this = false.

Let any : Event -> Prop := fun _ => True.

Lemma wf_stable : forall t q t', True -> mutation t q t' -> wf t -> wf t'.
Proof. intros t q t' _ Hm Hw. eapply mutation_wf; eassumption. Qed.

Lemma removeRemote_wf (n : nat) (p : string) (w : World Node) :
  wf (remote_fs w) -> wf (remote_fs (world_of (removeRemote env n p w))).
Proof.
  intros Hw.
  exact (proj1 (tree_removeRemote env served wf (fun _ => True) wf_stable n p
                  (fun _ _ => Logic.I) w Hw)).
Qed.

Lemma emit_run {R} (e : Event) (w w' : World R) (u : unit) (t : list Event) :
  emit e w = (Resolved u, w', t) -> w' = w.
Proof. unfold emit. congruence. Qed.

Lemma emits_run {R} (evs : list Event) (w w' : World R) (u : unit) (t : list Event) :
  emits evs w = (Resolved u, w', t) -> w' = w.
Proof. unfold emits. congruence. Qed.

Lemma ret_run {R A} (a b : A) (w w' : World R) (t : list Event) :
  ret a w = (Resolved b, w', t) -> w' = w.
Proof. unfold ret. congruence. Qed.

(** One level of a resolved run, taken apart. *)
Lemma sync_resolved (n : nat) (l p : string) (w w' : World Node) (b : bool) (tr : list Event) :
  sync env this (S n) l p w = (Resolved b, w', tr) ->
  exists project w1 tb ta,
    buildProject env this l p w = (Resolved project, w1, tb) /\
    all (flat_map (pushed env this (sync env this n) n l p) project) w1 = (Resolved tt, w', ta).
Proof.
  cbn [sync]. intros H.
  apply bind_resolved in H. destruct H as [u0 [w0 [t0 [t0' [H0 [H _]]]]]].
  apply emit_run in H0. subst w0.
  apply bind_resolved in H. destruct H as [project [w1 [tb [t1' [Hb [H _]]]]]].
  apply bind_resolved in H. destruct H as [u2 [w2 [t2 [t2' [H2 [H _]]]]]].
  apply emits_run in H2. subst w2.
  apply bind_resolved in H. destruct H as [u3 [w3 [ta [t3' [Ha [H _]]]]]].
  apply ret_run in H. subst w3. destruct u3.
  exists project, w1, tb, ta. auto.
Qed.


Lemma trivial_stable : forall (t : Node) (q : string) (t' : Node),
  True -> mutation t q t' -> True -> True.
Proof. auto. Qed.

(** The operations of one entry keep the tree well-formed. *)
Lemma pushed_wf (that : SftpDeploy) (n : nat) (l p f : string) (stats : Stats) (w : World Node) :
  proper f -> wf (remote_fs w) ->
  wf (remote_fs (world_of (all (pushed env that (sync env that n) n l p (f, stats)) w))).
Proof.
  intros Hf Hw.
  assert (H : Forall (sat (fun w => wf (remote_fs w) /\ True) any)
                (pushed env that (sync env that n) n l p (f, stats))).
  { apply (pushed_keeps env that served (fun _ => True) (fun _ => True) trivial_stable
             n l p f stats Hf (fun _ _ _ => Logic.I)).
    intros l' p' H.
    apply (tree_sync env that served local_proper _ _ trivial_stable n l' p' H). }
  exact (proj1 (proj1 (sat_all _ _ _ H w (conj Hw Logic.I)))).
Qed.

Lemma unhandled_resolved {R A} (m : M R A) (w w' : World R) (a : A) (t : list Event) :
  unhandled m w = (Resolved a, w', t) -> m w = (Resolved a, w', t).
Proof.
  unfold unhandled. destruct (m w) as [[o w1] t1].
  destruct o; intros H; try discriminate; exact H.
Qed.

Lemma in_split_last (x : string) (l : list string) :
  In x l -> exists pre post, l = (pre ++ x :: post)%list /\ ~ In x post.
Proof.
  induction l as [ | a l IH]; [contradiction | ]. intros Hin.
  destruct (in_dec string_dec x l) as [Hl | Hl].
  - destruct (IH Hl) as [pre [post [-> Hn]]]. exists (a :: pre), post. auto.
  - destruct Hin as [-> | Hin]; [ | contradiction]. exists [], l. auto.
Qed.

Lemma mkdir_fresh (t t' : Node) (q : string) :
  mkdir t q = Ok t' -> lookup t' (resolve q) = Some (Dir []).
Proof.
  intros H. apply at_entry_ok in H. destruct H as [d0 [name [Hq Hm]]].
  destruct (modify_at d0 t t' _ Hm) as [cs [cs' [_ [H2 H3]]]].
  rewrite Hq, lookup_child, H3.
  destruct (assoc name cs) eqn:E; [discriminate | ]. injection H2 as <-.
  rewrite assoc_app, E. cbn. rewrite String.eqb_refl. reflexivity.
Qed.

(** *** What a resolved upload of a directory leaves *)

(** The upload of the child [g] of [l] leaves the subtree of every other
    name under [p]. *)
Lemma upload_frame (that : SftpDeploy) (n : nat) (l p g f : string) (v : option Node) :
  proper g -> g <> f ->
  sat (fun w => wf (remote_fs w) /\ lookup (remote_fs w) (resolve p ++ [f]) = v) any
    (upload env that n (l ++ path_sep env ++ g) (p ++ "/" ++ g)).
Proof.
  intros Hg Hne.
  apply (tree_upload env that served
           (fun t => wf t /\ lookup t (resolve p ++ [f]) = v)
           (fun q => exists x y, x <> f /\ resolve q = (resolve p ++ x :: y)%list)).
  - intros t q t' [x [y [Hx Hq]]] Hm [Hw Hl]. split; [eapply mutation_wf; eassumption | ].
    rewrite <- Hl. eapply mutation_sibling; [exact Hm | exact Hq | congruence].
  - intros q Hb. destruct (resolve_below _ _ Hb) as [y Hy].
    rewrite (resolve_child _ _ Hg), <- app_assoc in Hy. exists g, y. auto.
Qed.

Lemma uploads_frame (that : SftpDeploy) (n : nat) (l p f : string) (v : option Node)
    (names : list string) :
  (forall g, In g names -> proper g /\ g <> f) ->
  sat (fun w => wf (remote_fs w) /\ lookup (remote_fs w) (resolve p ++ [f]) = v) any
    (all (map (fun g => upload env that n (l ++ path_sep env ++ g) (p ++ "/" ++ g)) names)).
Proof.
  intros H. apply sat_all, Forall_forall. intros op Hop.
  apply in_map_iff in Hop. destruct Hop as [g [<- Hin]].
  destruct (H g Hin) as [Hg Hne]. apply upload_frame; assumption.
Qed.

Lemma upload_wf (that : SftpDeploy) (n : nat) (l p : string) :
  sat (fun w => wf (remote_fs w)) any (upload env that n l p).
Proof.
  apply (tree_upload env that served wf (fun _ => True) wf_stable n l p).
  intros q _. exact Logic.I.
Qed.

Lemma uploads_wf (that : SftpDeploy) (n : nat) (l p : string) (names : list string) :
  sat (fun w => wf (remote_fs w)) any
    (all (map (fun g => upload env that n (l ++ path_sep env ++ g) (p ++ "/" ++ g)) names)).
Proof.
  apply sat_all, Forall_forall. intros op Hop.
  apply in_map_iff in Hop. destruct Hop as [g [<- _]]. apply upload_wf.
Qed.

(** The uploads of the children of [l] leave a directory at [p]. *)
Lemma uploads_keep_parent (that : SftpDeploy) (n : nat) (l p : string) (names : list string) :
  Forall proper names ->
  sat (fun w => exists cs, lookup (remote_fs w) (resolve p) = Some (Dir cs)) any
    (all (map (fun g => upload env that n (l ++ path_sep env ++ g) (p ++ "/" ++ g)) names)).
Proof.
  intros H. apply sat_all, Forall_forall. intros op Hop.
  apply in_map_iff in Hop. destruct Hop as [g [<- Hin]].
  pose proof (proj1 (Forall_forall _ _) H g Hin) as Hg.
  apply (tree_upload env that served
           (fun t => exists cs, lookup t (resolve p) = Some (Dir cs))
           (fun q => exists x y, resolve q = (resolve p ++ x :: y)%list)).
  - intros t q t' [x [y Hq]] Hm _.
    destruct (mutation_above _ _ _ _ _ _ Hm Hq) as [cs [cs' [_ H']]]. eauto.
  - intros q Hb. destruct (resolve_below _ _ Hb) as [y Hy].
    rewrite (resolve_child _ _ Hg), <- app_assoc in Hy. eauto.
Qed.

(** [sync] leaves a directory where it found one. *)
Lemma sync_keeps_directory_there (that : SftpDeploy) (n : nat) (l p : string) :
  sat (fun w => wf (remote_fs w) /\ exists cs, lookup (remote_fs w) (resolve p) = Some (Dir cs))
    any (sync env that n l p).
Proof.
  apply (tree_sync env that served local_proper
           (fun t => exists cs, lookup t (resolve p) = Some (Dir cs))
           (fun q => exists x y, resolve q = (resolve p ++ x :: y)%list)).
  - intros t q t' [x [y Hq]] Hm _.
    destruct (mutation_above _ _ _ _ _ _ Hm Hq) as [cs [cs' [_ H']]]. eauto.
  - intros q f y _ Hq. eauto.
Qed.

(** A resolved upload of a local directory created the remote directory, and
    left in it what the local one holds, the excluded entries apart: nothing
    in it asks for a removal, at any depth. *)
Lemma upload_settles (n : nat) :
  forall l p w u w' tr,
    wf (remote_fs w) -> isDirectory env l = true ->
    upload env this n l p w = (Resolved u, w', tr) ->
    (exists cs, lookup (remote_fs w') (resolve p) = Some (Dir cs)) /\
    forall k, Settled env this k l p (remote_fs w').
Proof.
  induction n as [ | n IH]; intros l p w u w' tr Hwf Hdir Hrun; [discriminate | ].
  cbn [upload] in Hrun. rewrite Hdir in Hrun.
  apply bind_resolved in Hrun. destruct Hrun as [u0 [w0 [t0 [t0' [H0 [Hrun _]]]]]].
  apply emit_run in H0. subst w0.
  apply bind_resolved in Hrun. destruct Hrun as [h [w1 [t1 [t1' [Hg [Hrun _]]]]]].
  apply unhandled_resolved in Hg. destruct (getSftp_resolved env _ _ _ _ Hg) as [_ Hfs1].
  apply bind_resolved in Hrun. destruct Hrun as [u2 [w2 [t2 [t2' [Hmk [Hrun _]]]]]].
  apply unhandled_resolved in Hrun.
  unfold sftp_mkdir in Hmk. apply bind_resolved in Hmk.
  destruct Hmk as [r [w3 [t3 [t3' [Hreq [Hret _]]]]]].
  apply ret_run in Hret. subst w3.
  unfold request in Hreq. rewrite (proj1 (proj2 (proj2 served))) in Hreq.
  destruct (mkdir (remote_fs w1) p) as [tn | e] eqn:Emk; [ | discriminate].
  assert (Hw2 : remote_fs w2 = tn) by (injection Hreq as _ <- _; reflexivity). clear Hreq.
  assert (Hwf2 : wf (remote_fs w2)).
  { rewrite Hw2. eapply mutation_wf; [apply mutation_mkdir; exact Emk | ].
    rewrite Hfs1. exact Hwf. }
  assert (Hp2 : lookup (remote_fs w2) (resolve p) = Some (Dir [])).
  { rewrite Hw2. exact (mkdir_fresh _ _ _ Emk). }
  set (names := filter (fun filename =>
                          negb (isIgnored env this (l ++ path_sep env ++ filename)
                                  (isDirectory env (l ++ path_sep env ++ filename))))
                  (readdirSync env l)) in *.
  assert (Hnames : forall g, In g names ->
            In g (readdirSync env l) /\ proper g /\
            isIgnored env this (l ++ path_sep env ++ g)
              (isDirectory env (l ++ path_sep env ++ g)) = false).
  { intros g Hin. apply filter_In in Hin. destruct Hin as [Hin Hk].
    split; [exact Hin | split].
    - exact (proj1 (Forall_forall _ _) (local_proper l) g Hin).
    - apply negb_true_iff. exact Hk. }
  split.
  - pose proof (uploads_keep_parent this n l p names) as Hk.
    destruct (Hk (proj2 (Forall_forall _ _) (fun g Hin => proj1 (proj2 (Hnames g Hin))))
                w2 (ex_intro _ [] Hp2)) as [Hd _].
    rewrite Hrun in Hd. exact Hd.
  - intros k. destruct k as [ | k]; [exact Logic.I | ]. cbn [Settled]. intros g Hpres.
    destruct (in_dec string_dec g names) as [Hin | Hnot].
    + destruct (Hnames g Hin) as [Hloc [Hpg Hig]].
      destruct (in_split_last g names Hin) as [pre [post [Hsplit Hlast]]].
      rewrite Hsplit, map_app in Hrun. cbn [map] in Hrun.
      apply all_app_resolved in Hrun. destruct Hrun as [wa [ta [tb [Hpre [Hrest _]]]]].
      match type of Hrest with
      | all (?op :: ?rest) _ = _ => change (all ([op] ++ rest) wa = (Resolved tt, w', tb)) in Hrest
      end.
      apply all_app_resolved in Hrest. destruct Hrest as [wb [tc [td [Hop [Hpost _]]]]].
      apply all_one_resolved in Hop.
      pose proof (uploads_wf this n l p pre w2 Hwf2) as [Hwfa _].
      rewrite Hpre in Hwfa. cbn [world_of fst snd] in Hwfa.
      pose proof (upload_wf this n (l ++ path_sep env ++ g) (p ++ "/" ++ g) wa Hwfa) as [Hwfb _].
      rewrite Hop in Hwfb. cbn [world_of fst snd] in Hwfb.
      assert (Hpost_names : forall x, In x post -> proper x /\ x <> g).
      { intros x Hx. split.
        - apply (Hnames x). rewrite Hsplit. apply in_or_app. right. right. exact Hx.
        - intros ->. contradiction. }
      pose proof (uploads_frame this n l p g (lookup (remote_fs wb) (resolve p ++ [g])) post
                    Hpost_names wb (conj Hwfb eq_refl)) as [[Hwf' Hl'] _].
      rewrite Hpost in Hwf', Hl'. cbn [world_of fst snd] in Hwf', Hl'.
      pose proof (resolve_child p g Hpg) as Hres.
      assert (Hlocal : in_local env l g = true) by (apply existsb_eqb_In; exact Hloc).
      unfold entry. rewrite Hlocal, Hl'. unfold localStatus. rewrite Hig.
      destruct (isDirectory env (l ++ path_sep env ++ g)) eqn:Hdg.
      * destruct (IH _ _ _ _ _ _ Hwfa Hdg Hop) as [[cs Hcs] HS].
        rewrite Hres in Hcs. rewrite Hcs. split; [reflexivity | ].
        intros _. split; [reflexivity | ].
        eapply Settled_dep; [exact local_proper | exact Hwf' | | apply HS].
        rewrite Hres. symmetry. exact Hl'.
      * pose proof (upload_file_put env served this n _ _ _ _ _ _ Hdg Hop) as Hf.
        rewrite Hres in Hf. rewrite Hf. split; [reflexivity | discriminate].
    + assert (Hall_names : forall x, In x names -> proper x /\ x <> g).
      { intros x Hx. split; [apply (Hnames x Hx) | intros ->; contradiction]. }
      assert (Hnone : lookup (remote_fs w2) (resolve p ++ [g]) = None).
      { rewrite lookup_child, Hp2. reflexivity. }
      pose proof (uploads_frame this n l p g None names Hall_names w2 (conj Hwf2 Hnone))
        as [[_ Hl'] _].
      rewrite Hrun in Hl'. cbn [world_of fst snd] in Hl'.
      unfold present in Hpres. rewrite Hl' in Hpres. cbn [listed] in Hpres.
      rewrite orb_false_r in Hpres.
      assert (Hig : isIgnored env this (l ++ path_sep env ++ g)
                      (isDirectory env (l ++ path_sep env ++ g)) = true).
      { destruct (isIgnored env this (l ++ path_sep env ++ g)
                    (isDirectory env (l ++ path_sep env ++ g))) eqn:E; [reflexivity | ].
        exfalso. apply Hnot. apply filter_In. split.
        - apply existsb_eqb_In. exact Hpres.
        - rewrite E. reflexivity. }
      unfold entry. rewrite Hpres, Hl'. unfold localStatus. rewrite Hig.
      split; [reflexivity | discriminate].
Qed.

Lemma entry_outcome (n : nat) (l p f : string) (wa wb : World Node) (ta : list Event) :
  (forall l' p' w b w' tr,
      wf (remote_fs w) -> sync env this n l' p' w = (Resolved b, w', tr) ->
      forall k, Settled env this k l' p' (remote_fs w')) ->
  proper f -> wf (remote_fs wa) ->
  all (pushed env this (sync env this n) n l p (f, entry env this l p (remote_fs wa) f)) wa
  = (Resolved tt, wb, ta) ->
  let o := lookup (remote_fs wb) (resolve p ++ [f]) in
  if in_local env l f then
    match localStatus env this l f with
    | l_file => o = Some File
    | l_dir => (exists cs, o = Some (Dir cs)) /\
               forall k, Settled env this k (l ++ path_sep env ++ f) (p ++ "/" ++ f) (remote_fs wb)
    | _ => True
    end
  else o = None.
Proof.
  intros IH Hf Hwa Hrun. cbn zeta.
  pose proof (resolve_child p f Hf) as Hres. rewrite <- Hres.
  unfold pushed in Hrun. rewrite real in Hrun.
  unfold entry in Hrun. rewrite <- Hres in Hrun.
  set (rf := p ++ "/" ++ f) in *. clearbody rf.
  apply all_one_resolved in Hrun.
  apply bind_resolved in Hrun. destruct Hrun as [u [wr [tr1 [tr2 [Hpre [Hact _]]]]]].
  cbn [local remote] in Hpre, Hact.
  destruct (in_local env l f) eqn:Hloc.
  - unfold localStatus in *.
    set (full := l ++ path_sep env ++ f) in *. clearbody full.
    destruct (isIgnored env this full (isDirectory env full)) eqn:Hig; [exact Logic.I | ].
    destruct (isDirectory env full) eqn:Hdir.
    + (* a directory *)
      destruct (lookup (remote_fs wa) (resolve rf)) as [[ | cs] | ] eqn:El;
        cbn in Hpre, Hact.
      * (* a remote file: removed, then the directory is uploaded *)
        pose proof (removeRemote_wf n rf wa Hwa) as Hw. rewrite Hpre in Hw.
        cbn [world_of fst snd] in Hw.
        exact (upload_settles n full rf wr _ wb _ Hw Hdir Hact).
      * (* a remote directory: the recursive sync *)
        apply ret_run in Hpre. subst wr.
        unfold void in Hact. apply bind_resolved in Hact.
        destruct Hact as [b [wb' [tr3 [tr4 [Hsync [Hret _]]]]]].
        apply ret_run in Hret. subst wb'.
        pose proof (sync_keeps_directory_there this n full rf wa
                      (conj Hwa (ex_intro _ cs El))) as [[_ Hkeep] _].
        rewrite Hsync in Hkeep. split; [exact Hkeep | ].
        exact (IH _ _ _ _ _ _ Hwa Hsync).
      * (* nothing remote: the directory is uploaded *)
        apply ret_run in Hpre. subst wr.
        exact (upload_settles n full rf wa _ wb _ Hwa Hdir Hact).
    + (* a file *)
      assert (Hm : method (Util.getTask
                     {| local := l_file;
                        remote := kind (lookup (remote_fs wa) (resolve rf)) |}) = m_upload).
      { destruct (kind _); reflexivity. }
      rewrite Hm in Hact. cbn [apply_method] in Hact.
      exact (upload_file_put env served this n full _ _ _ _ _ Hdir Hact).
  - cbn in Hpre, Hact. unfold noop in Hact. apply emit_run in Hact. subst wb.
    exact (removeRemote_gone env served _ _ _ _ _ _ Hpre).
Qed.


Lemma localStatus_not_null (l f : string) : localStatus env this l f <> l_null.
Proof.
  unfold localStatus. destruct (isIgnored _ _ _ _); [discriminate | ].
  destruct (isDirectory _ _); discriminate.
Qed.

(** A resolved run leaves a tree in which nothing needs a removal. *)
Lemma first_run_settles (n : nat) :
  forall l p w b w' tr,
    wf (remote_fs w) -> sync env this n l p w = (Resolved b, w', tr) ->
    forall k, Settled env this k l p (remote_fs w').
Proof.
  induction n as [ | n IH]; intros l p w b w' tr Hwf Hrun; [discriminate | ].
  destruct (sync_resolved _ _ _ _ _ _ _ Hrun) as [project [w1 [tb [ta [Hb Hall]]]]].
  destruct (buildProject_spec env this served _ _ _ _ _ _ Hwf Hb) as [Hfs [Hnd Hget]].
  assert (Hwf1 : wf (remote_fs w1)) by (rewrite Hfs; exact Hwf).
  assert (Hkeys : forall g stats, In (g, stats) project -> proper g).
  { intros g stats Hin.
    exact (proj2 (proj2 (project_entry env this served local_proper _ _ _ _ _ _ _ _ Hwf Hb Hin))). }
  intros k. destruct k as [ | k]; [exact Logic.I | ]. cbn [Settled]. intros f Hpres.
  specialize (Hget f). destruct (present env l p (remote_fs w) f) eqn:Hp0.
  - apply Map_get_In in Hget. destruct (in_split _ _ Hget) as [pre [post Hsplit]].
    subst project.
    assert (Hf : proper f) by (eapply Hkeys; apply in_or_app; right; left; reflexivity).
    rewrite map_app in Hnd. cbn [map fst] in Hnd. apply NoDup_remove_2 in Hnd.
    assert (Hpre_keys : forall g s, In (g, s) pre -> proper g /\ g <> f).
    { intros g s Hin. split; [eapply Hkeys; apply in_or_app; left; exact Hin | ].
      intros ->. apply Hnd. apply in_or_app. left.
      apply in_map_iff. exists (f, s). auto. }
    assert (Hpost_keys : forall g s, In (g, s) post -> proper g /\ g <> f).
    { intros g s Hin. split; [eapply Hkeys; apply in_or_app; right; right; exact Hin | ].
      intros ->. apply Hnd. apply in_or_app. right.
      apply in_map_iff. exists (f, s). auto. }
    rewrite flat_map_app in Hall.
    apply all_app_resolved in Hall. destruct Hall as [wa [t1 [t2 [Hpre_run [Hrest _]]]]].
    cbn [flat_map] in Hrest.
    apply all_app_resolved in Hrest. destruct Hrest as [wb [t3 [t4 [Hop [Hpost_run _]]]]].
    pose proof (entries_frame env served local_proper this n l p f
                  (lookup (remote_fs w) (resolve p ++ [f])) pre Hpre_keys w1) as Hfa.
    destruct Hfa as [[Hwfa Hla] _]; [split; [exact Hwf1 | rewrite Hfs; reflexivity] | ].
    rewrite Hpre_run in Hwfa, Hla. cbn [world_of fst snd] in Hwfa, Hla.
    assert (Hent : entry env this l p (remote_fs w) f = entry env this l p (remote_fs wa) f).
    { unfold entry. rewrite Hla. reflexivity. }
    rewrite Hent in Hop.
    pose proof (entry_outcome n l p f wa wb t3 IH Hf Hwfa Hop) as Hout. cbn zeta in Hout.
    pose proof (pushed_wf this n l p f (entry env this l p (remote_fs wa) f) wa Hf Hwfa) as Hwfb. rewrite Hop in Hwfb.
    cbn [world_of fst snd] in Hwfb.
    pose proof (entries_frame env served local_proper this n l p f
                  (lookup (remote_fs wb) (resolve p ++ [f])) post Hpost_keys wb) as Hfb.
    destruct Hfb as [[Hwf' Hl'] _]; [split; [exact Hwfb | reflexivity] | ].
    rewrite Hpost_run in Hwf', Hl'. cbn [world_of fst snd] in Hwf', Hl'.
    unfold present in Hpres. unfold entry. rewrite Hl' in *.
    destruct (in_local env l f) eqn:Hloc.
    + pose proof (localStatus_not_null l f) as Hnn.
      destruct (localStatus env this l f) eqn:Els; cbn [local remote].
      * rewrite Hout. cbn. split; [reflexivity | discriminate].
      * destruct Hout as [[cs Hcs] HS]. rewrite Hcs. split; [reflexivity | ].
        intros _. split; [reflexivity | ].
        eapply Settled_dep; [exact local_proper | exact Hwf' | | apply HS].
        rewrite (resolve_child p f Hf). symmetry. exact Hl'.
      * cbn. split; [reflexivity | discriminate].
      * congruence.
    + rewrite Hout in Hpres. discriminate.
  - assert (Hkeys' : forall g s, In (g, s) project -> proper g /\ g <> f).
    { intros g s Hin. split; [eapply Hkeys; exact Hin | ].
      intros ->. rewrite (In_Map_get _ _ _ Hnd Hin) in Hget. discriminate. }
    pose proof (entries_frame env served local_proper this n l p f
                  (lookup (remote_fs w) (resolve p ++ [f])) project Hkeys' w1) as Hfa.
    destruct Hfa as [[_ Hla] _]; [split; [exact Hwf1 | rewrite Hfs; reflexivity] | ].
    rewrite Hall in Hla. cbn [world_of fst snd] in Hla.
    unfold present in Hpres, Hp0. rewrite Hla in Hpres. congruence.
Qed.


(** *** The second run *)

Lemma trace_bind {R A B} (P : Event -> Prop) (m : M R A) (k : A -> M R B) (w : World R) :
  Forall P (trace_of (m w)) ->
  (forall a w1 t1, m w = (Resolved a, w1, t1) -> Forall P (trace_of (k a w1))) ->
  Forall P (trace_of (bind m k w)).
Proof.
  intros Hm Hk. unfold bind. destruct (m w) as [[o w1] t1]. cbn in Hm.
  destruct o as [a | e | | ]; cbn; auto.
  specialize (Hk a w1 t1 eq_refl). destruct (k a w1) as [[o2 w2] t2]. cbn in *.
  apply Forall_app; auto.
Qed.

Lemma getTask_quiet (stats : Stats) :
  removeRemote_first (Util.getTask stats) = false ->
  (local stats = l_dir -> remote stats = r_dir) ->
  (local stats <> l_null /\
   method (Util.getTask stats) = match local stats with
                                 | l_file => m_upload
                                 | l_dir => m_sync
                                 | _ => m_noop
                                 end) /\
  (method (Util.getTask stats) = m_sync <-> local stats = l_dir).
Proof.
  destruct stats as [[ | | | ] [ | | ]]; cbn; intros H Hd; try discriminate;
    try (specialize (Hd eq_refl); discriminate);
    (split; [split; [discriminate | reflexivity] | split; intros; congruence]).
Qed.

Lemma upload_quiet (that : SftpDeploy) (n : nat) :
  forall l p, sat (fun _ : World Node => True) quiet (upload env that n l p).
Proof.
  induction n as [ | n IH]; intros l p; cbn [upload].
  - apply sat_out_of_fuel.
  - apply sat_bind; [apply sat_emit; exact Logic.I | intros _].
    apply sat_bind.
    { apply sat_unhandled, sat_getSftp; [intros; exact Logic.I | exact Logic.I]. }
    intros _. destruct (isDirectory env l).
    + apply sat_bind.
      { apply sat_bind; [ | intros; apply sat_ret]. apply sat_request; [exact Logic.I | auto]. }
      intros _. apply sat_unhandled, sat_all, Forall_forall. intros op Hop.
      apply in_map_iff in Hop. destruct Hop as [filename [<- _]]. apply IH.
    + apply sat_bind; [ | intros; apply sat_ret]. apply sat_request; [exact Logic.I | auto].
Qed.

Variable d : bool.
Let that : SftpDeploy := with_dryRun d this.

(** The operations of a level whose entries ask for no removal, run one
    after the other: each meets the tree its own entry expects. *)
Lemma operations_quiet (k : nat) (l p : string) :
  (forall l' p' w,
      wf (remote_fs w) -> (forall j, Settled env this j l' p' (remote_fs w)) ->
      Forall quiet (trace_of (sync env that k l' p' w))) ->
  forall es w,
    NoDup (map fst es) -> wf (remote_fs w) ->
    (forall f s, In (f, s) es ->
       proper f /\ removeRemote_first (Util.getTask s) = false /\
       (local s = l_dir ->
        remote s = r_dir /\
        forall j, Settled env this j (l ++ path_sep env ++ f) (p ++ "/" ++ f) (remote_fs w))) ->
    Forall quiet (trace_of (all (flat_map (pushed env that (sync env that k) k l p) es) w)).
Proof.
  intros IH. induction es as [ | [g s] rest IHes]; intros w Hnd Hwf Hes; [constructor | ].
  cbn [flat_map]. rewrite all_app.
  destruct (Hes g s (or_introl eq_refl)) as [Hg [Hrm Hsub]].
  destruct (getTask_quiet s Hrm (fun Hd => proj1 (Hsub Hd))) as [_ Hsync].
  assert (Hrec : Forall quiet
                   (trace_of (void (sync env that k (l ++ path_sep env ++ g) (p ++ "/" ++ g)) w)) \/
                 local s <> l_dir).
  { destruct (LocalStatus_eqb (local s) l_dir) eqn:E.
    - left. rewrite (proj2 (void_run _ w)). apply IH; [exact Hwf | ].
      apply Hsub. destruct (local s); try discriminate; reflexivity.
    - right. intros H. rewrite H in E. discriminate. }
  assert (H1 : Forall quiet (trace_of (all (pushed env that (sync env that k) k l p (g, s)) w))).
  { unfold pushed. cbn [dryRun that with_dryRun]. destruct d.
    - destruct (Method_eqb _ _ || _) eqn:E; [ | constructor].
      cbn [all]. destruct Hrec as [Hrec | Hrec].
      + destruct (void _ w) as [[o1 w1] t1]. cbn in *. rewrite app_nil_r. exact Hrec.
      + exfalso. apply orb_true_iff in E. destruct E as [E | E].
        * apply Hrec, Hsync. destruct (method _); try discriminate; reflexivity.
        * apply Hrec. destruct (local s); try discriminate; reflexivity.
    - rewrite Hrm. cbn [all].
      assert (H : Forall quiet
                    (trace_of (apply_method env that (sync env that k) k
                                 (method (Util.getTask s)) (l ++ path_sep env ++ g)
                                 (p ++ "/" ++ g) w))).
      { destruct (method (Util.getTask s)) eqn:Em; cbn [apply_method].
        - apply upload_quiet. exact Logic.I.
        - destruct Hrec as [Hrec | Hrec]; [exact Hrec | ].
          exfalso. apply Hrec, Hsync. reflexivity.
        - repeat constructor. }
      unfold bind, ret. destruct (apply_method _ _ _ _ _ _ _ w) as [[o1 w1] t1].
      cbn in *. rewrite app_nil_r. exact H. }
  pose proof (pushed_wf that k l p g s w Hg Hwf) as Hwf1.
  destruct (all (pushed env that (sync env that k) k l p (g, s)) w) as [[o1 w1] t1] eqn:E1.
  cbn [world_of trace_of fst snd] in H1, Hwf1.
  inversion Hnd as [ | ? ? Hnotin Hnd']; subst.
  assert (H2 : Forall quiet
                 (trace_of (all (flat_map (pushed env that (sync env that k) k l p) rest) w1))).
  { apply IHes; [exact Hnd' | exact Hwf1 | ].
    intros f s' Hin. destruct (Hes f s' (or_intror Hin)) as [Hf [Hrm' Hsub']].
    split; [exact Hf | split; [exact Hrm' | ]]. intros Hd.
    split; [exact (proj1 (Hsub' Hd)) | ]. intros j.
    assert (Hne : g <> f).
    { intros ->. apply Hnotin. apply in_map_iff. exists (f, s'). auto. }
    pose proof (entry_frame env served local_proper that k l p g f s
                  (lookup (remote_fs w) (resolve p ++ [f])) Hg Hne) as Hfr.
    pose proof (sat_all _ _ _ Hfr w (conj Hwf eq_refl)) as [[_ Hl] _].
    rewrite E1 in Hl. cbn [world_of fst snd] in Hl.
    eapply Settled_dep; [exact local_proper | exact Hwf1 | | apply (proj2 (Hsub' Hd) j)].
    rewrite (resolve_child p f Hf). symmetry. exact Hl. }
  destruct (all (flat_map _ rest) w1) as [[o2 w2] t2]. cbn in *.
  apply Forall_app; auto.
Qed.

Lemma settled_quiet (k : nat) :
  forall l p w,
    wf (remote_fs w) -> (forall j, Settled env this j l p (remote_fs w)) ->
    Forall quiet (trace_of (sync env that k l p w)).
Proof.
  induction k as [ | k IH]; intros l p w Hwf Hs; cbn [sync]; [constructor | ].
  apply trace_bind; [repeat constructor | intros u0 w0 t0 H0].
  apply emit_run in H0. subst w0.
  apply trace_bind.
  { apply (sat_buildProject env that (fun _ => True) quiet); auto; intros; exact Logic.I. }
  intros project w1 tb Hb.
  change (buildProject env this l p w = (Resolved project, w1, tb)) in Hb.
  destruct (buildProject_spec env this served _ _ _ _ _ _ Hwf Hb) as [Hfs [Hnd _]].
  assert (Hent : forall f s, In (f, s) project ->
            proper f /\ removeRemote_first (Util.getTask s) = false /\
            (local s = l_dir ->
             remote s = r_dir /\
             forall j, Settled env this j (l ++ path_sep env ++ f) (p ++ "/" ++ f) (remote_fs w1))).
  { intros f s Hin.
    destruct (project_entry env this served local_proper _ _ _ _ _ _ _ _ Hwf Hb Hin)
      as [Hp [-> Hf]].
    split; [exact Hf | ]. rewrite Hfs. split.
    - exact (proj1 (Hs 1 f Hp)).
    - intros Hd. split; [exact (proj1 (proj2 (Hs 1 f Hp) Hd)) | ].
      intros j. exact (proj2 (proj2 (Hs (S j) f Hp) Hd)). }
  apply trace_bind.
  { cbn. apply Forall_forall. intros e He. apply in_map_iff in He.
    destruct He as [[f s] [<- Hin]]. destruct (Hent f s Hin) as [_ [Hrm Hsub]].
    cbn. split; [exact Hrm | exact (proj1 (getTask_quiet s Hrm (fun Hd => proj1 (Hsub Hd))))]. }
  intros u2 w2 t2 H2. apply emits_run in H2. subst w2.
  apply trace_bind; [ | intros; constructor].
  apply operations_quiet; [exact IH | exact Hnd | rewrite Hfs; exact Hwf | exact Hent].
Qed.


Lemma sync_wf (dep : SftpDeploy) (n : nat) (l p : string) (w : World Node) :
  wf (remote_fs w) -> wf (remote_fs (world_of (sync env dep n l p w))).
Proof.
  intros Hw.
  exact (proj1 (proj1 (tree_sync env dep served local_proper (fun _ => True) (fun _ => True)
                         trivial_stable n l p (fun _ _ _ _ _ => Logic.I) w
                         (conj Hw Logic.I)))).
Qed.

(** C9, as the code has it: once a run outside dry-run mode has resolved
    against the tree server, whatever it removed, replaced and created on
    the way (directories it uploaded included), a second run on the tree it
    left, in either mode and whatever the session, derives for every entry
    of every level a task without removal, and meets no entry that is only
    remote; the task is [noop] only for the ignored entries: a local file is
    classified [upload] again and a local directory [sync] again, on the
    remote directory it now has. *)
Theorem second_run_removes_nothing (n : nat) (l p : string) (w w1 : World Node) (b : bool)
    (tr : list Event) :
  wf (remote_fs w) ->
  sync env this n l p w = (Resolved b, w1, tr) ->
  forall k w2,
    remote_fs w2 = remote_fs w1 ->
    Forall quiet (trace_of (sync env (with_dryRun d this) k l p w2)).
Proof.
  intros Hwf Hrun k w2 Hfs.
  pose proof (sync_wf this n l p w Hwf) as Hwf1. rewrite Hrun in Hwf1.
  cbn [world_of fst snd] in Hwf1.
  apply settled_quiet; rewrite Hfs; [exact Hwf1 | ].
  intros j. exact (first_run_settles n l p w b w1 tr Hwf Hrun j).
Qed.

End Idempotence.

Lemma local_readdir_proper (localTree : RemoteTree.Node) (glob : string -> string -> bool)
    (relative : string -> string -> string) :
  RemoteTree.wf localTree ->
  forall p, Forall RemoteTree.proper (readdirSync (RemoteTree.env localTree glob relative) p).
Proof.
  intros Hwf p. cbn. unfold RemoteTree.local_readdir.
  destruct (RemoteTree.lookup localTree (RemoteTree.resolve p)) as [[ | cs] | ] eqn:E;
    try constructor.
  apply TreeFacts.wfs_names. apply TreeFacts.wf_Dir. eapply TreeFacts.wf_lookup; eassumption.
Qed.

Lemma tree_env_served (localTree : RemoteTree.Node) (glob : string -> string -> bool)
    (relative : string -> string -> string) :
  tree_served (RemoteTree.env localTree glob relative).
Proof. repeat split. Qed.

(** A first run that removes [old.txt], replaces the remote directory
    [a.txt] by the file and creates [sub], followed by a second run. *)
Lemma second_run_removes_nothing_witness :
  let first := sync Demo.demo_env (Demo.deployer false ["logs/"]) 5 "/site" "/www"
                 (Demo.fresh Demo.remoteTree) in
  outcome_of first = Resolved true /\
  Forall quiet
    (trace_of (sync Demo.demo_env (with_dryRun false (Demo.deployer false ["logs/"])) 5
                 "/site" "/www" (Demo.fresh (remote_fs (world_of first))))).
Proof.
  cbv zeta. split; [vm_compute; reflexivity | ].
  refine (second_run_removes_nothing Demo.demo_env (Demo.deployer false ["logs/"])
            (tree_env_served _ _ _) (local_readdir_proper _ _ _ _) eq_refl false
            5 "/site" "/www" (Demo.fresh Demo.remoteTree)
            (world_of (sync Demo.demo_env (Demo.deployer false ["logs/"]) 5 "/site" "/www"
                         (Demo.fresh Demo.remoteTree)))
            true
            (trace_of (sync Demo.demo_env (Demo.deployer false ["logs/"]) 5 "/site" "/www"
                         (Demo.fresh Demo.remoteTree)))
            _ _ 5
            (Demo.fresh
               (remote_fs
                  (world_of (sync Demo.demo_env (Demo.deployer false ["logs/"]) 5 "/site"
                               "/www" (Demo.fresh Demo.remoteTree)))))
            eq_refl).
  - cbn. repeat split.
  - cbn. repeat split.
  - vm_compute. reflexivity.
Defined.

(** The scenario of C9 run on the tree server.  The first run replaces the
    remote directory [a.txt] by the file, creates [sub] with [x.txt] in it,
    removes [old.txt] and resolves.  The second run, on the tree the first
    one left, finds a file on both sides of [a.txt] and of [sub/x.txt] and
    derives [upload] again, finds a directory on both sides of [sub] and
    derives [sync] again, which is how it reaches the second level: its
    classification is not all [noop]. *)
Lemma second_run_counterexample :
  let first := sync Demo.demo_env (Demo.deployer false ["logs/"]) 5 "/site" "/www"
                 (Demo.fresh Demo.remoteTree) in
  let second := sync Demo.demo_env (Demo.deployer false ["logs/"]) 5 "/site" "/www"
                  (Demo.fresh (remote_fs (world_of first))) in
  outcome_of first = Resolved true /\
  RemoteTree.lookup (remote_fs (world_of first)) ["www"; "a.txt"] = Some RemoteTree.File /\
  RemoteTree.lookup (remote_fs (world_of first)) ["www"; "sub"; "x.txt"]
  = Some RemoteTree.File /\
  RemoteTree.lookup (remote_fs (world_of first)) ["www"; "old.txt"] = None /\
  outcome_of second = Resolved true /\
  In (EvTask "/site/a.txt" {| local := l_file; remote := r_file |}
        {| method := m_upload; removeRemote_first := false |}) (trace_of second) /\
  In (EvTask "/site/sub" {| local := l_dir; remote := r_dir |}
        {| method := m_sync; removeRemote_first := false |}) (trace_of second) /\
  In (EvSync "/site/sub" "/www/sub") (trace_of second) /\
  In (EvTask "/site/sub/x.txt" {| local := l_file; remote := r_file |}
        {| method := m_upload; removeRemote_first := false |}) (trace_of second) /\
  ~ Forall all_noop (trace_of second).
Proof.
  cbv zeta.
  assert (Hin : In (EvTask "/site/sub" {| local := l_dir; remote := r_dir |}
                      {| method := m_sync; removeRemote_first := false |})
                  (trace_of (sync Demo.demo_env (Demo.deployer false ["logs/"]) 5 "/site" "/www"
                               (Demo.fresh
                                  (remote_fs
                                     (world_of
                                        (sync Demo.demo_env (Demo.deployer false ["logs/"]) 5
                                           "/site" "/www" (Demo.fresh Demo.remoteTree)))))))).
  { vm_compute. repeat (first [left; reflexivity | right]). }
  split; [vm_compute; reflexivity | ]. split; [vm_compute; reflexivity | ].
  split; [vm_compute; reflexivity | ]. split; [vm_compute; reflexivity | ].
  split; [vm_compute; reflexivity | ].
  split; [vm_compute; repeat (first [left; reflexivity | right]) | ].
  split; [exact Hin | ].
  split; [vm_compute; repeat (first [left; reflexivity | right]) | ].
  split; [vm_compute; repeat (first [left; reflexivity | right]) | ].
  intros H.
  pose proof (proj1 (Forall_forall _ _) H _ Hin) as Hn. cbn in Hn. discriminate Hn.
Qed.

(* ================================================================= *)
(** * Further properties of the engine *)

(** ** A session that is refused *)

Section MoreSession.

Context {R : Type}.
Variable env : Env R.
Variable this : SftpDeploy.

(** X1 ([getSftp], failure): when [this.sftp] is not set and the client refuses
    the session, [getSftp] rejects with the client's error and leaves
    [this.sftp] unset, so the failure is not cached: the next call asks the
    client again, and caches the handle if that request succeeds. *)
Theorem getSftp_failure_is_not_cached (w : World R) (e : SftpError) :
  sftp w = None -> client_sftp env (opened w) = Err e ->
  let w1 := {| sftp := None; opened := S (opened w); remote_fs := remote_fs w |} in
  getSftp env w = (Rejected e, w1, [EvSession]) /\
  forall h, client_sftp env (S (opened w)) = Ok h ->
    getSftp env w1
    = (Resolved h, {| sftp := Some h; opened := S (S (opened w)); remote_fs := remote_fs w |},
       [EvSession]).
Proof.
  intros Hs He. cbn zeta. unfold getSftp. rewrite Hs, He. split; [reflexivity | ].
  intros h Hh. cbn. rewrite Hh. reflexivity.
Qed.

(** X2 (no session, no settlement): [buildProject], [upload] and
    [removeRemote] call [getSftp().then(...)] inside [new Promise] without a
    rejection handler.  When the client refuses the session, none of them
    resolves or rejects, and neither does [sync], which waits for
    [buildProject]: each stays pending after the one request for a session,
    with nothing sent to the server. *)
Theorem without_session_nothing_settles (n : nat) (l p : string) (w : World R) (e : SftpError) :
  sftp w = None -> client_sftp env (opened w) = Err e ->
  let w1 := {| sftp := None; opened := S (opened w); remote_fs := remote_fs w |} in
  buildProject env this l p w = (Pending, w1, [EvSession]) /\
  upload env this (S n) l p w = (Pending, w1, [EvUpload l p; EvSession]) /\
  removeRemote env (S n) p w = (Pending, w1, [EvRemoveRemote p; EvSession]) /\
  sync env this (S n) l p w = (Pending, w1, [EvSync l p; EvSession]).
Proof.
  intros Hs He. cbn zeta.
  assert (Hg : getSftp env w
               = (Rejected e, {| sftp := None; opened := S (opened w); remote_fs := remote_fs w |},
                  [EvSession])).
  { unfold getSftp. rewrite Hs, He. reflexivity. }
  assert (Hb : buildProject env this l p w
               = (Pending, {| sftp := None; opened := S (opened w); remote_fs := remote_fs w |},
                  [EvSession])).
  { unfold buildProject, bind, unhandled. rewrite Hg. reflexivity. }
  split; [exact Hb | ]. split; [ | split].
  - cbn [upload]. unfold bind, unhandled, emit. rewrite Hg. reflexivity.
  - cbn [removeRemote]. unfold bind, unhandled, emit. rewrite Hg. reflexivity.
  - cbn [sync]. unfold bind at 1. cbn [emit]. unfold bind at 1. rewrite Hb. reflexivity.
Qed.

End MoreSession.

Lemma without_session_nothing_settles_witness :
  sync Faults.flaky_env (Demo.deployer false ["logs/"]) 5 "/site" "/www"
    (Demo.fresh Demo.remoteTree)
  = (Pending, {| sftp := None; opened := 1; remote_fs := Demo.remoteTree |},
     [EvSync "/site" "/www"; EvSession]).
Proof.
  exact (proj2 (proj2 (proj2
           (without_session_nothing_settles Faults.flaky_env (Demo.deployer false ["logs/"]) 4
              "/site" "/www" (Demo.fresh Demo.remoteTree) RemoteTree.failure eq_refl eq_refl)))).
Defined.

Lemma getSftp_failure_is_not_cached_witness :
  getSftp Faults.flaky_env {| sftp := None; opened := 1; remote_fs := Demo.remoteTree |}
  = (Resolved 1, {| sftp := Some 1; opened := 2; remote_fs := Demo.remoteTree |}, [EvSession]).
Proof.
  exact (proj2 (getSftp_failure_is_not_cached Faults.flaky_env (Demo.fresh Demo.remoteTree)
                  RemoteTree.failure eq_refl eq_refl) 1 eq_refl).
Defined.

Lemma all_with_rejection {R A} (Inv : World R -> Prop) (ops : list (M R A)) (op : M R A)
    (w : World R) :
  Inv w ->
  Forall (fun o => forall w, Inv w -> Inv (world_of (o w))) ops ->
  In op ops ->
  (forall w, Inv w -> exists e, outcome_of (op w) = Rejected e) ->
  (exists e, outcome_of (all ops w) = Rejected e) \/ outcome_of (all ops w) = OutOfFuel.
Proof.
  intros Hw Hops. revert w Hw. induction Hops as [ | o rest Ho Hrest IH]; intros w Hw Hin Hrej;
    [contradiction | ].
  cbn [all]. specialize (Ho w Hw).
  destruct (o w) as [[o1 w1] t1] eqn:E1. cbn in Ho.
  destruct Hin as [-> | Hin].
  - destruct (Hrej w Hw) as [e He]. rewrite E1 in He. cbn in He. subst o1.
    destruct (all rest w1) as [[o2 w2] t2]. cbn.
    destruct o2; cbn; eauto.
  - specialize (IH w1 Ho Hin Hrej).
    destruct (all rest w1) as [[o2 w2] t2]. cbn in *.
    destruct IH as [[e ->] | ->]; destruct o1; cbn; eauto.
Qed.

(** ** Transfers and removals, step by step *)

Section MoreTransfers.

Context {R : Type}.
Variable env : Env R.
Variable this : SftpDeploy.


Lemma upload_directory_run (n : nat) (l p : string) (w : World R) (h : Handle) :
  isDirectory env l = true -> sftp w = Some h ->
  upload env this (S n) l p w
  = match srv_mkdir env (remote_fs w) p with
    | Err e => (Rejected e, w, [EvUpload l p; EvMkdir p])
    | Ok r1 =>
        let '(o, w2, t2) := unhandled (all (upload_children env this n l p)) (set_remote w r1) in
        (o, w2, EvUpload l p :: EvMkdir p :: t2)
    end.
Proof.
  intros Hd Hs. cbn [upload]. rewrite Hd. fold (upload_children env this n l p).
  unfold bind at 1. cbn [emit]. unfold bind at 1, unhandled at 1.
  rewrite (getSftp_cached env w h Hs). unfold bind at 1, sftp_mkdir, request, bind at 1.
  destruct (srv_mkdir env (remote_fs w) p) as [r1 | e0]; [ | reflexivity].
  cbn [ret]. destruct (unhandled _ _) as [[o2 w2] t2]. reflexivity.
Qed.

(** X3 ([upload] of a directory): with the session at hand, the first request
    of [upload] on a local directory is [mkdir] of its remote path, and every
    later request or call is for a path strictly below that path; if [mkdir]
    fails, [upload] rejects with that error and sends nothing else. *)
Theorem upload_creates_directory_first (n : nat) (l p : string) (w : World R) (h : Handle) :
  isDirectory env l = true -> sftp w = Some h ->
  (exists rest,
      trace_of (upload env this (S n) l p w) = EvUpload l p :: EvMkdir p :: rest /\
      Forall (targets (inside p)) rest) /\
  (forall e, srv_mkdir env (remote_fs w) p = Err e ->
     upload env this (S n) l p w = (Rejected e, w, [EvUpload l p; EvMkdir p])).
Proof.
  intros Hd Hs. rewrite (upload_directory_run n l p w h Hd Hs).
  destruct (srv_mkdir env (remote_fs w) p) as [r1 | e0] eqn:Em.
  - split; [ | intros e He; discriminate].
    assert (H : sat (fun _ => True) (targets (inside p)) (unhandled (all (upload_children env this n l p)))).
    { apply sat_unhandled, sat_all, Forall_forall. intros op Hop.
      apply in_map_iff in Hop. destruct Hop as [f [<- _]].
      intros w0 Hw0.
      destruct (upload_footprint env this n (l ++ path_sep env ++ f) (p ++ "/" ++ f) w0 Hw0)
        as [H1 H2].
      split; [exact H1 | ]. eapply Forall_impl; [ | exact H2].
      intros e [He _]. unfold targets in *. destruct (target e); [ | exact Logic.I].
      eapply below_child; exact He. }
    specialize (H (set_remote w r1) Logic.I).
    destruct (unhandled _ _) as [[o2 w2] t2]. cbn in *. exists t2. split; [reflexivity | apply H].
  - split; [exists []; split; [reflexivity | constructor] | ].
    intros e [= <-]. reflexivity.
Qed.

(** X4 ([upload], a child that fails): [Promise.all(children).then(...)] in
    [upload] has no rejection handler.  If the directory was created and the
    transfer of one of its files, not excluded, is refused by the server,
    the upload of the directory neither resolves nor rejects. *)
Theorem upload_with_failing_child_never_settles (n : nat) (l p f : string) (w : World R)
    (h : Handle) (r1 : R) (e : SftpError) :
  isDirectory env l = true -> sftp w = Some h ->
  srv_mkdir env (remote_fs w) p = Ok r1 ->
  In f (readdirSync env l) ->
  isDirectory env (l ++ path_sep env ++ f) = false ->
  isIgnored env this (l ++ path_sep env ++ f) false = false ->
  (forall r, srv_fastPut env r (l ++ path_sep env ++ f) (p ++ "/" ++ f) = Err e) ->
  unsettled (outcome_of (upload env this (S (S n)) l p w)).
Proof.
  intros Hd Hs Hm Hin Hfile Hinc Hput.
  rewrite (upload_directory_run (S n) l p w h Hd Hs), Hm.
  assert (Hall : (exists e', outcome_of (all (upload_children env this (S n) l p) (set_remote w r1))
                             = Rejected e') \/
                 outcome_of (all (upload_children env this (S n) l p) (set_remote w r1)) = OutOfFuel).
  { apply (all_with_rejection (session_is h (opened w)) _
             (upload env this (S n) (l ++ path_sep env ++ f) (p ++ "/" ++ f))).
    - split; [exact Hs | reflexivity].
    - apply Forall_forall. intros op Hop. apply in_map_iff in Hop.
      destruct Hop as [g [<- _]]. intros w0 Hw0.
      exact (proj1 (proj2 (session_kept env h (opened w) w0 Hw0 this (S n)
                             (l ++ path_sep env ++ g) (p ++ "/" ++ g)))).
    - apply in_map_iff. exists f. split; [reflexivity | ].
      apply filter_In. split; [exact Hin | ]. cbn zeta. rewrite Hfile, Hinc. reflexivity.
    - intros w0 [Hs0 _]. exists e. cbn [upload]. rewrite Hfile.
      unfold bind, unhandled, emit, sftp_fastPut, request, bind.
      rewrite (getSftp_cached env w0 h Hs0). rewrite Hput. reflexivity. }
  unfold unhandled. destruct (all _ _) as [[o2 w2] t2]. cbn in Hall.
  destruct Hall as [[e' ->] | ->]; exact Logic.I.
Qed.

Lemma removeRemote_directory_run (n : nat) (p : string) (w : World R) (h : Handle)
    (names : list string) :
  sftp w = Some h ->
  srv_stat env (remote_fs w) p = Ok true ->
  srv_readdir env (remote_fs w) p = Ok names ->
  removeRemote env (S n) p w
  = let '(o, w2, t2) :=
      (unhandled (all (map (fun filename => removeRemote env n (p ++ "/" ++ filename)) names)) ;;
       sftp_rmdir env p) w in
    (o, w2, EvRemoveRemote p :: EvStat p :: EvReaddir p :: t2).
Proof.
  intros Hs Hst Hrd. cbn [removeRemote].
  unfold bind at 1. cbn [emit]. unfold bind at 1, unhandled at 1.
  rewrite (getSftp_cached env w h Hs). unfold bind at 1, sftp_stat at 1, request at 1.
  rewrite Hst. unfold bind at 1, sftp_readdir, request at 1. rewrite Hrd.
  destruct (bind _ _ w) as [[o2 w2] t2]. reflexivity.
Qed.

(** X5 ([removeRemote], a child that fails): if the removal of one entry of a
    remote directory is refused ([unlink] fails on a file in it), the removal
    of the directory neither resolves nor rejects, and [rmdir] is never
    requested for the directory. *)
Theorem removeRemote_with_failing_child_never_settles (n : nat) (p f : string) (w : World R)
    (h : Handle) (names : list string) (e : SftpError) :
  sftp w = Some h ->
  srv_stat env (remote_fs w) p = Ok true ->
  srv_readdir env (remote_fs w) p = Ok names ->
  In f names ->
  (forall r, srv_stat env r (p ++ "/" ++ f) = Ok false) ->
  (forall r, srv_unlink env r (p ++ "/" ++ f) = Err e) ->
  unsettled (outcome_of (removeRemote env (S (S n)) p w)) /\
  Forall (fun ev => ev <> EvRmdir p) (trace_of (removeRemote env (S (S n)) p w)).
Proof.
  intros Hs Hst Hrd Hin Hfile Hunl.
  rewrite (removeRemote_directory_run (S n) p w h names Hs Hst Hrd).
  set (children := map (fun filename => removeRemote env (S n) (p ++ "/" ++ filename)) names).
  assert (Hall : (exists e', outcome_of (all children w) = Rejected e') \/
                 outcome_of (all children w) = OutOfFuel).
  { apply (all_with_rejection (session_is h (opened w)) children
             (removeRemote env (S n) (p ++ "/" ++ f))).
    - split; [exact Hs | reflexivity].
    - apply Forall_forall. intros op Hop. apply in_map_iff in Hop.
      destruct Hop as [g [<- _]]. intros w0 Hw0.
      exact (proj1 (proj2 (proj2 (session_kept env h (opened w) w0 Hw0 this (S n)
                                    (p ++ "/" ++ g) (p ++ "/" ++ g))))).
    - apply in_map_iff. exists f. auto.
    - intros w0 [Hs0 _]. exists e. cbn [removeRemote].
      unfold bind, unhandled, emit, sftp_stat, sftp_unlink, request, bind.
      rewrite (getSftp_cached env w0 h Hs0). rewrite Hfile. rewrite Hunl. reflexivity. }
  assert (Htr : Forall (fun ev => ev <> EvRmdir p) (trace_of (all children w))).
  { assert (H : sat (fun _ => True) (fun ev => ev <> EvRmdir p) (all children)).
    { apply sat_all, Forall_forall. intros op Hop. apply in_map_iff in Hop.
      destruct Hop as [g [<- _]]. intros w0 Hw0.
      destruct (removeRemote_footprint env (S n) (p ++ "/" ++ g) w0 Hw0) as [H1 H2].
      split; [exact H1 | ]. eapply Forall_impl; [ | exact H2].
      intros ev [_ He] ->. cbn in He. apply below_child in He.
      exact (inside_neq _ _ He eq_refl). }
    apply H. exact Logic.I. }
  unfold bind, unhandled. destruct (all children w) as [[o2 w2] t2]. cbn in Hall, Htr.
  destruct Hall as [[e' ->] | ->]; cbn.
  - split; [exact Logic.I | ]. repeat (constructor; [discriminate | ]). exact Htr.
  - split; [exact Logic.I | ]. repeat (constructor; [discriminate | ]). exact Htr.
Qed.

(** X7 (footprints): every request and every method call of [sync] concerns
    a path strictly below its remote path; those of [upload] and of
    [removeRemote] concern their remote path or a path below it.  A path
    strictly below another differs from it and is longer. *)
Theorem runs_stay_below_their_path (fuel : nat) (l p : string) (w : World R) :
  Forall (targets (inside p)) (trace_of (sync env this fuel l p w)) /\
  Forall (targets (below p)) (trace_of (upload env this fuel l p w)) /\
  Forall (targets (below p)) (trace_of (removeRemote env fuel p w)) /\
  (forall q, inside p q -> q <> p /\ String.length p < String.length q).
Proof.
  split; [apply sync_footprint; exact Logic.I | ]. split; [ | split].
  - pose proof (upload_footprint env this fuel l p w Logic.I) as [_ H].
    eapply Forall_impl; [ | exact H]. intros ev [He _]. exact He.
  - pose proof (removeRemote_footprint env fuel p w Logic.I) as [_ H].
    eapply Forall_impl; [ | exact H]. intros ev [_ He]. exact He.
  - intros q Hq. split; [apply inside_neq; exact Hq | ].
    destruct Hq as [s ->]. rewrite length_append. cbn. lia.
Qed.

(** X10 ([sync], a listing that fails): with the session at hand, if the
    listing of the remote directory fails with an error whose code is not 2,
    [sync] rejects with that very error, right after the listing: nothing is
    stat-ed, decided or changed. *)
Theorem sync_fails_with_the_listing (n : nat) (l p : string) (w : World R) (h : Handle)
    (err : SftpError) :
  sftp w = Some h ->
  srv_readdir env (remote_fs w) p = Err err -> code err <> 2 ->
  sync env this (S n) l p w = (Rejected err, w, [EvSync l p; EvReaddir p]).
Proof.
  intros Hs Hr Hc. cbn [sync]. unfold bind at 1. cbn [emit].
  unfold bind at 1, buildProject, bind at 1, unhandled.
  rewrite (getSftp_cached env w h Hs). rewrite Hr.
  apply Nat.eqb_neq in Hc. rewrite Hc. reflexivity.
Qed.

(** X11 ([isIgnored]): a path is ignored exactly when some pattern of
    [options.exclude] matches its path relative to [localDir], with ['/']
    appended for a directory.  So no path is ignored without patterns, and
    with two lists of patterns a path is ignored iff one of the lists
    ignores it. *)
Theorem isIgnored_is_the_union_of_the_patterns (a b : list string) (l : string) (d : bool) :
  isIgnored env (with_exclude [] this) l d = false /\
  isIgnored env (with_exclude (a ++ b) this) l d
  = isIgnored env (with_exclude a this) l d || isIgnored env (with_exclude b this) l d /\
  (isIgnored env this l d = true <->
   exists pattern,
     In pattern (exclude this) /\
     minimatch env (normalizedRelativePath env l (localDir this) ++ (if d then "/" else ""))
       pattern = true).
Proof.
  split; [reflexivity | ]. split.
  - unfold isIgnored. cbn [exclude localDir with_exclude]. apply existsb_app.
  - unfold isIgnored. rewrite existsb_exists.
    assert (E : (if d then normalizedRelativePath env l (localDir this) ++ "/"
                 else normalizedRelativePath env l (localDir this))
                = normalizedRelativePath env l (localDir this) ++ (if d then "/" else "")).
    { destruct d; [reflexivity | ].
      generalize (normalizedRelativePath env l (localDir this)).
      induction s as [ | c s IH]; cbn; [reflexivity | rewrite <- IH; reflexivity]. }
    rewrite E. reflexivity.
Qed.

End MoreTransfers.

(** ** The project of a resolved scan *)

Section MoreScanning.

Context {R : Type}.
Variable env : Env R.
Variable this : SftpDeploy.

Lemma setRemote_keys (project : Project) (g : string) (isDir : bool) :
  map fst (setRemote project g isDir)
  = if existsb (String.eqb g) (map fst project) then map fst project
    else (map fst project ++ [g])%list.
Proof. unfold setRemote. destruct (Map_get project g); apply Map_set_keys. Qed.

Lemma setStats_entries (p : string) (names : list string) :
  forall project w project' w1 tb,
    setStats env p names project w = (Resolved project', w1, tb) ->
    (forall g, In g names -> exists b, srv_stat env (remote_fs w) (p ++ "/" ++ g) = Ok b) /\
    (forall f,
       Map_get project' f
       = if existsb (String.eqb f) names
         then Some {| local := match Map_get project f with Some s => local s | None => l_null end;
                      remote := remote_type (srv_stat env (remote_fs w) (p ++ "/" ++ f)) |}
         else Map_get project f) /\
    (NoDup names ->
     map fst project'
     = (map fst project
        ++ filter (fun g => negb (existsb (String.eqb g) (map fst project))) names)%list).
Proof.
  induction names as [ | g rest IH]; intros project w project' w1 tb.
  - cbn. intros [= <- _ _]. split; [contradiction | ]. split; [reflexivity | ].
    intros _. symmetry. apply app_nil_r.
  - cbn [setStats].
    destruct (srv_stat env (remote_fs w) (p ++ "/" ++ g)) as [isDir | err] eqn:Es.
    + destruct (setStats env p rest (setRemote project g isDir) w) as [[o w2] t2] eqn:Er.
      intros [= -> <- _]. destruct (IH _ _ _ _ _ Er) as [Hok [Hget Hkeys]].
      split; [ | split].
      * intros g' [<- | Hin]; [eauto | apply Hok; exact Hin].
      * intros f. rewrite Hget. cbn [existsb]. rewrite !setRemote_get.
        rewrite (String.eqb_sym f g). destruct (String.eqb g f) eqn:Egf; cbn [orb].
        -- apply String.eqb_eq in Egf. subst f. rewrite Es.
           destruct (existsb _ rest); destruct isDir; reflexivity.
        -- reflexivity.
      * intros Hnd. inversion Hnd as [ | ? ? Hnotin Hnd']; subst.
        rewrite (Hkeys Hnd'), setRemote_keys. cbn [filter].
        destruct (existsb (String.eqb g) (map fst project)) eqn:Ex; cbn [negb].
        -- reflexivity.
        -- rewrite <- app_assoc. cbn [app]. f_equal. f_equal.
           apply filter_ext_in. intros a Ha. rewrite existsb_app. cbn.
           destruct (String.eqb a g) eqn:Eag; [ | rewrite !orb_false_r; reflexivity].
           apply String.eqb_eq in Eag. subst a. contradiction.
    + destruct (setStats env p rest project w) as [[o w2] t2]. discriminate.
Qed.

Lemma localProject_keys (l : string) :
  NoDup (readdirSync env l) -> map fst (localProject env this l) = readdirSync env l.
Proof.
  unfold localProject. intros Hnd.
  assert (G : forall names project,
             NoDup (map fst project ++ names) ->
             map fst (fold_left
                        (fun project filename =>
                           Map_set project filename
                             {| local := localStatus env this l filename; remote := r_null |})
                        names project)
             = (map fst project ++ names)%list).
  { induction names as [ | x names IH]; intros project H; cbn [fold_left].
    - symmetry. apply app_nil_r.
    - rewrite IH; rewrite Map_set_keys.
      + destruct (existsb (String.eqb x) (map fst project)) eqn:Ex.
        * apply existsb_eqb_In in Ex. apply NoDup_remove_2 in H.
          exfalso. apply H. apply in_or_app. left. exact Ex.
        * rewrite <- app_assoc. reflexivity.
      + destruct (existsb (String.eqb x) (map fst project)) eqn:Ex.
        * apply existsb_eqb_In in Ex. apply NoDup_remove_2 in H.
          exfalso. apply H. apply in_or_app. left. exact Ex.
        * rewrite <- app_assoc. exact H. }
  exact (G (readdirSync env l) [] Hnd).
Qed.

Lemma buildProject_listing (l p : string) (w w1 : World R) (project : Project)
    (tb : list Event) (names : list string) :
  buildProject env this l p w = (Resolved project, w1, tb) ->
  srv_readdir env (remote_fs w) p = Ok names ->
  exists w0 t0,
    remote_fs w0 = remote_fs w /\
    setStats env p names (localProject env this l) w0 = (Resolved project, w1, t0).
Proof.
  unfold buildProject, bind, unhandled. intros H Hr.
  destruct (getSftp env w) as [[o w0] t0] eqn:Hg.
  destruct o as [h | e | | ]; try discriminate.
  destruct (getSftp_resolved env _ _ _ _ Hg) as [_ Hfs]. rewrite Hfs, Hr in H.
  destruct (setStats env p names (localProject env this l) w0) as [[o2 w2] t2] eqn:Es.
  injection H as -> -> _. exists w0, t2. auto.
Qed.

(** X8 ([buildProject], the entries): when [buildProject] resolves and the
    remote listing was [names], every listed name was stat-ed with success,
    and the project holds, for a listed name, its local status ([null] if the
    name is not in the local directory) with the remote type the stat gave;
    for a name found only locally, its local status with remote [null]; and
    no other name. *)
Theorem buildProject_entries (l p : string) (w w1 : World R) (project : Project)
    (tb : list Event) (names : list string) :
  buildProject env this l p w = (Resolved project, w1, tb) ->
  srv_readdir env (remote_fs w) p = Ok names ->
  (forall g, In g names -> exists b, srv_stat env (remote_fs w) (p ++ "/" ++ g) = Ok b) /\
  forall f,
    Map_get project f
    = if existsb (String.eqb f) names
      then Some {| local := if in_local env l f then localStatus env this l f else l_null;
                   remote := remote_type (srv_stat env (remote_fs w) (p ++ "/" ++ f)) |}
      else if in_local env l f
           then Some {| local := localStatus env this l f; remote := r_null |}
           else None.
Proof.
  intros Hb Hr. destruct (buildProject_listing _ _ _ _ _ _ _ Hb Hr) as [w0 [t0 [Hfs Hs]]].
  destruct (setStats_entries _ _ _ _ _ _ _ Hs) as [Hok [Hget _]]. rewrite Hfs in *.
  split; [exact Hok | ]. intros f. rewrite Hget, localProject_get.
  destruct (in_local env l f); reflexivity.
Qed.

(** X9 ([buildProject], the order): the keys of the resolved project are the
    local names in the order of [fs.readdirSync], followed by the names found
    only on the server in the order of the remote listing (both listings
    without duplicates). *)
Theorem buildProject_order (l p : string) (w w1 : World R) (project : Project)
    (tb : list Event) (names : list string) :
  buildProject env this l p w = (Resolved project, w1, tb) ->
  srv_readdir env (remote_fs w) p = Ok names ->
  NoDup (readdirSync env l) -> NoDup names ->
  map fst project
  = (readdirSync env l ++ filter (fun g => negb (in_local env l g)) names)%list.
Proof.
  intros Hb Hr Hl Hn. destruct (buildProject_listing _ _ _ _ _ _ _ Hb Hr) as [w0 [t0 [Hfs Hs]]].
  destruct (setStats_entries _ _ _ _ _ _ _ Hs) as [_ [_ Hkeys]].
  rewrite (Hkeys Hn), (localProject_keys l Hl). reflexivity.
Qed.

End MoreScanning.

(** ** Removing a remote tree *)

Section Removal.
Import RemoteTree TreeFacts.

Variable env : Env Node.
Hypothesis served : tree_served env.

Let any : Event -> Prop := fun _ => True.

Lemma tidy_child (cs : list (string * Node)) (g : string) (c : Node) :
  tidy (Dir cs) -> assoc g cs = Some c ->
  proper g /\ tidy c /\ height c < height (Dir cs).
Proof.
  cbn. intros [_ H]. induction cs as [ | [k v] rest IH]; cbn; [discriminate | ].
  destruct H as [Hk [Hv Hrest]].
  destruct (String.eqb k g) eqn:E.
  - apply String.eqb_eq in E. subst k. intros [= <-].
    split; [exact Hk | split; [exact Hv | lia]].
  - intros Ha. destruct (IH Hrest Ha) as [H1 [H2 H3]].
    split; [exact H1 | split; [exact H2 | lia]].
Qed.

Lemma tidy_names (cs : list (string * Node)) : tidy (Dir cs) -> NoDup (map fst cs).
Proof. cbn. tauto. Qed.

Lemma modify_ok (d : list string) :
  forall t cs cs' g0,
    lookup t d = Some (Dir cs) -> g0 cs = Some cs' -> exists t', modify t d g0 = Some t'.
Proof.
  induction d as [ | x d IH]; intros t cs cs' g0; destruct t as [ | cs0]; cbn; try discriminate.
  - intros [= ->] ->. cbn. eauto.
  - destruct (assoc x cs0) as [c | ]; [ | discriminate].
    intros Hl Hg. destruct (IH _ _ _ _ Hl Hg) as [t' ->]. cbn. eauto.
Qed.

Lemma at_entry_success (t : Node) (p : string) (d : list string) (name : string)
    (cs cs' : list (string * Node))
    (f : string -> list (string * Node) -> option (list (string * Node))) :
  resolve p = (d ++ [name])%list -> lookup t d = Some (Dir cs) -> f name cs = Some cs' ->
  exists t', at_entry t p f = Ok t'.
Proof.
  intros Hp Hl Hf. unfold at_entry. rewrite Hp, rev_app_distr. cbn. rewrite rev_involutive.
  destruct (modify_ok d t cs cs' (f name) Hl Hf) as [t' ->]. eauto.
Qed.

Lemma lookup_parent (t : Node) (d : list string) (name : string) (node : Node) :
  lookup t (d ++ [name])%list = Some node ->
  exists cs, lookup t d = Some (Dir cs) /\ assoc name cs = Some node.
Proof.
  rewrite lookup_child. destruct (lookup t d) as [[ | cs] | ]; try discriminate. eauto.
Qed.

(** Removing the child [g] of [p] leaves the subtree of every other child. *)
Lemma child_removal_frame (n : nat) (p g f : string) (v : option Node) :
  proper g -> g <> f ->
  sat (fun w => lookup (remote_fs w) (resolve p ++ [f])%list = v) any
    (removeRemote env n (p ++ "/" ++ g)).
Proof.
  intros Hg Hne.
  apply (tree_removeRemote env served (fun t => lookup t (resolve p ++ [f])%list = v)
           (fun q => exists g y, g <> f /\ resolve q = (resolve p ++ g :: y)%list)).
  - intros t q t' HQ Hm Hl. destruct HQ as [g' [y [Hne' Hq]]]. rewrite <- Hl.
    eapply mutation_sibling; [exact Hm | exact Hq | congruence].
  - intros q Hb. destruct (resolve_below _ _ Hb) as [y Hy].
    rewrite (resolve_child _ _ Hg), <- app_assoc in Hy. exists g, y. auto.
Qed.

(** ... and leaves [p] a directory. *)
Lemma child_removal_keeps_parent (n : nat) (p g : string) :
  proper g ->
  sat (fun w => exists cs, lookup (remote_fs w) (resolve p) = Some (Dir cs)) any
    (removeRemote env n (p ++ "/" ++ g)).
Proof.
  intros Hg.
  apply (tree_removeRemote env served (fun t => exists cs, lookup t (resolve p) = Some (Dir cs))
           (fun q => exists x y, resolve q = (resolve p ++ x :: y)%list)).
  - intros t q t' [x [y Hq]] Hm _.
    destruct (mutation_above _ _ _ _ _ _ Hm Hq) as [cs [cs' [_ H]]]. eauto.
  - intros q Hb. destruct (resolve_below _ _ Hb) as [y Hy].
    rewrite (resolve_child _ _ Hg), <- app_assoc in Hy. eauto.
Qed.

Let removal_works (n : nat) : Prop :=
  forall p d name node w h,
    resolve p = (d ++ [name])%list -> sftp w = Some h ->
    lookup (remote_fs w) (resolve p) = Some node -> tidy node -> height node <= n ->
    exists w' tr, removeRemote env (S n) p w = (Resolved tt, w', tr) /\ sftp w' = Some h.

(** The children of a directory, removed one after the other. *)
Lemma children_removed (n : nat) (p : string) (h : Handle) :
  removal_works n ->
  forall names w,
    NoDup names -> sftp w = Some h ->
    (forall g, In g names ->
       proper g /\
       exists c, lookup (remote_fs w) (resolve p ++ [g])%list = Some c /\ tidy c /\ height c <= n) ->
    exists w' tr,
      all (map (fun filename => removeRemote env (S n) (p ++ "/" ++ filename)) names) w
      = (Resolved tt, w', tr) /\
      sftp w' = Some h /\
      forall g, In g names -> lookup (remote_fs w') (resolve p ++ [g])%list = None.
Proof.
  intros IH. induction names as [ | g rest IHn]; intros w Hnd Hs Hall.
  - exists w, []. split; [reflexivity | split; [exact Hs | contradiction]].
  - inversion Hnd as [ | ? ? Hnotin Hnd']; subst.
    destruct (Hall g (or_introl eq_refl)) as [Hg [c [Hl [Ht Hh]]]].
    pose proof (resolve_child p g Hg) as Hres.
    rewrite <- Hres in Hl.
    destruct (IH (p ++ "/" ++ g) (resolve p) g c w h Hres Hs Hl Ht Hh) as [w1 [t1 [Hrun Hs1]]].
    assert (Hgone : lookup (remote_fs w1) (resolve p ++ [g])%list = None).
    { rewrite <- Hres. eapply (removeRemote_gone env served). exact Hrun. }
    assert (Hrest : forall f, In f rest ->
              proper f /\
              exists c, lookup (remote_fs w1) (resolve p ++ [f])%list = Some c /\ tidy c /\
                        height c <= n).
    { intros f Hin. destruct (Hall f (or_intror Hin)) as [Hf [c' [Hl' Hc']]].
      split; [exact Hf | ]. exists c'. split; [ | exact Hc'].
      assert (Hne : g <> f) by (intros ->; contradiction).
      pose proof (child_removal_frame (S n) p g f (Some c') Hg Hne w Hl') as [Hk _].
      rewrite Hrun in Hk. exact Hk. }
    destruct (IHn w1 Hnd' Hs1 Hrest) as [w2 [t2 [Hrun2 [Hs2 Hgone2]]]].
    exists w2, (t1 ++ t2)%list. cbn [map all]. rewrite Hrun, Hrun2. cbn.
    split; [reflexivity | split; [exact Hs2 | ]].
    intros f [<- | Hin]; [ | apply Hgone2; exact Hin].
    assert (H : sat (fun w => lookup (remote_fs w) (resolve p ++ [g])%list = None) any
                  (all (map (fun filename => removeRemote env (S n) (p ++ "/" ++ filename)) rest))).
    { apply sat_all, Forall_forall. intros op Hop. apply in_map_iff in Hop.
      destruct Hop as [f [<- Hin]]. apply child_removal_frame.
      - exact (proj1 (Hrest f Hin)).
      - intros ->. contradiction. }
    pose proof (H w1 Hgone) as [Hk _]. rewrite Hrun2 in Hk. exact Hk.
Qed.

Lemma removal_works_all (n : nat) : removal_works n.
Proof.
  induction n as [n IH] using lt_wf_ind.
  intros p d name node w h Hp Hs Hl Ht Hh.
  destruct served as [Hreaddir [Hstat [_ [_ [Hrmdir Hunlink]]]]].
  rewrite Hp in Hl. destruct (lookup_parent _ _ _ _ Hl) as [pcs [Hd Hname]].
  rewrite <- Hp in Hl.
  cbn [removeRemote]. unfold bind at 1. cbn [emit]. unfold bind at 1, unhandled at 1.
  rewrite (getSftp_cached env w h Hs). unfold bind at 1, sftp_stat at 1, request at 1.
  rewrite Hstat. unfold stat. rewrite Hl.
  destruct node as [ | cs].
  - (* a file *)
    destruct (at_entry_success (remote_fs w) p d name pcs (remove name pcs)
                (fun name cs => match assoc name cs with
                                | Some File => Some (remove name cs)
                                | _ => None
                                end) Hp Hd) as [t' Hu].
    { rewrite Hname. reflexivity. }
    unfold sftp_unlink, bind, request. rewrite Hunlink. unfold unlink. rewrite Hu.
    cbn. eauto.
  - (* a directory *)
    unfold bind at 1, sftp_readdir, request at 1. rewrite Hreaddir. unfold readdir. rewrite Hl.
    cbn in Hh. destruct n as [ | n']; [lia | ].
    assert (Hchildren : forall g, In g (map fst cs) ->
              proper g /\
              exists c, lookup (remote_fs w) (resolve p ++ [g])%list = Some c /\ tidy c /\
                        height c <= n').
    { intros g Hin. apply assoc_in in Hin. destruct (assoc g cs) as [c | ] eqn:Ea; [ | congruence].
      destruct (tidy_child cs g c Ht Ea) as [Hg [Htc Hhc]].
      split; [exact Hg | ]. exists c. rewrite lookup_child, Hl.
      split; [exact Ea | split; [exact Htc | cbn in Hhc; lia]]. }
    destruct (children_removed n' p h (IH n' (Nat.lt_succ_diag_r n')) (map fst cs) w
                (tidy_names cs Ht) Hs Hchildren) as [w1 [t1 [Hrun [Hs1 Hgone]]]].
    set (children := map (fun filename => removeRemote env (S n') (p ++ "/" ++ filename))
                       (map fst cs)) in *.
    (* what the children left of [p] and of its parent *)
    assert (Hdir : exists cs1, lookup (remote_fs w1) (resolve p) = Some (Dir cs1)).
    { assert (H : sat (fun w => exists cs, lookup (remote_fs w) (resolve p) = Some (Dir cs)) any
                    (all children)).
      { apply sat_all, Forall_forall. intros op Hop. apply in_map_iff in Hop.
        destruct Hop as [g [<- Hin]]. apply child_removal_keeps_parent.
        exact (proj1 (Hchildren g Hin)). }
      pose proof (H w (ex_intro _ cs Hl)) as [Hk _]. rewrite Hrun in Hk. exact Hk. }
    destruct Hdir as [cs1 Hl1].
    assert (Hempty : cs1 = []).
    { destruct cs1 as [ | [k v] rest]; [reflexivity | exfalso].
      assert (Hk : lookup (remote_fs w1) (resolve p ++ [k])%list = Some v).
      { rewrite lookup_child, Hl1. cbn. rewrite String.eqb_refl. reflexivity. }
      destruct (existsb (String.eqb k) (map fst cs)) eqn:Ex.
      - apply existsb_eqb_In in Ex. rewrite (Hgone k Ex) in Hk. discriminate.
      - assert (Hnone : lookup (remote_fs w) (resolve p ++ [k])%list = None).
        { rewrite lookup_child, Hl. destruct (assoc k cs) eqn:Ea; [ | reflexivity].
          assert (In k (map fst cs)) by (apply assoc_in; congruence).
          apply existsb_eqb_In in H. congruence. }
        assert (H : sat (fun w => lookup (remote_fs w) (resolve p ++ [k])%list = None) any
                      (all children)).
        { apply sat_all, Forall_forall. intros op Hop. apply in_map_iff in Hop.
          destruct Hop as [g [<- Hin]]. apply child_removal_frame.
          - exact (proj1 (Hchildren g Hin)).
          - intros ->. apply existsb_eqb_In in Hin. congruence. }
        pose proof (H w Hnone) as [Hk' _]. rewrite Hrun in Hk'.
        cbn [world_of fst snd] in Hk'. congruence. }
    subst cs1. rewrite Hp in Hl1. destruct (lookup_parent _ _ _ _ Hl1) as [pcs1 [Hd1 Hname1]].
    destruct (at_entry_success (remote_fs w1) p d name pcs1 (remove name pcs1)
                (fun name cs => match assoc name cs with
                                | Some (Dir []) => Some (remove name cs)
                                | _ => None
                                end) Hp Hd1) as [t' Hu].
    { rewrite Hname1. reflexivity. }
    unfold bind at 1, unhandled. rewrite Hrun.
    unfold sftp_rmdir, bind, request. rewrite Hrmdir. unfold rmdir. rewrite Hu.
    cbn. eauto.
Qed.


(** X6 ([removeRemote], what it achieves): on a tree server, with the session
    at hand, [removeRemote] of a path that holds a file or a directory tree
    resolves (fuel above the height of the tree), keeps the session, leaves
    nothing at the path, and leaves every subtree that branches off the way
    to the path as it was. *)
Theorem removeRemote_removes_the_subtree (n : nat) (p : string) (d : list string)
    (name : string) (node : Node) (w : World Node) (h : Handle) :
  resolve p = (d ++ [name])%list -> sftp w = Some h ->
  lookup (remote_fs w) (resolve p) = Some node -> tidy node -> height node <= n ->
  exists w' tr,
    removeRemote env (S n) p w = (Resolved tt, w', tr) /\
    sftp w' = Some h /\
    lookup (remote_fs w') (resolve p) = None /\
    forall c g y f, resolve p = (c ++ g :: y)%list -> f <> g ->
      lookup (remote_fs w') (c ++ [f])%list = lookup (remote_fs w) (c ++ [f])%list.
Proof.
  intros Hp Hs Hl Ht Hh.
  destruct (removal_works_all n p d name node w h Hp Hs Hl Ht Hh)
    as [w' [tr [Hrun Hs']]].
  exists w', tr. split; [exact Hrun | split; [exact Hs' | split]].
  - eapply (removeRemote_gone env served). exact Hrun.
  - intros c g y f Hc Hne.
    assert (H : sat (fun w0 => lookup (remote_fs w0) (c ++ [f])%list
                               = lookup (remote_fs w) (c ++ [f])%list)
                  (fun _ => True) (removeRemote env (S n) p)).
    { apply (tree_removeRemote env served
               (fun t => lookup t (c ++ [f])%list = lookup (remote_fs w) (c ++ [f])%list)
               (fun q => exists g' y', g' <> f /\ resolve q = (c ++ g' :: y')%list)).
      - intros t q t' [g' [y' [Hne' Hq]]] Hm Hk. rewrite <- Hk.
        eapply mutation_sibling; [exact Hm | exact Hq | congruence].
      - intros q Hb. destruct (resolve_below _ _ Hb) as [y' Hy].
        rewrite Hc, <- app_assoc in Hy. cbn in Hy. exists g, (y ++ y')%list. auto. }
    pose proof (H w eq_refl) as [Hk _]. rewrite Hrun in Hk. exact Hk.
Qed.

Variable this : SftpDeploy.

(** A removal leaves every subtree that branches off the way to its path. *)
Lemma removeRemote_frame (n : nat) (p : string) (w : World Node) (c y : list string)
    (g f : string) :
  resolve p = (c ++ g :: y)%list -> f <> g ->
  lookup (remote_fs (world_of (removeRemote env n p w))) (c ++ [f])%list
  = lookup (remote_fs w) (c ++ [f])%list.
Proof.
  intros Hc Hne.
  assert (H : sat (fun w0 => lookup (remote_fs w0) (c ++ [f])%list
                             = lookup (remote_fs w) (c ++ [f])%list)
                (fun _ => True) (removeRemote env n p)).
  { apply (tree_removeRemote env served
             (fun t => lookup t (c ++ [f])%list = lookup (remote_fs w) (c ++ [f])%list)
             (fun q => exists g' y', g' <> f /\ resolve q = (c ++ g' :: y')%list)).
    - intros t q t' [g' [y' [Hne' Hq]]] Hm Hk. rewrite <- Hk.
      eapply mutation_sibling; [exact Hm | exact Hq | congruence].
    - intros q Hb. destruct (resolve_below _ _ Hb) as [y' Hy].
      rewrite Hc, <- app_assoc in Hy. cbn in Hy. exists g, (y ++ y')%list. auto. }
  exact (proj1 (H w eq_refl)).
Qed.

(** C4: an entry that exists only remotely gets the task [noop] with the
    removal.  Outside a dry run its operation is one call of [removeRemote]
    on the entry, followed, once it resolved, by [noop]: [removeRemote] is
    entered exactly once on the path of the entry and no event of a transfer
    occurs.  When the entry is a file, the run is its stat, its unlink and
    [noop].  When it is a directory, the removal stats it, lists it, runs
    [removeRemote] on every name of the listing, and asks for [rmdir] of the
    directory once all of these have resolved, and only then.  On the tree
    server, with the session at hand and fuel above the height of what the
    entry holds, the run resolves, nothing is left at the path of the entry,
    and every subtree that branches off the way to it is as before. *)
Theorem remote_only_entry_is_removed (n : nat) (localPath remotePath filename : string)
    (stats : Stats) (w : World Node) :
  dryRun this = false ->
  local stats = l_null ->
  let remoteFilePath := remotePath ++ "/" ++ filename in
  let removal := removeRemote env (S n) remoteFilePath w in
  let run := all (pushed env this (sync env this (S n)) (S n) localPath remotePath
                    (filename, stats)) w in
  Util.getTask stats = {| method := m_noop; removeRemote_first := true |} /\
  trace_of run = (trace_of removal ++
                  match outcome_of removal with Resolved _ => [EvNoop] | _ => [] end)%list /\
  length (filter (removes remoteFilePath) (trace_of run)) = 1 /\
  Forall (fun e => uploading e = false) (trace_of run) /\
  (forall h r',
      sftp w = Some h ->
      srv_stat env (remote_fs w) remoteFilePath = Ok false ->
      srv_unlink env (remote_fs w) remoteFilePath = Ok r' ->
      run = (Resolved tt, set_remote w r',
             [EvRemoveRemote remoteFilePath; EvStat remoteFilePath;
              EvUnlink remoteFilePath; EvNoop])) /\
  (forall h names,
      sftp w = Some h ->
      srv_stat env (remote_fs w) remoteFilePath = Ok true ->
      srv_readdir env (remote_fs w) remoteFilePath = Ok names ->
      let children :=
        all (map (fun f => removeRemote env n (remoteFilePath ++ "/" ++ f)) names) w in
      trace_of removal
      = (EvRemoveRemote remoteFilePath :: EvStat remoteFilePath :: EvReaddir remoteFilePath
           :: trace_of children ++
              match outcome_of children with
              | Resolved _ => [EvRmdir remoteFilePath]
              | _ => []
              end)%list) /\
  (forall h node,
      proper filename -> sftp w = Some h ->
      lookup (remote_fs w) (resolve remoteFilePath) = Some node ->
      tidy node -> height node <= n ->
      exists w' tr,
        run = (Resolved tt, w', (tr ++ [EvNoop])%list) /\
        removal = (Resolved tt, w', tr) /\
        sftp w' = Some h /\
        lookup (remote_fs w') (resolve remoteFilePath) = None /\
        forall c g y f, resolve remoteFilePath = (c ++ g :: y)%list -> f <> g ->
          lookup (remote_fs w') (c ++ [f])%list = lookup (remote_fs w) (c ++ [f])%list).
Proof.
  intros Hreal Hl. cbn zeta.
  destruct (remote_only_entry_run env this Hreal n localPath remotePath filename stats w Hl)
    as [Ht [Htr [Hone [Hup Hfile]]]].
  split; [exact Ht | ]. split; [exact Htr | ]. split; [exact Hone | ].
  split; [exact Hup | ]. split; [exact Hfile | ]. split.
  - intros h names Hs Hstat Hread. cbn zeta.
    rewrite (removeRemote_directory_run env n _ w h names Hs Hstat Hread).
    unfold bind, unhandled.
    destruct (all (map (fun f => removeRemote env n
                                   ((remotePath ++ "/" ++ filename) ++ "/" ++ f)) names) w)
      as [[o1 w1] t1].
    destruct o1 as [[] | e | | ]; cbn [trace_of outcome_of fst snd];
      rewrite ?app_nil_r; try reflexivity.
    unfold sftp_rmdir, bind, request.
    destruct (srv_rmdir env (remote_fs w1) (remotePath ++ "/" ++ filename));
      cbn [trace_of snd ret]; rewrite ?app_nil_r; reflexivity.
  - intros h node Hf Hs Hlook Htidy Hh.
    destruct (removal_works_all n (remotePath ++ "/" ++ filename) (resolve remotePath) filename
                node w h (resolve_child _ _ Hf) Hs Hlook Htidy Hh) as [w' [tr [Hrun Hs']]].
    exists w', tr. split; [ | split; [exact Hrun | split; [exact Hs' | split]]].
    + unfold pushed. rewrite Hreal, Ht. cbn [removeRemote_first method apply_method all].
      unfold bind at 1. rewrite Hrun. unfold noop, emit. cbn. rewrite app_nil_r. reflexivity.
    + eapply (removeRemote_gone env served). exact Hrun.
    + intros c g y f Hc Hne.
      pose proof (removeRemote_frame (S n) _ w c y g f Hc Hne) as Hk.
      rewrite Hrun in Hk. exact Hk.
Qed.

End Removal.

(** The scenario of C4 with a directory: [a.txt], which holds [b], exists
    only remotely. *)
Lemma remote_only_entry_is_removed_witness :
  exists w' tr,
    all (pushed Demo.sub_env (Demo.deployer false [])
           (sync Demo.sub_env (Demo.deployer false []) 2) 2 "/site" "/www"
           ("a.txt", {| local := l_null; remote := r_dir |}))
      (Demo.connected Demo.remoteTree)
    = (Resolved tt, w', (tr ++ [EvNoop])%list) /\
    removeRemote Demo.sub_env 2 "/www/a.txt" (Demo.connected Demo.remoteTree)
    = (Resolved tt, w', tr) /\
    sftp w' = Some 0 /\
    RemoteTree.lookup (remote_fs w') (RemoteTree.resolve "/www/a.txt") = None /\
    forall c g y f, RemoteTree.resolve "/www/a.txt" = (c ++ g :: y)%list -> f <> g ->
      RemoteTree.lookup (remote_fs w') (c ++ [f])%list
      = RemoteTree.lookup Demo.remoteTree (c ++ [f])%list.
Proof.
  refine (proj2 (proj2 (proj2 (proj2 (proj2 (proj2
            (remote_only_entry_is_removed Demo.sub_env (tree_env_served _ _ _)
               (Demo.deployer false []) 1 "/site" "/www" "a.txt"
               {| local := l_null; remote := r_dir |} (Demo.connected Demo.remoteTree)
               eq_refl eq_refl))))))
            0 (RemoteTree.Dir [("b", RemoteTree.File)]) eq_refl eq_refl eq_refl _ _).
  - cbn. repeat split. repeat constructor. intros [].
  - cbn. lia.
Defined.

Lemma removeRemote_removes_the_subtree_witness :
  exists w' tr,
    removeRemote Demo.demo_env 2 "/www/a.txt" (Demo.connected Demo.remoteTree)
    = (Resolved tt, w', tr) /\
    sftp w' = Some 0 /\
    RemoteTree.lookup (remote_fs w') (RemoteTree.resolve "/www/a.txt") = None /\
    forall c g y f, RemoteTree.resolve "/www/a.txt" = (c ++ g :: y)%list -> f <> g ->
      RemoteTree.lookup (remote_fs w') (c ++ [f])%list
      = RemoteTree.lookup Demo.remoteTree (c ++ [f])%list.
Proof.
  refine (removeRemote_removes_the_subtree Demo.demo_env (tree_env_served _ _ _) 1
            "/www/a.txt" ["www"] "a.txt" (RemoteTree.Dir [("b", RemoteTree.File)])
            (Demo.connected Demo.remoteTree) 0 eq_refl eq_refl eq_refl _ _).
  - cbn. repeat split. repeat constructor. intros [].
  - cbn. lia.
Defined.

Lemma upload_creates_directory_first_witness :
  upload Demo.demo_env (Demo.deployer false []) 1 "/site/sub" "/www/a.txt"
    (Demo.connected Demo.remoteTree)
  = (Rejected RemoteTree.failure, Demo.connected Demo.remoteTree,
     [EvUpload "/site/sub" "/www/a.txt"; EvMkdir "/www/a.txt"]).
Proof.
  exact (proj2 (upload_creates_directory_first Demo.demo_env (Demo.deployer false []) 0
                  "/site/sub" "/www/a.txt" (Demo.connected Demo.remoteTree) 0
                  eq_refl eq_refl)
           RemoteTree.failure eq_refl).
Defined.

Lemma upload_with_failing_child_never_settles_witness :
  unsettled (outcome_of (upload Faults.locked_env (Demo.deployer false []) 2 "/site" "/www"
                           {| sftp := Some 0; opened := 1; remote_fs := tt |})).
Proof.
  exact (upload_with_failing_child_never_settles Faults.locked_env (Demo.deployer false []) 0
           "/site" "/www" "a.txt" {| sftp := Some 0; opened := 1; remote_fs := tt |} 0 tt
           RemoteTree.failure eq_refl eq_refl eq_refl (or_introl eq_refl) eq_refl eq_refl
           (fun _ => eq_refl)).
Defined.

Lemma removeRemote_with_failing_child_never_settles_witness :
  unsettled (outcome_of (removeRemote Faults.locked_env 2 "/www"
                           {| sftp := Some 0; opened := 1; remote_fs := tt |})) /\
  Forall (fun ev => ev <> EvRmdir "/www")
    (trace_of (removeRemote Faults.locked_env 2 "/www"
                 {| sftp := Some 0; opened := 1; remote_fs := tt |})).
Proof.
  exact (removeRemote_with_failing_child_never_settles Faults.locked_env
           (Demo.deployer false []) 0 "/www" "locked"
           {| sftp := Some 0; opened := 1; remote_fs := tt |} 0 ["locked"] RemoteTree.failure
           eq_refl eq_refl eq_refl (or_introl eq_refl) (fun _ => eq_refl) (fun _ => eq_refl)).
Defined.

Lemma sync_fails_with_the_listing_witness :
  sync Demo.demo_env (Demo.deployer false []) 1 "/site/logs" "/www/logs"
    (Demo.connected Demo.remoteTree)
  = (Rejected RemoteTree.failure, Demo.connected Demo.remoteTree,
     [EvSync "/site/logs" "/www/logs"; EvReaddir "/www/logs"]).
Proof.
  apply (sync_fails_with_the_listing Demo.demo_env (Demo.deployer false []) 0 "/site/logs"
           "/www/logs" (Demo.connected Demo.remoteTree) 0 RemoteTree.failure).
  - reflexivity.
  - reflexivity.
  - discriminate.
Defined.

Lemma buildProject_entries_witness :
  exists project w1 tb,
    buildProject Demo.demo_env (Demo.deployer false ["logs/"]) "/site" "/www"
      (Demo.connected Demo.remoteTree)
    = (Resolved project, w1, tb) /\
    Map_get project "logs" = Some {| local := l_ignored; remote := r_file |} /\
    Map_get project "old.txt" = Some {| local := l_null; remote := r_file |} /\
    Map_get project "sub" = Some {| local := l_dir; remote := r_null |} /\
    Map_get project "nothing" = None.
Proof.
  destruct (buildProject Demo.demo_env (Demo.deployer false ["logs/"]) "/site" "/www"
              (Demo.connected Demo.remoteTree)) as [[o w1] tb] eqn:E.
  destruct o as [project | e | | ]; try (vm_compute in E; discriminate E).
  exists project, w1, tb. split; [reflexivity | ].
  pose proof (proj2 (buildProject_entries Demo.demo_env (Demo.deployer false ["logs/"])
                       "/site" "/www" (Demo.connected Demo.remoteTree) w1 project tb
                       ["old.txt"; "logs"; "a.txt"] E eq_refl)) as H.
  repeat split; rewrite H; reflexivity.
Defined.

Lemma buildProject_order_witness :
  exists project w1 tb,
    buildProject Demo.demo_env (Demo.deployer false ["logs/"]) "/site" "/www"
      (Demo.connected Demo.remoteTree)
    = (Resolved project, w1, tb) /\
    map fst project = ["a.txt"; "sub"; "logs"; "old.txt"].
Proof.
  destruct (buildProject Demo.demo_env (Demo.deployer false ["logs/"]) "/site" "/www"
              (Demo.connected Demo.remoteTree)) as [[o w1] tb] eqn:E.
  destruct o as [project | e | | ]; try (vm_compute in E; discriminate E).
  exists project, w1, tb. split; [reflexivity | ].
  apply (buildProject_order Demo.demo_env (Demo.deployer false ["logs/"])
           "/site" "/www" (Demo.connected Demo.remoteTree) w1 project tb
           ["old.txt"; "logs"; "a.txt"] E eq_refl).
  - repeat constructor; cbn; intuition discriminate.
  - repeat constructor; cbn; intuition discriminate.
Defined.

(** ** What the methods ask of the server *)

Section Requests.

Context {R : Type}.
Variable env : Env R.
Variable this : SftpDeploy.

(** X15 (what the methods never ask): [upload] asks the server only to create
    ([mkdir], [fastPut]), besides the session: it never lists, stats or
    removes.  [removeRemote] only stats, lists and removes: it never
    creates. *)
Theorem methods_keep_to_their_requests (fuel : nat) (l p : string) (w : World R) :
  Forall (fun e => upload_event e = true) (trace_of (upload env this fuel l p w)) /\
  Forall (fun e => removal_event e = true) (trace_of (removeRemote env fuel p w)).
Proof.
  split.
  - assert (H : forall n l p,
               sat (fun _ : World R => True) (fun e => upload_event e = true)
                 (upload env this n l p)).
    { clear. induction n as [ | n IH]; intros l p; cbn [upload].
      - apply sat_out_of_fuel.
      - apply sat_bind; [apply sat_emit; reflexivity | intros _].
        apply sat_bind.
        { apply sat_unhandled, sat_getSftp; [intros; exact Logic.I | reflexivity]. }
        intros _. destruct (isDirectory env l).
        + apply sat_bind.
          { apply sat_bind; [ | intros; apply sat_ret].
            apply sat_request; [reflexivity | auto]. }
          intros _. apply sat_unhandled, sat_all, Forall_forall. intros op Hop.
          apply in_map_iff in Hop. destruct Hop as [filename [<- _]]. apply IH.
        + apply sat_bind; [ | intros; apply sat_ret].
          apply sat_request; [reflexivity | auto]. }
    apply H. exact Logic.I.
  - pose proof (removeRemote_footprint env fuel p w Logic.I) as [_ H].
    eapply Forall_impl; [ | exact H]. intros e [He _]. exact He.
Qed.

End Requests.

(** ** The connection around a run *)

Section Starting.

Context {R : Type}.
Variable c : Connection.
Variable config : Config.
Variable env : Env R.
Variable this : SftpDeploy.


(** X13 ([start], a refused session): if the connection is made and the
    client then refuses the SFTP session, [start] never settles and
    [client.end] is never called: after [connect], the run asks for the
    session once and nothing more happens. *)
Theorem start_hangs_without_session (n : nat) (w : World R) (e : SftpError) :
  client_connect c (connectOptions c config) = Ok tt ->
  sftp w = None -> client_sftp env (opened w) = Err e ->
  start c config env this (S n) w
  = {| settled := Pending;
       final := {| sftp := None; opened := S (opened w); remote_fs := remote_fs w |};
       asked := [ClientConnect (connectOptions c config);
                 ClientRun (EvSync (localDir this) (remoteDir this)); ClientRun EvSession];
       ending := NeverEnded |}.
Proof.
  intros Hc Hs He. unfold start. rewrite Hc.
  assert (Hrun : sync env this (S n) (localDir this) (remoteDir this) w
                 = (Pending, {| sftp := None; opened := S (opened w); remote_fs := remote_fs w |},
                    [EvSync (localDir this) (remoteDir this); EvSession])).
  { cbn [sync]. unfold bind at 1. cbn [emit]. unfold bind at 1, buildProject, bind at 1, unhandled.
    unfold getSftp. rewrite Hs, He. reflexivity. }
  rewrite Hrun. reflexivity.
Qed.

(** X14 ([start], the connect options): the port handed to [connect] is never
    0; it is 22 exactly when the configured port is absent, 0 or 22, and the
    configured port otherwise.  The key file is read exactly when
    [privateKey] is a non-empty path, and its content is what [connect]
    gets. *)
Theorem start_connects_with_defaults :
  let options := connectOptions c config in
  connect_port options <> 0 /\
  (connect_port options = 22 <->
   port config = None \/ port config = Some 0 \/ port config = Some 22) /\
  (forall n, port config = Some n -> n <> 0 -> connect_port options = n) /\
  (connect_privateKey options = None <->
   privateKey config = None \/ privateKey config = Some "") /\
  (forall path, privateKey config = Some path -> path <> "" ->
     connect_privateKey options = Some (readFileSync c path)).
Proof.
  cbv zeta. unfold connectOptions. cbn [connect_port connect_privateKey].
  split; [ | split; [ | split; [ | split]]].
  - destruct (port config) as [[ | n] | ]; discriminate.
  - destruct (port config) as [[ | n] | ].
    + split; auto.
    + split; [intros ->; auto | intros [H | [H | H]]; congruence].
    + split; auto.
  - intros n -> Hn. destruct n; [contradiction | reflexivity].
  - destruct (privateKey config) as [[ | a s] | ].
    + split; auto.
    + split; [discriminate | intros [H | H]; discriminate].
    + split; auto.
  - intros path -> Hp. destruct path; [contradiction | reflexivity].
Qed.

End Starting.

Lemma start_hangs_without_session_witness :
  start Faults.ready Faults.config Faults.flaky_env (Demo.deployer false []) 5
    (Demo.fresh Demo.remoteTree)
  = {| settled := Pending;
       final := {| sftp := None; opened := 1; remote_fs := Demo.remoteTree |};
       asked := [ClientConnect
                   {| connect_host := Some "example.org"; connect_port := 22;
                      connect_username := Some "deploy"; connect_password := None;
                      connect_passphrase := None; connect_privateKey := Some "KEY" |};
                 ClientRun (EvSync "/site" "/www"); ClientRun EvSession];
       ending := NeverEnded |}.
Proof.
  exact (start_hangs_without_session Faults.ready Faults.config Faults.flaky_env
           (Demo.deployer false []) 4 (Demo.fresh Demo.remoteTree) RemoteTree.failure
           eq_refl eq_refl eq_refl).
Defined.

(** ** Uploading a local tree *)

Section TreeEdits.
Import RemoteTree TreeFacts.

Lemma pruned_Dir {R} (env : Env R) (this : SftpDeploy) (cs : list (string * Node)) (l : string) :
  pruned env this (Dir cs) l = Dir (pruned_children env this l cs).
Proof. cbn [pruned]. f_equal. induction cs as [ | [k v] rest IH]; cbn; [reflexivity | ].
  rewrite IH. reflexivity. Qed.

Lemma replace_replace (x : string) (a b : Node) (cs : list (string * Node)) :
  replace x a (replace x b cs) = replace x a cs.
Proof.
  induction cs as [ | [k v] rest IH]; cbn; [reflexivity | ].
  destruct (String.eqb k x) eqn:E; cbn; rewrite E; [reflexivity | rewrite IH; reflexivity].
Qed.

Lemma replace_same (x : string) (c : Node) (cs : list (string * Node)) :
  assoc x cs = Some c -> replace x c cs = cs.
Proof.
  induction cs as [ | [k v] rest IH]; cbn; [reflexivity | ].
  destruct (String.eqb k x) eqn:E; [intros [= ->]; reflexivity | ].
  intros H. rewrite (IH H). reflexivity.
Qed.

Lemma replace_last (x : string) (a b : Node) (cs : list (string * Node)) :
  assoc x cs = None -> replace x a (cs ++ [(x, b)]) = (cs ++ [(x, a)])%list.
Proof.
  induction cs as [ | [k v] rest IH]; cbn.
  - rewrite String.eqb_refl. reflexivity.
  - destruct (String.eqb k x) eqn:E; [discriminate | ]. intros H. rewrite (IH H). reflexivity.
Qed.

Lemma modify_ext (d : list string) :
  forall t f g, (forall cs, f cs = g cs) -> modify t d f = modify t d g.
Proof.
  induction d as [ | x d IH]; intros t f g H; destruct t as [ | cs]; cbn; try reflexivity.
  - rewrite H. reflexivity.
  - destruct (assoc x cs); [ | reflexivity]. rewrite (IH _ f g H). reflexivity.
Qed.

Lemma modify_congr (d : list string) :
  forall t cs f g, lookup t d = Some (Dir cs) -> f cs = g cs -> modify t d f = modify t d g.
Proof.
  induction d as [ | x d IH]; intros t cs f g; destruct t as [ | cs0]; cbn; try discriminate.
  - intros [= ->] ->. reflexivity.
  - destruct (assoc x cs0) as [c | ]; [ | discriminate]. intros Hl H.
    rewrite (IH _ _ f g Hl H). reflexivity.
Qed.

Lemma modify_id (d : list string) :
  forall t cs, lookup t d = Some (Dir cs) -> modify t d (fun cs => Some cs) = Some t.
Proof.
  induction d as [ | x d IH]; intros t cs; destruct t as [ | cs0]; cbn; try discriminate.
  - reflexivity.
  - destruct (assoc x cs0) as [c | ] eqn:E; [ | discriminate]. intros Hl.
    rewrite (IH _ _ Hl). cbn. rewrite (replace_same _ _ _ E). reflexivity.
Qed.

Lemma modify_modify (d : list string) :
  forall t t1 f g, modify t d f = Some t1 ->
    modify t1 d g
    = modify t d (fun cs => match f cs with Some cs' => g cs' | None => None end).
Proof.
  induction d as [ | x d IH]; intros t t1 f g; destruct t as [ | cs]; cbn; try discriminate.
  - destruct (f cs) as [cs1 | ]; [ | discriminate]. intros [= <-]. reflexivity.
  - destruct (assoc x cs) as [c | ] eqn:E; [ | discriminate].
    destruct (modify c d f) as [c1 | ] eqn:Em; [ | discriminate]. intros [= <-].
    cbn. rewrite assoc_replace, String.eqb_refl, E. rewrite (IH _ _ _ g Em).
    match goal with |- context [modify c d ?F] => destruct (modify c d F) end; cbn;
      [rewrite replace_replace | ]; reflexivity.
Qed.

Lemma modify_snoc (d : list string) (name : string) :
  forall t g,
    modify t (d ++ [name]) g
    = modify t d (fun cs => match assoc name cs with
                            | Some (Dir a) => option_map (fun a' => replace name (Dir a') cs) (g a)
                            | _ => None
                            end).
Proof.
  induction d as [ | x d IH]; intros t g; destruct t as [ | cs]; cbn; try reflexivity.
  - destruct (assoc name cs) as [[ | a] | ]; cbn; try reflexivity.
    destruct (g a); reflexivity.
  - destruct (assoc x cs); [ | reflexivity]. rewrite IH. reflexivity.
Qed.

(** Adding to a directory that was grafted. *)
Lemma graft_fill (t t1 : Node) (d : list string) (name : string)
    (cs a b : list (string * Node)) :
  lookup t d = Some (Dir cs) -> assoc name cs = None ->
  graft t d name (Dir a) = Some t1 ->
  modify t1 (d ++ [name]) (fun x => Some (x ++ b)%list) = graft t d name (Dir (a ++ b)).
Proof.
  intros Hl Ha Hg. unfold graft in *. rewrite modify_snoc, (modify_modify _ _ _ _ _ Hg).
  apply (modify_congr d t cs); [exact Hl | ].
  rewrite assoc_app, Ha. cbn. rewrite String.eqb_refl. cbn.
  rewrite (replace_last _ _ _ _ Ha). reflexivity.
Qed.

Lemma modify_total (d : list string) :
  forall t cs cs' g0,
    lookup t d = Some (Dir cs) -> g0 cs = Some cs' -> exists t', modify t d g0 = Some t'.
Proof.
  induction d as [ | x d IH]; intros t cs cs' g0; destruct t as [ | cs0]; cbn; try discriminate.
  - intros [= ->] ->. cbn. eauto.
  - destruct (assoc x cs0) as [c | ]; [ | discriminate].
    intros Hl Hg. destruct (IH _ _ _ _ Hl Hg) as [t' ->]. cbn. eauto.
Qed.

Lemma at_entry_eq (t : Node) (p : string) (d : list string) (name : string)
    (f : string -> list (string * Node) -> option (list (string * Node))) :
  resolve p = (d ++ [name])%list ->
  at_entry t p f = match modify t d (f name) with Some t' => Ok t' | None => Err failure end.
Proof.
  intros Hp. unfold at_entry. rewrite Hp, rev_app_distr. cbn. rewrite rev_involutive.
  reflexivity.
Qed.

(** Creating an entry that is not there is a graft. *)
Lemma mkdir_graft (t : Node) (p : string) (d : list string) (name : string)
    (cs : list (string * Node)) :
  resolve p = (d ++ [name])%list -> lookup t d = Some (Dir cs) -> assoc name cs = None ->
  exists t', mkdir t p = Ok t' /\ graft t d name (Dir []) = Some t'.
Proof.
  intros Hp Hl Ha. unfold mkdir. rewrite (at_entry_eq _ _ _ _ _ Hp).
  rewrite (modify_congr d t cs _ (fun cs => Some (cs ++ [(name, Dir [])])%list) Hl)
    by (rewrite Ha; reflexivity).
  destruct (modify_total d t cs _ (fun cs => Some (cs ++ [(name, Dir [])])%list) Hl eq_refl)
    as [t' Ht].
  exists t'. unfold graft. rewrite Ht. auto.
Qed.

Lemma fastPut_graft (t : Node) (l p : string) (d : list string) (name : string)
    (cs : list (string * Node)) :
  resolve p = (d ++ [name])%list -> lookup t d = Some (Dir cs) -> assoc name cs = None ->
  exists t', fastPut t l p = Ok t' /\ graft t d name File = Some t'.
Proof.
  intros Hp Hl Ha. unfold fastPut. rewrite (at_entry_eq _ _ _ _ _ Hp).
  rewrite (modify_congr d t cs _ (fun cs => Some (cs ++ [(name, File)])%list) Hl)
    by (rewrite Ha; reflexivity).
  destruct (modify_total d t cs _ (fun cs => Some (cs ++ [(name, File)])%list) Hl eq_refl)
    as [t' Ht].
  exists t'. unfold graft. rewrite Ht. auto.
Qed.

Lemma graft_lookup (t t' : Node) (d : list string) (name : string) (node : Node)
    (cs : list (string * Node)) :
  lookup t d = Some (Dir cs) -> graft t d name node = Some t' ->
  lookup t' d = Some (Dir (cs ++ [(name, node)])).
Proof.
  intros Hl Hg. destruct (modify_at d t t' _ Hg) as [cs0 [cs' [H1 [H2 H3]]]].
  rewrite Hl in H1. injection H1 as <-. injection H2 as <-. exact H3.
Qed.

Lemma In_assoc (k : string) (v : Node) (cs : list (string * Node)) :
  NoDup (map fst cs) -> In (k, v) cs -> assoc k cs = Some v.
Proof.
  induction cs as [ | [k0 v0] rest IH]; cbn; [contradiction | ].
  intros Hnd [[= -> ->] | Hin].
  - rewrite String.eqb_refl. reflexivity.
  - inversion Hnd as [ | ? ? Hnotin Hnd']; subst.
    destruct (String.eqb k0 k) eqn:E; [ | exact (IH Hnd' Hin)].
    apply String.eqb_eq in E. subst k0. exfalso. apply Hnotin.
    apply in_map_iff. exists (k, v). auto.
Qed.

End TreeEdits.

Section Mirror.
Import RemoteTree TreeFacts.

Variable env : Env Node.
Variable this : SftpDeploy.
Variable lt : Node.
Hypothesis served : tree_served env.
Hypothesis reads : tree_read env lt.

Lemma local_child (l k : string) (lcs : list (string * Node)) (v : Node) :
  lookup lt (resolve l) = Some (Dir lcs) -> proper k -> assoc k lcs = Some v ->
  lookup lt (resolve (l ++ path_sep env ++ k)) = Some v /\
  isDirectory env (l ++ path_sep env ++ k) = is_dir v.
Proof.
  intros Hl Hk Ha. destruct reads as [Hsep [_ Hdir]].
  assert (E : lookup lt (resolve (l ++ path_sep env ++ k)) = Some v).
  { rewrite Hsep, (resolve_child _ _ Hk), lookup_child, Hl. exact Ha. }
  split; [exact E | ]. rewrite Hdir. unfold local_isDirectory. rewrite E.
  destruct v; reflexivity.
Qed.

Let upload_works (m : nat) : Prop :=
  forall l p d name node w h cs,
    lookup lt (resolve l) = Some node -> tidy node -> height node <= m ->
    resolve p = (d ++ [name])%list -> sftp w = Some h ->
    lookup (remote_fs w) d = Some (Dir cs) -> assoc name cs = None ->
    exists w' tr,
      upload env this (S m) l p w = (Resolved tt, w', tr) /\ sftp w' = Some h /\
      graft (remote_fs w) d name (pruned env this node l) = Some (remote_fs w').

(** The children of a directory, uploaded one after the other. *)
Lemma children_uploaded (m : nat) (l p : string) (h : Handle)
    (lcs : list (string * Node)) :
  upload_works m ->
  lookup lt (resolve l) = Some (Dir lcs) -> NoDup (map fst lcs) ->
  forall todo done w,
    sftp w = Some h ->
    lookup (remote_fs w) (resolve p) = Some (Dir done) ->
    NoDup (map fst todo) ->
    (forall k, In k (map fst todo) -> assoc k done = None) ->
    (forall k v, In (k, v) todo ->
       In (k, v) lcs /\ proper k /\ tidy v /\ height v <= m) ->
    exists w' tr,
      all (map (fun filename => upload env this (S m) (l ++ path_sep env ++ filename)
                                  (p ++ "/" ++ filename))
             (filter (fun filename =>
                        negb (isIgnored env this (l ++ path_sep env ++ filename)
                                (isDirectory env (l ++ path_sep env ++ filename))))
                (map fst todo))) w
      = (Resolved tt, w', tr) /\
      sftp w' = Some h /\
      modify (remote_fs w) (resolve p)
        (fun cs => Some (cs ++ pruned_children env this l todo)%list)
      = Some (remote_fs w').
Proof.
  intros IH Hl Hnd. induction todo as [ | [k v] rest IHrest]; intros done w Hs Hp Hnd' Hfresh Hall.
  - exists w, []. cbn. split; [reflexivity | split; [exact Hs | ]].
    rewrite (modify_ext _ _ _ (fun cs => Some cs)) by (intros; rewrite app_nil_r; reflexivity).
    apply (modify_id _ _ _ Hp).
  - destruct (Hall k v (or_introl eq_refl)) as [Hin [Hk [Htv Hhv]]].
    pose proof (In_assoc _ _ _ Hnd Hin) as Hassoc.
    destruct (local_child l k lcs v Hl Hk Hassoc) as [Hlv Hdv].
    inversion Hnd' as [ | ? ? Hnotin Hnd'']; subst.
    cbn [map fst filter pruned_children]. rewrite Hdv.
    destruct (isIgnored env this (l ++ path_sep env ++ k) (is_dir v)) eqn:Hig; cbn [negb].
    + apply (IHrest done w Hs Hp Hnd'').
      * intros k' Hk'. apply Hfresh. right. exact Hk'.
      * intros k' v' Hin'. apply Hall. right. exact Hin'.
    + cbn [map all].
      destruct (IH (l ++ path_sep env ++ k) (p ++ "/" ++ k) (resolve p) k v w h done Hlv Htv Hhv
                  (resolve_child _ _ Hk) Hs Hp (Hfresh k (or_introl eq_refl)))
        as [w1 [t1 [Hrun1 [Hs1 Hg1]]]].
      rewrite Hrun1.
      pose proof (graft_lookup _ _ _ _ _ _ Hp Hg1) as Hp1.
      destruct (IHrest (done ++ [(k, pruned env this v (l ++ path_sep env ++ k))])%list w1
                  Hs1 Hp1 Hnd'')
        as [w' [t2 [Hrun2 [Hs' Hm2]]]].
      * intros k' Hk'. rewrite assoc_app, (Hfresh k' (or_intror Hk')). cbn.
        destruct (String.eqb k k') eqn:E; [ | reflexivity].
        apply String.eqb_eq in E. subst k'. contradiction.
      * intros k' v' Hin'. apply Hall. right. exact Hin'.
      * rewrite Hrun2. exists w', (t1 ++ t2)%list. split; [reflexivity | split; [exact Hs' | ]].
        rewrite <- Hm2. unfold graft in Hg1. rewrite (modify_modify _ _ _ _ _ Hg1).
        apply modify_ext. intros cs. rewrite <- app_assoc. reflexivity.
Qed.

Lemma upload_works_all (m : nat) : upload_works m.
Proof.
  induction m as [m IH] using lt_wf_ind.
  intros l p d name node w h cs Hl Ht Hh Hp Hs Hd Ha.
  destruct served as [_ [_ [Hmkdir [Hput _]]]].
  destruct reads as [Hsep [Hreaddir Hisdir]].
  destruct node as [ | lcs].
  - (* a file *)
    assert (Hfile : isDirectory env l = false).
    { rewrite Hisdir. unfold local_isDirectory. rewrite Hl. reflexivity. }
    cbn [upload]. rewrite Hfile. unfold bind at 1. cbn [emit]. unfold bind at 1, unhandled at 1.
    rewrite (getSftp_cached env w h Hs). unfold sftp_fastPut, bind, request. rewrite Hput.
    destruct (fastPut_graft (remote_fs w) l p d name cs Hp Hd Ha) as [t' [Hf Hg]].
    rewrite Hf. cbn. eexists. eexists. split; [reflexivity | ]. split; [exact Hs | exact Hg].
  - (* a directory *)
    assert (Hdir : isDirectory env l = true).
    { rewrite Hisdir. unfold local_isDirectory. rewrite Hl. reflexivity. }
    rewrite (upload_directory_run env this m l p w h Hdir Hs). rewrite Hmkdir.
    destruct (mkdir_graft (remote_fs w) p d name cs Hp Hd Ha) as [t1 [Hmk Hg1]].
    rewrite Hmk.
    pose proof (graft_lookup _ _ _ _ _ _ Hd Hg1) as Hd1.
    assert (Hp1 : lookup t1 (resolve p) = Some (Dir [])).
    { rewrite Hp, lookup_child, Hd1, assoc_app, Ha. cbn. rewrite String.eqb_refl. reflexivity. }
    destruct m as [ | m]; [cbn in Hh; lia | ].
    assert (Hkids : forall k v, In (k, v) lcs ->
                      In (k, v) lcs /\ proper k /\ tidy v /\ height v <= m).
    { intros k v Hin. split; [exact Hin | ].
      destruct (tidy_child lcs k v Ht (In_assoc _ _ _ (tidy_names _ Ht) Hin)) as [H1 [H2 H3]].
      split; [exact H1 | split; [exact H2 | lia]]. }
    destruct (children_uploaded m l p h lcs (IH m (Nat.lt_succ_diag_r m)) Hl (tidy_names _ Ht)
                lcs [] (set_remote w t1) Hs Hp1 (tidy_names _ Ht) (fun _ _ => eq_refl) Hkids)
      as [w' [t2 [Hrun [Hs' Hm]]]].
    unfold upload_children. rewrite Hreaddir. unfold local_readdir. rewrite Hl.
    unfold unhandled. rewrite Hrun.
    eexists. eexists. split; [reflexivity | ]. split; [exact Hs' | ].
    rewrite pruned_Dir. rewrite <- Hm. cbn [set_remote remote_fs]. rewrite Hp.
    symmetry. exact (graft_fill _ _ _ _ _ [] _ Hd Ha Hg1).
Qed.

(** X16 ([upload], what it achieves): on a tree server and a local tree,
    with the session at hand, [upload] of a local file or directory tree to a
    remote path whose parent directory exists and has no entry of that name
    resolves (fuel above the height of the tree) and keeps the session.  The
    remote tree is then the former one with the local tree, without its
    excluded entries, added as the last entry of the parent: the remote path
    holds that tree, and nothing else changed. *)
Theorem upload_mirrors_the_local_tree (m : nat) (l p : string) (d : list string)
    (name : string) (node : Node) (w : World Node) (h : Handle) (cs : list (string * Node)) :
  lookup lt (resolve l) = Some node -> tidy node -> height node <= m ->
  resolve p = (d ++ [name])%list -> sftp w = Some h ->
  lookup (remote_fs w) d = Some (Dir cs) -> assoc name cs = None ->
  exists w' tr,
    upload env this (S m) l p w = (Resolved tt, w', tr) /\
    sftp w' = Some h /\
    graft (remote_fs w) d name (pruned env this node l) = Some (remote_fs w') /\
    lookup (remote_fs w') (resolve p) = Some (pruned env this node l).
Proof.
  intros Hl Ht Hh Hp Hs Hd Ha.
  destruct (upload_works_all m l p d name node w h cs Hl Ht Hh Hp Hs Hd Ha)
    as [w' [tr [Hrun [Hs' Hg]]]].
  exists w', tr. split; [exact Hrun | split; [exact Hs' | split; [exact Hg | ]]].
  rewrite Hp, lookup_child, (graft_lookup _ _ _ _ _ _ Hd Hg), assoc_app, Ha. cbn.
  rewrite String.eqb_refl. reflexivity.
Qed.




End Mirror.


Lemma upload_mirrors_the_local_tree_witness :
  exists w' tr,
    upload Demo.demo_env (Demo.deployer false ["logs/"]) 3 "/site" "/www/new"
      (Demo.connected Demo.remoteTree)
    = (Resolved tt, w', tr) /\
    RemoteTree.lookup (remote_fs w') ["www"; "new"]
    = Some (RemoteTree.Dir [("a.txt", RemoteTree.File);
                            ("sub", RemoteTree.Dir [("x.txt", RemoteTree.File)])]).
Proof.
  destruct (upload_mirrors_the_local_tree Demo.demo_env (Demo.deployer false ["logs/"])
              Demo.localTree (tree_env_served _ _ _)
              (conj eq_refl (conj eq_refl eq_refl)) 2 "/site" "/www/new" ["www"] "new"
              (RemoteTree.Dir [("a.txt", RemoteTree.File);
                               ("sub", RemoteTree.Dir [("x.txt", RemoteTree.File)]);
                               ("logs", RemoteTree.Dir [("app.log", RemoteTree.File)])])
              (Demo.connected Demo.remoteTree) 0
              [("old.txt", RemoteTree.File); ("logs", RemoteTree.File);
               ("a.txt", RemoteTree.Dir [("b", RemoteTree.File)])])
    as [w' [tr [H1 [_ [_ H4]]]]].
  - reflexivity.
  - cbn. repeat split; repeat constructor; cbn; intuition discriminate.
  - cbn. lia.
  - reflexivity.
  - reflexivity.
  - reflexivity.
  - reflexivity.
  - exists w', tr. split; [exact H1 | exact H4].
Defined.
